(** * clone_catalog.py: a shallow embedding and its verified properties

    The script clones a catalog of a configuration export by editing three
    text files with [str.replace] and regular expressions.  The embedding
    follows the script: Python strings are lists of code points, the
    [re] module is a backtracking matcher that lists the ways a pattern can
    match in the order the engine tries them, and the file system is a finite
    map from paths to nodes threaded through a state-and-exception monad. *)

From Stdlib Require Import NArith String Ascii Lia.
From stdpp Require Import prelude gmap.

Set Default Proof Using "Type".
Local Open Scope N_scope.
Local Open Scope nat_scope.
Local Open Scope list_scope.

(** ** Strings *)

(** A Python [str] is a sequence of Unicode code points. *)
Abbreviation char := N (only parsing).
Abbreviation str := (list N) (only parsing).

(** ASCII literals of the script, as code points. *)
Definition lit (s : string) : str :=
  map N_of_ascii (list_ascii_of_string s).

Definition NL : char := 10%N.
Definition TAB : char := 9%N.

Fixpoint starts_with (p s : str) : bool :=
  match p, s with
  | [], _ => true
  | _ :: _, [] => false
  | a :: p', b :: s' => N.eqb a b && starts_with p' s'
  end.

(** ** Character classes of the patterns *)

(** [.] without DOTALL: any character but the newline. *)
Definition dot (c : char) : bool := negb (N.eqb c NL).

(** [\s] on a [str] pattern: the characters for which [str.isspace] holds. *)
Definition is_space (c : char) : bool :=
  ((9 <=? c) && (c <=? 13))%N || ((28 <=? c) && (c <=? 32))%N
  || N.eqb c 133 || N.eqb c 160 || N.eqb c 5760
  || ((8192 <=? c) && (c <=? 8202))%N
  || N.eqb c 8232 || N.eqb c 8233 || N.eqb c 8239 || N.eqb c 8287
  || N.eqb c 12288.

(** [[\s\S]]: a space or a non-space. *)
Definition space_or_not (c : char) : bool := is_space c || negb (is_space c).

(** [[^<]]. *)
Definition not_lt (c : char) : bool := negb (N.eqb c 60).

(** [[0-9a-f]] under [re.IGNORECASE]. *)
Definition is_hex (c : char) : bool :=
  ((48 <=? c) && (c <=? 57))%N || ((97 <=? c) && (c <=? 102))%N
  || ((65 <=? c) && (c <=? 70))%N.

(** ** Regular expressions *)

(** The fragment of [re] syntax the script uses: literals, classes,
    concatenation, greedy and lazy stars of a class, and the greedy [?]. *)
Inductive regex : Type :=
| Eps
| Chr (c : char)
| Cls (p : char -> bool)
| Cat (r1 r2 : regex)
| Star (greedy : bool) (p : char -> bool)
| Opt (r : regex).

Definition cons_fst (c : char) (x : str * str) : str * str := (c :: x.1, x.2).
Definition app_fst (m : str) (x : str * str) : str * str := (m ++ x.1, x.2).

(** The ways [p*] (or [p*?]) matches a prefix of [s], in the order the
    backtracking engine tries them: longest first when greedy, shortest
    first when lazy.  Each way is the matched text and the rest. *)
Fixpoint star_ends (greedy : bool) (p : char -> bool) (s : str)
  : list (str * str) :=
  match s with
  | [] => [([], [])]
  | c :: s' =>
      if p c then
        if greedy
        then map (cons_fst c) (star_ends greedy p s') ++ [([], s)]
        else ([], s) :: map (cons_fst c) (star_ends greedy p s')
      else [([], s)]
  end.

(** All ways [r] matches a prefix of [s], in backtracking order. *)
Fixpoint ends (r : regex) (s : str) : list (str * str) :=
  match r with
  | Eps => [([], s)]
  | Chr c =>
      match s with
      | x :: s' => if N.eqb x c then [([x], s')] else []
      | [] => []
      end
  | Cls p =>
      match s with
      | x :: s' => if p x then [([x], s')] else []
      | [] => []
      end
  | Cat r1 r2 =>
      flat_map (fun x => map (app_fst x.1) (ends r2 x.2)) (ends r1 s)
  | Star g p => star_ends g p s
  | Opt r1 => ends r1 s ++ [([], s)]
  end.

(** A matcher tells whether a pattern matches at the start of a string and,
    if so, the matched text and the rest. *)
Definition matcher : Type := str -> option (str * str).

(** [pattern.match]: the first way found. *)
Definition rmatch (r : regex) : matcher := fun s => head (ends r s).

(** A literal string as a pattern (what [re.escape] of it matches). *)
Definition Lits (l : str) : regex := foldr (fun c r => Cat (Chr c) r) Eps l.

Definition Seq (rs : list regex) : regex := foldr Cat Eps rs.

Fixpoint Rep (n : nat) (r : regex) : regex :=
  match n with
  | 0 => Eps
  | S k => Cat r (Rep k r)
  end.

(** [p+]. *)
Definition Plus (p : char -> bool) : regex := Cat (Cls p) (Star true p).

(** ** Scanning a string for the non-overlapping matches *)

(** What [finditer] sees going left to right: a character that starts no
    match is kept; a match is taken whole and the scan resumes after it (one
    character further when the match is empty). *)
Inductive piece : Type :=
| Keep (c : char)
| Hit (m : str).

Fixpoint scan_fuel (fuel : nat) (mt : matcher) (s : str) : list piece :=
  match fuel with
  | 0 => []
  | S n =>
      let step :=
        match s with
        | [] => []
        | c :: s' => Keep c :: scan_fuel n mt s'
        end in
      match mt s with
      | Some (m, rest) =>
          Hit m :: match m with
                   | [] => step
                   | _ :: _ => scan_fuel n mt rest
                   end
      | None => step
      end
  end.

Definition scan (mt : matcher) (s : str) : list piece :=
  scan_fuel (S (length s)) mt s.

(** [re.findall] for a pattern whose only group is the whole pattern. *)
Definition hits (ps : list piece) : list str :=
  omap (fun p => match p with Hit m => Some m | Keep _ => None end) ps.

Definition findall (r : regex) (s : str) : list str := hits (scan (rmatch r) s).

(** [re.search(...).group(1)], same proviso. *)
Fixpoint search (r : regex) (s : str) : option str :=
  match rmatch r s with
  | Some (m, _) => Some m
  | None =>
      match s with
      | [] => None
      | _ :: s' => search r s'
      end
  end.

(** [pattern.sub(repl, s)] with a constant replacement. *)
Definition fill (repl : str) (ps : list piece) : str :=
  flat_map (fun p => match p with Keep c => [c] | Hit _ => repl end) ps.

Definition sub (r : regex) (repl : str) (s : str) : str :=
  fill repl (scan (rmatch r) s).

(** [str.replace(old, new)]: the same scan with a literal. *)
Definition lit_match (old : str) : matcher := fun s =>
  if starts_with old s then Some (old, drop (length old) s) else None.

Definition replace (old new : str) (s : str) : str :=
  fill new (scan (lit_match old) s).

(** ** The patterns of the script *)

Definition O_CATALOG : str := lit "<cfg:Catalog>".
Definition C_CATALOG : str := lit "</cfg:Catalog>".
Definition O_DOCUMENT : str := lit "<cfg:Document>".
Definition C_DOCUMENT : str := lit "</cfg:Document>".
Definition O_META : str := lit "<xr:Metadata>".
Definition C_META : str := lit "</xr:Metadata>".
Definition O_NAME : str := lit "<xr:name>".
Definition C_NAME : str := lit "</xr:name>".

(** ['.*<cfg:Catalog>{ref}</cfg:Catalog>.*\n?'] with [ref] escaped. *)
Definition config_trace_pattern (ref : str) : regex :=
  Seq [Star true dot; Lits O_CATALOG; Lits ref; Lits C_CATALOG;
       Star true dot; Opt (Chr NL)].

(** ['<xr:Metadata>[\s\S]*?<xr:name>{ref}</xr:name>[\s\S]*?</xr:Metadata>\s*\n?']. *)
Definition dump_trace_pattern (ref : str) : regex :=
  Seq [Lits O_META; Star false space_or_not; Lits O_NAME; Lits ref;
       Lits C_NAME; Star false space_or_not; Lits C_META;
       Star true is_space; Opt (Chr NL)].

(** [[0-9a-f]{8}-[0-9a-f]{4}-[0-9a-f]{4}-[0-9a-f]{4}-[0-9a-f]{12}],
    IGNORECASE. *)
Definition HYPHEN : char := 45%N.
Definition uuid_pattern : regex :=
  Seq [Rep 8 (Cls is_hex); Chr HYPHEN; Rep 4 (Cls is_hex); Chr HYPHEN;
       Rep 4 (Cls is_hex); Chr HYPHEN; Rep 4 (Cls is_hex); Chr HYPHEN;
       Rep 12 (Cls is_hex)].

(** [(.*?<cfg:Catalog>.*</cfg:Catalog>)]. *)
Definition catalog_line_pattern : regex :=
  Seq [Star false dot; Lits O_CATALOG; Star true dot; Lits C_CATALOG].

(** [(\s*<cfg:Document>.*</cfg:Document>)]. *)
Definition document_line_pattern : regex :=
  Seq [Star true is_space; Lits O_DOCUMENT; Star true dot; Lits C_DOCUMENT].

(** [(<xr:Metadata>[\s\S]*?<xr:name>KIND\.[^<]+</xr:name>[\s\S]*?</xr:Metadata>)]. *)
Definition block_pattern (kind : str) : regex :=
  Seq [Lits O_META; Star false space_or_not; Lits O_NAME; Lits kind;
       Chr 46%N; Plus not_lt; Lits C_NAME; Star false space_or_not;
       Lits C_META].

Definition catalog_block_pattern : regex := block_pattern (lit "Catalog").
Definition document_block_pattern : regex := block_pattern (lit "Document").

(** ** The world: files, the identifier generator, what was done *)

Inductive node : Type :=
| File (content : str)
| Dir.

(** What the run does that can be observed from outside, in order. *)
Inductive event : Type :=
| Wrote (path content : str)
| Removed (path : str)
| Printed (msg : str)
| PrintedErr (msg : str)
| Traceback.

(** File contents are the text [read_file] returns and [write_file] takes.
    [drawn] counts the identifiers generated so far. *)
Record world : Type := World {
  fs : gmap str node;
  drawn : nat;
  log : list event
}.

Inductive exn : Type :=
| FileNotFoundError (msg : str)
| IsADirectoryError (msg : str).

Definition exn_str (e : exn) : str :=
  match e with
  | FileNotFoundError msg => msg
  | IsADirectoryError msg => msg
  end.

(** Computations that read and change the world and may raise; what was
    done before an exception stays done. *)
Definition M (A : Type) : Type := world -> (exn + A) * world.

Definition ret {A} (a : A) : M A := fun w => (inr a, w).
Definition raise {A} (e : exn) : M A := fun w => (inl e, w).
Definition bind {A B} (m : M A) (f : A -> M B) : M B := fun w =>
  match m w with
  | (inl e, w') => (inl e, w')
  | (inr a, w') => f a w'
  end.

Notation "x <- m ;; k" := (bind m (fun x => k))
  (at level 100, m at next level, right associativity).
Notation "m ;; k" := (bind m (fun _ => k))
  (at level 100, right associativity).

Fixpoint for_each {A} (l : list A) (body : A -> M unit) : M unit :=
  match l with
  | [] => ret tt
  | a :: l' => body a ;; for_each l' body
  end.

Definition emit (e : event) : M unit := fun w =>
  (inr tt, World (fs w) (drawn w) (log w ++ [e])).

(** [os.path.join] (POSIX). *)
Definition SLASH : char := 47%N.
Definition path_join (a b : str) : str :=
  if starts_with [SLASH] b then b
  else match last a with
       | None => b
       | Some c => if N.eqb c SLASH then a ++ b else a ++ SLASH :: b
       end.

Definition path_exists (p : str) : M bool := fun w =>
  (inr (match fs w !! p with Some _ => true | None => false end), w).

Definition path_isdir (p : str) : M bool := fun w =>
  (inr (match fs w !! p with Some Dir => true | _ => false end), w).

Definition errno_msg (what path : str) : str :=
  what ++ lit ": '" ++ path ++ lit "'".

Definition os_remove (p : str) : M unit := fun w =>
  match fs w !! p with
  | Some (File _) =>
      (inr tt, World (delete p (fs w)) (drawn w) (log w ++ [Removed p]))
  | Some Dir =>
      (inl (IsADirectoryError (errno_msg (lit "[Errno 21] Is a directory") p)), w)
  | None =>
      (inl (FileNotFoundError
              (errno_msg (lit "[Errno 2] No such file or directory") p)), w)
  end.

(** ** The script *)

Definition PROJECT_BASE_PATH : str := lit "1c-test-xml-7".
Definition CONFIG_DIR : str := lit "Configuration".
Definition DONOR_TYPE : str := lit "Catalog".
(** ["Предметы"] *)
Definition DONOR_NAME : str :=
  [1055; 1088; 1077; 1076; 1084; 1077; 1090; 1099]%N.
(** ["УТО_Тест"] *)
Definition CLONE_NAME : str :=
  [1059; 1058; 1054; 95; 1058; 1077; 1089; 1090]%N.

Definition print_step (message : str) : M unit :=
  emit (Printed (lit "[*] " ++ message)).
Definition print_success (message : str) : M unit :=
  emit (Printed (lit "[+] " ++ message)).
Definition print_error (message : str) : M unit :=
  emit (PrintedErr (lit "[!] " ++ message)).

Definition read_file (path : str) : M str := fun w =>
  match fs w !! path with
  | Some (File content) => (inr content, w)
  | Some Dir =>
      (inl (IsADirectoryError
              (errno_msg (lit "[Errno 21] Is a directory") path)), w)
  | None =>
      (inl (FileNotFoundError
              (errno_msg (lit "[Errno 2] No such file or directory") path)), w)
  end.

Definition write_file (path content : str) : M unit := fun w =>
  match fs w !! path with
  | Some Dir =>
      (inl (IsADirectoryError
              (errno_msg (lit "[Errno 21] Is a directory") path)), w)
  | _ =>
      (inr tt, World (<[path := File content]> (fs w)) (drawn w)
                     (log w ++ [Wrote path content]))
  end.

(** A file's content in [fs] is its text: what [read_file] returns, that is
    the decoded characters of the file with the line ends as the text-mode
    read delivers them.  [universal_newlines] is that translation
    ([open(path, "r")] reads each ["\r\n"] and each other ["\r"] as
    ["\n"]), and [on_disk raw] is the node of a file whose decoded
    characters are [raw].  What [write_file] stores is the text it is
    given (a newline is written as it is where the line separator is
    ["\n"]). *)
Definition CR : char := 13%N.

Fixpoint universal_newlines (raw : str) : str :=
  match raw with
  | [] => []
  | c :: raw' =>
      if N.eqb c CR then
        match raw' with
        | d :: raw'' =>
            if N.eqb d NL then NL :: universal_newlines raw''
            else NL :: universal_newlines raw'
        | [] => [NL]
        end
      else c :: universal_newlines raw'
  end.

Definition on_disk (raw : str) : node := File (universal_newlines raw).

Section Script.

(** [uuid.uuid4] is random; [uuid4 k] is the text of the [k]-th identifier
    it hands out during the run. *)
Variable uuid4 : nat -> str.

Definition get_new_guid : M str := fun w =>
  (inr (uuid4 (drawn w)), World (fs w) (S (drawn w)) (log w)).

(** [pattern.sub(lambda m: get_new_guid(), s)]: one call per match. *)
Fixpoint fill_guids (ps : list piece) : M str :=
  match ps with
  | [] => ret []
  | Keep c :: ps' => t <- fill_guids ps' ;; ret (c :: t)
  | Hit _ :: ps' => g <- get_new_guid ;; t <- fill_guids ps' ;; ret (g ++ t)
  end.

Definition sub_guids (r : regex) (s : str) : M str :=
  fill_guids (scan (rmatch r) s).

(** The body of the loop over the two index files. *)
Definition clean_index (base_path clone_ref_name : str)
  (entry : str * (str -> regex)) : M unit :=
  let '(filename, pattern_template) := entry in
  let path := path_join base_path filename in
  present <- path_exists path ;;
  if negb present then ret tt else
  content <- read_file path ;;
  let pattern := pattern_template clone_ref_name in
  let new_content := sub pattern [] content in
  if bool_decide (content ≠ new_content) then
    write_file path new_content ;;
    print_success (lit "Removed entry for '" ++ clone_ref_name
                   ++ lit "' from " ++ filename)
  else ret tt.

Definition remove_existing_traces (base_path clone_name : str) : M unit :=
  print_step (lit "Ensuring idempotency by cleaning up traces of '"
              ++ clone_name ++ lit "'...") ;;
  let clone_ref_name := DONOR_TYPE ++ lit "." ++ clone_name in
  for_each [(lit "Configuration.xml", config_trace_pattern);
            (lit "ConfigDumpInfo.xml", dump_trace_pattern)]
    (clean_index base_path clone_ref_name) ;;
  let clone_file_path :=
    path_join (path_join base_path (lit "Catalogs")) (clone_name ++ lit ".xml") in
  present <- path_exists clone_file_path ;;
  if present then
    os_remove clone_file_path ;;
    print_success (lit "Removed old file: " ++ clone_file_path)
  else ret tt.

Definition rename (donor_name clone_name content : str) : str :=
  replace (lit ">" ++ donor_name ++ lit "<") (lit ">" ++ clone_name ++ lit "<")
    (replace (lit "." ++ donor_name) (lit "." ++ clone_name) content).

Definition clone_and_regenerate (base_path donor_name clone_name : str)
  : M unit :=
  print_step (lit "Cloning '" ++ donor_name ++ lit "' to '" ++ clone_name
              ++ lit "' via text manipulation...") ;;
  let donor_path :=
    path_join (path_join base_path (lit "Catalogs")) (donor_name ++ lit ".xml") in
  let clone_path :=
    path_join (path_join base_path (lit "Catalogs")) (clone_name ++ lit ".xml") in
  present <- path_exists donor_path ;;
  if negb present then
    raise (FileNotFoundError (lit "Donor file not found: " ++ donor_path))
  else
  content <- read_file donor_path ;;
  let content := rename donor_name clone_name content in
  print_success (lit "Performed genetic string replacement.") ;;
  content <- sub_guids uuid_pattern content ;;
  print_success (lit "Regenerated all UUIDs in the file.") ;;
  write_file clone_path content ;;
  print_success (lit "Saved new clone file to: " ++ clone_path).

Definition integrate_into_config (base_path clone_name : str) : M unit :=
  print_step (lit "Integrating clone into configuration topology via robust text insertion...") ;;
  let clone_ref_name := DONOR_TYPE ++ lit "." ++ clone_name in
  (* 1. Inject into Configuration.xml *)
  let config_xml_path := path_join base_path (lit "Configuration.xml") in
  content <- read_file config_xml_path ;;
  let new_line := [TAB; TAB; TAB] ++ O_CATALOG ++ clone_ref_name ++ C_CATALOG in
  let catalog_lines := findall catalog_line_pattern content in
  content <-
    match last catalog_lines with
    | Some last_line =>
        let content := replace last_line (last_line ++ NL :: new_line) content in
        print_success (lit "Injected after last Catalog in " ++ config_xml_path) ;;
        ret content
    | None =>
        match search document_line_pattern content with
        | Some doc =>
            let content := replace doc (new_line ++ NL :: doc) content in
            print_success (lit "Injected before first Document in "
                           ++ config_xml_path) ;;
            ret content
        | None =>
            let content :=
              replace ([TAB; TAB] ++ lit "</cfg:ChildObjects>")
                (new_line ++ NL :: [TAB; TAB] ++ lit "</cfg:ChildObjects>")
                content in
            print_success (lit "Injected at end of ChildObjects in "
                           ++ config_xml_path) ;;
            ret content
        end
    end ;;
  write_file config_xml_path content ;;
  (* 2. Inject into ConfigDumpInfo.xml *)
  let config_dump_info_path := path_join base_path (lit "ConfigDumpInfo.xml") in
  content <- read_file config_dump_info_path ;;
  guid <- get_new_guid ;;
  let new_block :=
    [TAB; TAB] ++ O_META ++ NL :: [TAB; TAB; TAB] ++ O_NAME ++ clone_ref_name
    ++ C_NAME ++ NL :: [TAB; TAB; TAB] ++ lit "<xr:id>" ++ guid ++ lit "</xr:id>"
    ++ NL :: [TAB; TAB] ++ C_META in
  let meta_blocks := findall catalog_block_pattern content in
  content <-
    match last meta_blocks with
    | Some last_block =>
        let content := replace last_block (last_block ++ NL :: new_block) content in
        print_success (lit "Injected metadata after last Catalog in "
                       ++ config_dump_info_path) ;;
        ret content
    | None =>
        match search document_block_pattern content with
        | Some doc =>
            let content := replace doc (new_block ++ NL :: doc) content in
            print_success (lit "Injected metadata before first Document in "
                           ++ config_dump_info_path) ;;
            ret content
        | None =>
            let content :=
              replace (TAB :: lit "</xr:ChildObjects>")
                (new_block ++ NL :: TAB :: lit "</xr:ChildObjects>") content in
            print_success (lit "Injected metadata at end of ChildObjects in "
                           ++ config_dump_info_path) ;;
            ret content
        end
    end ;;
  write_file config_dump_info_path content.

Definition ESC : char := 27%N.

(** The three calls of the [try], in their order. *)
Definition run_steps (config_path donor_name clone_name : str) : M unit :=
  remove_existing_traces config_path clone_name ;;
  clone_and_regenerate config_path donor_name clone_name ;;
  integrate_into_config config_path clone_name.

(** The body of the [try]. *)
Definition script_body : M unit :=
  let config_path := path_join PROJECT_BASE_PATH CONFIG_DIR in
  isdir <- path_isdir config_path ;;
  let config_path := if negb isdir then PROJECT_BASE_PATH else config_path in
  present <- path_exists (path_join config_path (lit "Configuration.xml")) ;;
  (if negb present
   then raise (FileNotFoundError (lit "Config files not found."))
   else ret tt) ;;
  run_steps config_path DONOR_NAME CLONE_NAME ;;
  emit (Printed (NL :: ESC :: lit "[92mSUCCESS: Robust injection complete. Ready for /LoadConfigFromFiles."
                 ++ ESC :: lit "[0m")).

(** The script as run: the exit status and the world it leaves. *)
Definition main (w : world) : N * world :=
  match script_body w with
  | (inr _, w') => (0%N, w')
  | (inl e, w') =>
      (1%N, ((print_error (lit "A critical error occurred: " ++ exn_str e) ;;
              emit Traceback) w').2)
  end.

End Script.

(** ** Notions used to state the properties *)

(** A matcher is sound when what it returns splits its input. *)
Definition sound (mt : matcher) : Prop :=
  forall s m rest, mt s = Some (m, rest) -> s = m ++ rest.

(** A pattern made of single-character tests only matches, if at all, in
    one way: a prefix of fixed length passing the tests one by one. *)
Definition is_char (c : char) : char -> bool := fun x => N.eqb x c.

Fixpoint tests (r : regex) : option (list (char -> bool)) :=
  match r with
  | Eps => Some []
  | Chr c => Some [is_char c]
  | Cls p => Some [p]
  | Cat r1 r2 =>
      match tests r1, tests r2 with
      | Some t1, Some t2 => Some (t1 ++ t2)
      | _, _ => None
      end
  | Star _ _ => None
  | Opt _ => None
  end.

Fixpoint pass (ts : list (char -> bool)) (s : str) : bool :=
  match ts, s with
  | [], _ => true
  | _ :: _, [] => false
  | p :: ts', c :: s' => p c && pass ts' s'
  end.

(** [old] occurs in [s]. *)
Fixpoint occurs (old s : str) : bool :=
  starts_with old s ||
  match s with
  | [] => false
  | _ :: s' => occurs old s'
  end.

(** The part of [s] up to and including its first character that
    satisfies [stop]. *)
Fixpoint upto (stop : char -> bool) (s : str) : str :=
  match s with
  | [] => []
  | c :: s' => if stop c then [c] else c :: upto stop s'
  end.

(** The 36 tests of the identifier pattern. *)
Definition uuid_tests : list (char -> bool) :=
  replicate 8 is_hex ++ [is_char HYPHEN] ++ replicate 4 is_hex
  ++ [is_char HYPHEN] ++ replicate 4 is_hex ++ [is_char HYPHEN]
  ++ replicate 4 is_hex ++ [is_char HYPHEN] ++ replicate 12 is_hex.

(** Neither a hexadecimal digit nor a hyphen: no identifier passes over
    such a character. *)
Definition breaks_uuid (c : char) : bool := negb (is_hex c || N.eqb c HYPHEN).

(** [u] is, as a whole, of the canonical identifier format. *)
Definition canonical (u : str) : Prop := rmatch uuid_pattern u = Some (u, []).

(** What [sub_guids] writes for a scan when [n] identifiers have been
    generated before: the matches get [uuid4 n], [uuid4 (n+1)], ... in
    their order. *)
Fixpoint renumber (uuid4 : nat -> str) (n : nat) (ps : list piece) : str :=
  match ps with
  | [] => []
  | Keep c :: ps' => c :: renumber uuid4 n ps'
  | Hit _ :: ps' => uuid4 n ++ renumber uuid4 (S n) ps'
  end.

(** [identical_but n donor out]: going through the donor text from left to
    right, [out] is the same text character by character except that each
    [.donor_name] met is [.clone_name], each [>donor_name<] met is
    [>clone_name<], and each text of the identifier format met is the next
    generated identifier ([uuid4 n] for the first).  A character is carried
    over as it is only where none of the three starts. *)
Inductive identical_but (uuid4 : nat -> str) (donor_name clone_name : str)
  : nat -> str -> str -> Prop :=
| ib_end n : identical_but uuid4 donor_name clone_name n [] []
| ib_same n c s t :
    starts_with (lit "." ++ donor_name) (c :: s) = false ->
    starts_with (lit ">" ++ donor_name ++ lit "<") (c :: s) = false ->
    rmatch uuid_pattern (c :: s) = None ->
    identical_but uuid4 donor_name clone_name n s t ->
    identical_but uuid4 donor_name clone_name n (c :: s) (c :: t)
| ib_ref n s t :
    identical_but uuid4 donor_name clone_name n s t ->
    identical_but uuid4 donor_name clone_name n
      (lit "." ++ donor_name ++ s) (lit "." ++ clone_name ++ t)
| ib_tag n s t :
    identical_but uuid4 donor_name clone_name n s t ->
    identical_but uuid4 donor_name clone_name n
      (lit ">" ++ donor_name ++ lit "<" ++ s)
      (lit ">" ++ clone_name ++ lit "<" ++ t)
| ib_guid n u s t :
    canonical u ->
    identical_but uuid4 donor_name clone_name (S n) s t ->
    identical_but uuid4 donor_name clone_name n (u ++ s) (uuid4 n ++ t).

(** What the clone step computes from the donor text [d] when [n]
    identifiers were generated before. *)
Definition clone_text (uuid4 : nat -> str) (donor_name clone_name : str)
  (n : nat) (d : str) : str :=
  renumber uuid4 n
    (scan (rmatch uuid_pattern) (rename donor_name clone_name d)).

(** What the identifier pattern can see of a character: whether it is a
    hexadecimal digit, whether it is the hyphen. *)
Definition shape (s : str) : list (bool * bool) :=
  map (fun c => (is_hex c, N.eqb c HYPHEN)) s.

(** The three paths of a run. *)
Definition config_xml (base_path : str) : str :=
  path_join base_path (lit "Configuration.xml").
Definition config_dump_info (base_path : str) : str :=
  path_join base_path (lit "ConfigDumpInfo.xml").
Definition catalog_file (base_path name : str) : str :=
  path_join (path_join base_path (lit "Catalogs")) (name ++ lit ".xml").

(** [DONOR_TYPE.name]. *)
Definition ref_name (name : str) : str := DONOR_TYPE ++ lit "." ++ name.

(** The path an event writes or removes, if any. *)
Definition subject (e : event) : option str :=
  match e with
  | Wrote p _ => Some p
  | Removed p => Some p
  | _ => None
  end.

(** A computation that writes and removes nothing outside [ps]: the other
    paths keep what they hold, whatever the outcome. *)
Definition confined (ps : list str) {A} (m : M A) : Prop :=
  forall w,
    (forall p, p ∉ ps -> fs (m w).2 !! p = fs w !! p) /\
    exists evs, log (m w).2 = log w ++ evs /\
                forall e p, e ∈ evs -> subject e = Some p -> p ∈ ps.

(** What [os.path.join] puts before a relative component. *)
Definition dir_prefix (a : str) : str :=
  match last a with
  | None => []
  | Some c => if N.eqb c SLASH then a else a ++ [SLASH]
  end.

(** A computation leaves the file at [p] alone: whatever the outcome, the
    path holds what it held and no event writes or removes it. *)
Definition untouched (p : str) {A} (m : M A) : Prop :=
  forall w,
    fs (m w).2 !! p = fs w !! p /\
    exists evs, log (m w).2 = log w ++ evs /\
                forall e, e ∈ evs -> subject e <> Some p.

(** A generator for examples: the [k]-th identifier carries [k] in its last
    group. *)
Definition hex_of (n : N) : N := if (n <? 10)%N then (48 + n)%N else (87 + n)%N.

Fixpoint hex_digits (width : nat) (n : N) : str :=
  match width with
  | 0 => []
  | S w => hex_digits w (n / 16)%N ++ [hex_of (n mod 16)%N]
  end.

Definition sample_uuid4 (k : nat) : str :=
  lit "00000000-0000-4000-8000-" ++ hex_digits 12 (N.of_nat k).

(** The cleanup of one index file: the file system and the events it
    leaves, from the file system [m] it finds. *)
Definition clean_fs (p : str) (pattern : regex) (m : gmap str node)
  : gmap str node :=
  match m !! p with
  | Some (File c) => <[p := File (sub pattern [] c)]> m
  | _ => m
  end.

Definition clean_events (p filename ref : str) (pattern : regex)
  (m : gmap str node) : list event :=
  match m !! p with
  | Some (File c) =>
      if bool_decide (c ≠ sub pattern [] c)
      then [Wrote p (sub pattern [] c);
            Printed (lit "[+] " ++ lit "Removed entry for '" ++ ref
                     ++ lit "' from " ++ filename)]
      else []
  | _ => []
  end.

(** The removal of the old clone file, likewise. *)
Definition unlink_fs (p : str) (m : gmap str node) : gmap str node :=
  match m !! p with
  | Some _ => delete p m
  | None => m
  end.

Definition unlink_events (p : str) (m : gmap str node) : list event :=
  match m !! p with
  | Some _ => [Removed p; Printed (lit "[+] " ++ lit "Removed old file: " ++ p)]
  | None => []
  end.

(** What C9 says of the cleanup of [clone_name] from a world [w]. *)
Definition cleanup_only_on_change (base clone_name : str) (w : world) : Prop :=
  exists w' evs,
    remove_existing_traces base clone_name w = (inr tt, w') /\
    log w' = log w ++ evs /\
    (forall p pattern,
       (p, pattern) ∈ [(config_xml base,
                        config_trace_pattern (ref_name clone_name));
                       (config_dump_info base,
                        dump_trace_pattern (ref_name clone_name))] ->
       (* written only with a content that differs from the one found *)
       (forall c', Wrote p c' ∈ evs ->
          exists c, fs w !! p = Some (File c) /\ c' = sub pattern [] c /\ c' <> c) /\
       (* an absent index file is skipped *)
       (fs w !! p = None ->
          fs w' !! p = None /\ forall e, e ∈ evs -> subject e <> Some p) /\
       (* an index file with nothing to remove is left as it is *)
       (forall c, fs w !! p = Some (File c) -> sub pattern [] c = c ->
          p <> catalog_file base clone_name ->
          fs w' !! p = Some (File c) /\ forall e, e ∈ evs -> subject e <> Some p)) /\
    (* an absent clone file is not removed *)
    (fs w !! catalog_file base clone_name = None ->
       forall p, Removed p ∉ evs).

(** A small export to run the script on. *)
Definition lines (ls : list str) : str := flat_map (fun l => l ++ [NL]) ls.

Definition sample_base : str := path_join PROJECT_BASE_PATH CONFIG_DIR.

Definition sample_config : str :=
  lines [TAB :: TAB :: lit "<cfg:ChildObjects>";
         TAB :: TAB :: TAB :: lit "<cfg:Catalog>Catalog." ++ DONOR_NAME
           ++ lit "</cfg:Catalog>";
         TAB :: TAB :: TAB :: lit "<cfg:Document>Document.Order</cfg:Document>";
         TAB :: TAB :: lit "</cfg:ChildObjects>"].

Definition sample_block (name id : str) : str :=
  TAB :: TAB :: O_META ++ NL :: TAB :: TAB :: TAB :: O_NAME ++ name ++ C_NAME
  ++ NL :: TAB :: TAB :: TAB :: lit "<xr:id>" ++ id ++ lit "</xr:id>"
  ++ NL :: TAB :: TAB :: C_META.

Definition sample_dump : str :=
  lines [TAB :: lit "<xr:ChildObjects>";
         sample_block (lit "Catalog." ++ DONOR_NAME)
           (lit "3f2504e0-4f89-11d3-9a0c-0305e82c3301");
         sample_block (lit "Document.Order")
           (lit "9b2d7c1a-0e5f-4a6b-8c3d-2f1e0d9c8b7a");
         TAB :: lit "</xr:ChildObjects>"].

Definition sample_donor : str :=
  lines [lit "<Catalog uuid='3f2504e0-4f89-11d3-9a0c-0305e82c3301'>";
         TAB :: lit "<Name>" ++ DONOR_NAME ++ lit "</Name>";
         TAB :: lit "<Ref>Catalog." ++ DONOR_NAME ++ lit "</Ref>";
         TAB :: lit "<Owner>3f2504e0-4f89-11d3-9a0c-0305e82c3301</Owner>";
         TAB :: lit "<Form>7C9E6679-7425-40DE-944B-E07FC1F90AE7</Form>";
         lit "</Catalog>"].

Definition sample_world : world :=
  World (list_to_map
           [(sample_base, Dir);
            (config_xml sample_base, File sample_config);
            (config_dump_info sample_base, File sample_dump);
            (catalog_file sample_base DONOR_NAME, File sample_donor)])
        0 [].

(** A computation that creates no file: a path that holds nothing before
    holds nothing after, whatever the outcome. *)
Definition creates_nothing {A} (m : M A) : Prop :=
  forall w p, fs w !! p = None -> fs (m w).2 !! p = None.

(** A donor text with two texts of the identifier format that overlap. *)
Definition overlap_donor : str :=
  lit "01234567-89ab-cdef-0123-0123aaaaaaaa-1111-2222-3333-444444444444".

Definition overlap_world : world :=
  World {[catalog_file sample_base DONOR_NAME := File overlap_donor]} 0 [].

(** An export that holds a trace of the clone and no donor file. *)
Definition trace_config : str :=
  lines [TAB :: TAB :: lit "<cfg:ChildObjects>";
         TAB :: TAB :: TAB :: lit "<cfg:Catalog>Catalog." ++ CLONE_NAME
           ++ lit "</cfg:Catalog>";
         TAB :: TAB :: lit "</cfg:ChildObjects>"].

Definition trace_world : world :=
  World (list_to_map
           [(sample_base, Dir);
            (config_xml sample_base, File trace_config)])
        0 [].

(** ** The integrate step, as a function of the text *)

Inductive strategy : Type :=
| AfterLastCatalog
| BeforeFirstDocument
| AtEndOfChildObjects.

(** The strategy the step takes on a text: the first, in this order, whose
    anchor is found. *)
Definition chosen (catalog_pattern document_pattern : regex) (content : str)
  : strategy :=
  match last (findall catalog_pattern content) with
  | Some _ => AfterLastCatalog
  | None =>
      match search document_pattern content with
      | Some _ => BeforeFirstDocument
      | None => AtEndOfChildObjects
      end
  end.

(** The text the step writes. *)
Definition inject (catalog_pattern document_pattern : regex)
  (close new content : str) : str :=
  match last (findall catalog_pattern content) with
  | Some anchor => replace anchor (anchor ++ NL :: new) content
  | None =>
      match search document_pattern content with
      | Some anchor => replace anchor (new ++ NL :: anchor) content
      | None => replace close (new ++ NL :: close) content
      end
  end.

Definition config_message (s : strategy) (path : str) : str :=
  match s with
  | AfterLastCatalog => lit "Injected after last Catalog in " ++ path
  | BeforeFirstDocument => lit "Injected before first Document in " ++ path
  | AtEndOfChildObjects => lit "Injected at end of ChildObjects in " ++ path
  end.

Definition dump_message (s : strategy) (path : str) : str :=
  match s with
  | AfterLastCatalog => lit "Injected metadata after last Catalog in " ++ path
  | BeforeFirstDocument =>
      lit "Injected metadata before first Document in " ++ path
  | AtEndOfChildObjects =>
      lit "Injected metadata at end of ChildObjects in " ++ path
  end.

Definition new_line (clone_name : str) : str :=
  [TAB; TAB; TAB] ++ O_CATALOG ++ ref_name clone_name ++ C_CATALOG.

Definition new_block (clone_name guid : str) : str :=
  [TAB; TAB] ++ O_META ++ NL :: [TAB; TAB; TAB] ++ O_NAME ++ ref_name clone_name
  ++ C_NAME ++ NL :: [TAB; TAB; TAB] ++ lit "<xr:id>" ++ guid ++ lit "</xr:id>"
  ++ NL :: [TAB; TAB] ++ C_META.

Definition CONFIG_CLOSE : str := [TAB; TAB] ++ lit "</cfg:ChildObjects>".
Definition DUMP_CLOSE : str := TAB :: lit "</xr:ChildObjects>".

Definition config_injected (clone_name content : str) : str :=
  inject catalog_line_pattern document_line_pattern CONFIG_CLOSE
    (new_line clone_name) content.

Definition dump_injected (clone_name guid content : str) : str :=
  inject catalog_block_pattern document_block_pattern DUMP_CLOSE
    (new_block clone_name guid) content.

(** The sample export after one run and after two. *)
Definition after_first_run : world := (main sample_uuid4 sample_world).2.
Definition after_second_run : world := (main sample_uuid4 after_first_run).2.

Definition HEADER : str := TAB :: lit "<xr:ChildObjects>".
Definition DONOR_BLOCK : str :=
  sample_block (lit "Catalog." ++ DONOR_NAME)
    (lit "3f2504e0-4f89-11d3-9a0c-0305e82c3301").
Definition ORDER_BLOCK : str :=
  sample_block (lit "Document.Order")
    (lit "9b2d7c1a-0e5f-4a6b-8c3d-2f1e0d9c8b7a").
Definition ENUM_BLOCK : str :=
  sample_block (lit "Enum.Kind") (lit "5a1c3e7f-2b4d-4f60-9a8b-0c1d2e3f4a5b").

(** An index with no catalog, in which a block of another kind comes
    before the first document. *)
Definition enum_dump : str :=
  lines [HEADER; ENUM_BLOCK; ORDER_BLOCK; DUMP_CLOSE].

Definition enum_world : world :=
  World (list_to_map
           [(config_xml sample_base, File sample_config);
            (config_dump_info sample_base, File enum_dump)])
        0 [].

(** The least number of characters a match of [r] takes. *)
Fixpoint min_len (r : regex) : nat :=
  match r with
  | Eps => 0
  | Chr _ => 1
  | Cls _ => 1
  | Cat r1 r2 => min_len r1 + min_len r2
  | Star _ _ => 0
  | Opt _ => 0
  end.

(** What a strategy does to a text [c], giving [c']: the new text is put
    next to the anchor where it is first found (and at each later
    occurrence of the same anchor text).  The third strategy has an effect
    only if the closing tag is found. *)
Definition takes_effect (catalog_pattern document_pattern : regex)
  (close new c c' : str) (s : strategy) : Prop :=
  match s with
  | AfterLastCatalog =>
      exists anchor pre post,
        last (findall catalog_pattern c) = Some anchor /\
        c = pre ++ anchor ++ post /\
        c' = pre ++ (anchor ++ NL :: new)
             ++ replace anchor (anchor ++ NL :: new) post
  | BeforeFirstDocument =>
      findall catalog_pattern c = [] /\
      exists anchor pre post,
        search document_pattern c = Some anchor /\
        c = pre ++ anchor ++ post /\
        c' = pre ++ (new ++ NL :: anchor)
             ++ replace anchor (new ++ NL :: anchor) post
  | AtEndOfChildObjects =>
      findall catalog_pattern c = [] /\
      search document_pattern c = None /\
      (occurs close c = false -> c' = c) /\
      (occurs close c = true ->
       exists pre post,
         c = pre ++ close ++ post /\
         c' = pre ++ (new ++ NL :: close)
              ++ replace close (new ++ NL :: close) post)
  end.

(** An export whose container is closed with another indentation and that
    lists neither catalog nor document. *)
Definition bare_config : str :=
  lines [TAB :: lit "<cfg:ChildObjects>"; TAB :: lit "</cfg:ChildObjects>"].

Definition bare_world : world :=
  World (list_to_map
           [(config_xml sample_base, File bare_config);
            (config_dump_info sample_base, File sample_dump)])
        0 [].

(** A pattern none of whose parts can take a newline: it matches within a
    line. *)
Fixpoint nl_free (r : regex) : bool :=
  match r with
  | Eps => true
  | Chr c => negb (N.eqb c NL)
  | Cls p => negb (p NL)
  | Cat r1 r2 => nl_free r1 && nl_free r2
  | Star _ p => negb (p NL)
  | Opt r1 => nl_free r1
  end.

Definition app_snd (t : str) (x : str * str) : str * str := (x.1, x.2 ++ t).

(** A way of matching a prefix of [s ++ t], seen from [s] alone: kept if it
    stays within the first [n] characters. *)
Definition within (n : nat) (x : str * str) : option (str * str) :=
  if decide (length x.1 <= n) then Some (x.1, take (n - length x.1) x.2)
  else None.

(** [old] occurs in [c] at one place only. *)
Definition occurs_once (old c : str) : Prop :=
  forall p1 q1 p2 q2,
    c = p1 ++ old ++ q1 -> c = p2 ++ old ++ q2 -> p1 = p2.

(** A text that is empty or ends a line; one that is empty or starts with
    the end of a line. *)
Definition ends_line (s : str) : Prop := s = [] \/ exists p, s = p ++ [NL].
Definition starts_line (s : str) : Prop := s = [] \/ exists q, s = NL :: q.

(** [(.*?OPEN.*CLOSE)], of which [catalog_line_pattern] is an instance, and
    its part from [.*] on. *)
Definition tail_pattern (cl : str) : regex :=
  Cat (Star true dot) (Cat (Lits cl) Eps).
Definition tagged_pattern (op cl : str) : regex :=
  Cat (Lits op) (tail_pattern cl).
Definition line_pattern (op cl : str) : regex :=
  Cat (Star false dot) (tagged_pattern op cl).

(** The number of places at which [old] occurs in [c]. *)
Fixpoint occurrences (old c : str) : nat :=
  (if starts_with old c then 1 else 0) +
  match c with
  | [] => 0
  | _ :: c' => occurrences old c'
  end.

(** A [Configuration.xml] that lists the donor catalog twice. *)
Definition dup_config : str :=
  lines [TAB :: TAB :: lit "<cfg:ChildObjects>";
         TAB :: TAB :: TAB :: lit "<cfg:Catalog>Catalog." ++ DONOR_NAME
           ++ lit "</cfg:Catalog>";
         TAB :: TAB :: TAB :: lit "<cfg:Catalog>Catalog." ++ DONOR_NAME
           ++ lit "</cfg:Catalog>";
         TAB :: TAB :: lit "</cfg:ChildObjects>"].

Definition dup_world : world :=
  World (list_to_map
           [(config_xml sample_base, File dup_config);
            (config_dump_info sample_base, File sample_dump)])
        0 [].

(** ** The script as a whole *)

(** The directory the script works in: [PROJECT_BASE_PATH/CONFIG_DIR] when
    that is a directory, [PROJECT_BASE_PATH] otherwise. *)
Definition config_root (w : world) : str :=
  match fs w !! path_join PROJECT_BASE_PATH CONFIG_DIR with
  | Some Dir => path_join PROJECT_BASE_PATH CONFIG_DIR
  | _ => PROJECT_BASE_PATH
  end.

(** The last line the script prints when all went well. *)
Definition SUCCESS_LINE : str :=
  NL :: ESC :: lit "[92mSUCCESS: Robust injection complete. Ready for /LoadConfigFromFiles."
  ++ ESC :: lit "[0m".

(** The three paths a run of the script works on. *)
Definition run_paths (base : str) : list str :=
  [config_xml base; config_dump_info base; catalog_file base CLONE_NAME].

(** An empty directory tree. *)
Definition empty_world : world := World ∅ 0 [].

(** The sample export without its [ConfigDumpInfo.xml]. *)
Definition nodump_world : world :=
  World (list_to_map
           [(sample_base, Dir);
            (config_xml sample_base, File sample_config);
            (catalog_file sample_base DONOR_NAME, File sample_donor)])
        0 [].

(** ** Lines of a text *)

(** The lines of a text, each with the newline that ends it; the last one
    may lack it. *)
Fixpoint text_lines (s : str) : list str :=
  match s with
  | [] => []
  | c :: s' =>
      if N.eqb c NL then [NL] :: text_lines s'
      else match text_lines s' with
           | [] => [[c]]
           | l :: ls => (c :: l) :: ls
           end
  end.

(** The reference to a catalog as [Configuration.xml] lists it, and the name
    field of a block of [ConfigDumpInfo.xml]. *)
Definition catalog_entry (ref : str) : str := O_CATALOG ++ ref ++ C_CATALOG.
Definition name_field (ref : str) : str := O_NAME ++ ref ++ C_NAME.

(** [c] without the lines that hold [x]. *)
Definition without_lines (x c : str) : str :=
  concat (List.filter (fun l => negb (occurs x l)) (text_lines c)).

(** Every text in which [r] matches at the start holds [l]. *)
Definition needs (l : str) (r : regex) : Prop :=
  forall s, ends r s <> [] -> occurs l s = true.

(** A [Configuration.xml] that lists a document and no catalog, one that
    lists nothing, and the sample export with each. *)
Definition doc_config : str :=
  lines [TAB :: TAB :: lit "<cfg:ChildObjects>";
         TAB :: TAB :: TAB :: lit "<cfg:Document>Document.Order</cfg:Document>";
         TAB :: TAB :: lit "</cfg:ChildObjects>"].

Definition doc_world : world :=
  World (list_to_map
           [(config_xml sample_base, File doc_config);
            (config_dump_info sample_base, File sample_dump)])
        0 [].

Definition empty_config : str :=
  lines [TAB :: TAB :: lit "<cfg:ChildObjects>";
         TAB :: TAB :: lit "</cfg:ChildObjects>"].

Definition empty_dump : str :=
  lines [TAB :: lit "<xr:ChildObjects>"; TAB :: lit "</xr:ChildObjects>"].

Definition empty_export : world :=
  World (list_to_map
           [(config_xml sample_base, File empty_config);
            (config_dump_info sample_base, File empty_dump)])
        0 [].

(** ** The format of identifiers *)

(** A hexadecimal digit, of either case. *)
Definition hex_digit (c : char) : Prop :=
  (48 <= c <= 57)%N \/ (97 <= c <= 102)%N \/ (65 <= c <= 70)%N.

(** The canonical identifier format: 36 characters, hyphens at offsets 8,
    13, 18 and 23 (groups of 8-4-4-4-12), hexadecimal digits elsewhere. *)
Definition hyphen_at (i : nat) : bool :=
  (i =? 8) || (i =? 13) || (i =? 18) || (i =? 23).

Definition identifier_format (u : str) : Prop :=
  length u = 36 /\
  forall i c, u !! i = Some c ->
              if hyphen_at i then c = HYPHEN else hex_digit c.

(** [s] begins with [p]; [s] begins with a text of the identifier format. *)
Definition begins (p s : str) : Prop := exists t, s = p ++ t.
Definition begins_identifier (s : str) : Prop :=
  exists u t, s = u ++ t /\ identifier_format u.

(** [same_but n text out]: reading [text] from left to right, [out] is the
    same text character for character except that each [.donor_name] met is
    [.clone_name], each [>donor_name<] met is [>clone_name<], and each text
    of the identifier format met is the next generated identifier ([uuid4 n]
    for the first); reading resumes after what was replaced.  A character
    is copied as it is exactly where none of the three begins. *)
Inductive same_but (uuid4 : nat -> str) (donor_name clone_name : str)
  : nat -> str -> str -> Prop :=
| sb_end n : same_but uuid4 donor_name clone_name n [] []
| sb_same n c s t :
    ~ begins (lit "." ++ donor_name) (c :: s) ->
    ~ begins (lit ">" ++ donor_name ++ lit "<") (c :: s) ->
    ~ begins_identifier (c :: s) ->
    same_but uuid4 donor_name clone_name n s t ->
    same_but uuid4 donor_name clone_name n (c :: s) (c :: t)
| sb_ref n s t :
    same_but uuid4 donor_name clone_name n s t ->
    same_but uuid4 donor_name clone_name n
      (lit "." ++ donor_name ++ s) (lit "." ++ clone_name ++ t)
| sb_tag n s t :
    same_but uuid4 donor_name clone_name n s t ->
    same_but uuid4 donor_name clone_name n
      (lit ">" ++ donor_name ++ lit "<" ++ s)
      (lit ">" ++ clone_name ++ lit "<" ++ t)
| sb_guid n u s t :
    identifier_format u ->
    same_but uuid4 donor_name clone_name (S n) s t ->
    same_but uuid4 donor_name clone_name n (u ++ s) (uuid4 n ++ t).

(** A donor file with Windows line ends that holds two texts of the
    identifier format sharing eight characters. *)
Definition crlf_donor : str :=
  lit "<id>01234567-89ab-cdef-0123-456789abcdef-89ab-cdef-0123-456789abcdef</id>"
  ++ [CR; NL].

Definition crlf_world : world :=
  World {[catalog_file sample_base DONOR_NAME := on_disk crlf_donor]} 0 [].

(** The sample donor file with Windows line ends. *)
Definition crlf_sample_donor : str :=
  flat_map (fun l => l ++ [CR; NL])
    [lit "<Catalog uuid='3f2504e0-4f89-11d3-9a0c-0305e82c3301'>";
     TAB :: lit "<Name>" ++ DONOR_NAME ++ lit "</Name>";
     TAB :: lit "<Ref>Catalog." ++ DONOR_NAME ++ lit "</Ref>";
     lit "</Catalog>"].

Definition crlf_sample_world : world :=
  World {[catalog_file sample_base DONOR_NAME := on_disk crlf_sample_donor]}
        0 [].

(** A generator that hands out the same identifier every time. *)
Definition constant_uuid4 (k : nat) : str :=
  lit "00000000-0000-4000-8000-000000000000".

(** The sample export with a [Configuration.xml] that lists a document and
    no catalog. *)
Definition doc_export : world :=
  World (list_to_map
           [(sample_base, Dir);
            (config_xml sample_base, File doc_config);
            (config_dump_info sample_base, File sample_dump);
            (catalog_file sample_base DONOR_NAME, File sample_donor)])
        0 [].

(** * Properties *)

(** ** Strings and prefixes *)

Lemma starts_with_app (p t : str) : starts_with p (p ++ t) = true.
Proof.
  induction p as [|a p IH]; simpl; [reflexivity|].
  rewrite N.eqb_refl. exact IH.
Qed.

Lemma starts_with_split (p s : str) :
  starts_with p s = true -> s = p ++ drop (length p) s.
Proof.
  revert s. induction p as [|a p IH]; intros [|b s]; simpl; try done.
  intros [Hab Hps]%andb_prop. apply N.eqb_eq in Hab. subst b.
  f_equal. by apply IH.
Qed.

Lemma starts_with_iff (p s : str) :
  starts_with p s = true <-> exists t, s = p ++ t.
Proof.
  split.
  - intros H. eexists. by apply starts_with_split.
  - intros [t ->]. apply starts_with_app.
Qed.

Lemma starts_with_cons (a c : char) (p s : str) :
  starts_with (a :: p) (c :: s) = N.eqb a c && starts_with p s.
Proof. reflexivity. Qed.

Lemma starts_with_cons_ne (a c : char) (p s : str) :
  a <> c -> starts_with (a :: p) (c :: s) = false.
Proof. intros H. simpl. by apply N.eqb_neq in H as ->. Qed.

Lemma lit_length (s : string) : length (lit s) = String.length s.
Proof.
  unfold lit. rewrite length_map.
  induction s; simpl; [reflexivity | by f_equal].
Qed.

(** ** The matcher *)

Lemma star_ends_sound g p s x : x ∈ star_ends g p s -> s = x.1 ++ x.2.
Proof.
  revert x. induction s as [|c s IH]; intros x; simpl.
  - intros ->%list_elem_of_singleton. reflexivity.
  - destruct (p c); [|by intros ->%list_elem_of_singleton].
    assert (Hm : x ∈ map (cons_fst c) (star_ends g p s) -> c :: s = x.1 ++ x.2).
    { intros (y & -> & Hy)%list_elem_of_fmap. simpl. f_equal. by apply IH. }
    destruct g.
    + intros [H| ->%list_elem_of_singleton]%elem_of_app; [by apply Hm | done].
    + intros [->|H]%elem_of_cons; [done | by apply Hm].
Qed.

Lemma ends_sound r : forall s x, x ∈ ends r s -> s = x.1 ++ x.2.
Proof.
  induction r as [|c|p|r1 IH1 r2 IH2|g p|r1 IH1]; intros s x; simpl.
  - by intros ->%list_elem_of_singleton.
  - destruct s as [|a s]; [by intros ?%elem_of_nil|].
    destruct (N.eqb a c); [by intros ->%list_elem_of_singleton | by intros ?%elem_of_nil].
  - destruct s as [|a s]; [by intros ?%elem_of_nil|].
    destruct (p a); [by intros ->%list_elem_of_singleton | by intros ?%elem_of_nil].
  - intros H. apply list_elem_of_In, in_flat_map in H as (y & Hy & H).
    apply list_elem_of_In in Hy, H.
    apply list_elem_of_fmap in H as (z & -> & Hz).
    apply IH1 in Hy. apply IH2 in Hz. simpl.
    rewrite Hy, Hz at 1. by rewrite app_assoc.
  - apply star_ends_sound.
  - intros [H| ->%list_elem_of_singleton]%elem_of_app; [by apply IH1 | done].
Qed.

Lemma rmatch_sound r : sound (rmatch r).
Proof.
  intros s m rest H. unfold rmatch in H.
  destruct (ends r s) as [|x l] eqn:E; [done|]. simpl in H.
  injection H as ->. apply (ends_sound r s (m, rest)). rewrite E. left.
Qed.

Lemma lit_match_sound old : sound (lit_match old).
Proof.
  intros s m rest H. unfold lit_match in H.
  destruct (starts_with old s) eqn:E; [|done].
  injection H as <- <-. by apply starts_with_split.
Qed.

(** ** The scan *)

Section Scan.
Variable mt : matcher.
Hypothesis mt_sound : sound mt.

Lemma scan_fuel_enough n n' s :
  length s < n -> length s < n' -> scan_fuel n mt s = scan_fuel n' mt s.
Proof using mt_sound.
  revert n' s. induction n as [|n IH]; intros [|n'] s Hn Hn'; try lia.
  simpl.
  assert (Hstep : match s with [] => [] | c :: s' => Keep c :: scan_fuel n mt s' end
                  = match s with [] => [] | c :: s' => Keep c :: scan_fuel n' mt s' end).
  { destruct s as [|c s']; [done|]. simpl in *. f_equal. apply IH; lia. }
  destruct (mt s) as [[m rest]|] eqn:E; [|exact Hstep].
  f_equal. destruct m as [|a m]; [exact Hstep|].
  apply mt_sound in E. subst s. rewrite length_app in *. simpl in *.
  apply IH; lia.
Qed.

(** The scan, by cases on what the pattern does at the current position. *)
Lemma scan_nil_none : mt [] = None -> scan mt [] = [].
Proof. intros H. unfold scan. simpl. by rewrite H. Qed.

Lemma scan_keep c s :
  mt (c :: s) = None -> scan mt (c :: s) = Keep c :: scan mt s.
Proof using mt_sound. intros H. unfold scan. simpl. by rewrite H. Qed.

Lemma scan_hit s m rest :
  mt s = Some (m, rest) -> m <> [] -> scan mt s = Hit m :: scan mt rest.
Proof using mt_sound.
  intros H Hm. unfold scan.
  change (scan_fuel (S (length s)) mt s) with
    (match mt s with
     | Some (m, rest) =>
         Hit m :: match m with
                  | [] => match s with
                          | [] => []
                          | c :: s' => Keep c :: scan_fuel (length s) mt s'
                          end
                  | _ :: _ => scan_fuel (length s) mt rest
                  end
     | None => match s with
               | [] => []
               | c :: s' => Keep c :: scan_fuel (length s) mt s'
               end
     end).
  rewrite H. destruct m as [|a m]; [done|]. f_equal.
  apply mt_sound in H. subst s.
  apply scan_fuel_enough; rewrite ?length_app; simpl; lia.
Qed.

(** Characters at which the pattern cannot start are kept. *)
Lemma scan_skip pre s :
  (forall c t, c ∈ pre -> mt (c :: t) = None) ->
  scan mt (pre ++ s) = map Keep pre ++ scan mt s.
Proof using mt_sound.
  induction pre as [|c pre IH]; intros H; [done|].
  simpl. rewrite scan_keep by (apply H; left).
  f_equal. apply IH. intros c' t Hc'. apply H. by right.
Qed.

End Scan.

Lemma fill_app repl ps qs : fill repl (ps ++ qs) = fill repl ps ++ fill repl qs.
Proof. unfold fill. by rewrite flat_map_app. Qed.

Lemma fill_keeps repl pre : fill repl (map Keep pre) = pre.
Proof. induction pre as [|c pre IH]; simpl; [done | by f_equal]. Qed.

Lemma hits_app ps qs : hits (ps ++ qs) = hits ps ++ hits qs.
Proof. unfold hits. by rewrite omap_app. Qed.

Lemma hits_keeps pre : hits (map Keep pre) = [].
Proof. induction pre as [|c pre IH]; simpl; done. Qed.

Lemma hits_hit m ps : hits (Hit m :: ps) = m :: hits ps.
Proof. reflexivity. Qed.

Lemma hits_keep c ps : hits (Keep c :: ps) = hits ps.
Proof. reflexivity. Qed.

(** ** Patterns of single-character tests *)

Lemma pass_app t1 t2 s :
  pass (t1 ++ t2) s = pass t1 s && pass t2 (drop (length t1) s).
Proof.
  revert s. induction t1 as [|p t1 IH]; intros s; simpl; [done|].
  destruct s as [|c s]; [done|]. simpl. rewrite IH. by rewrite andb_assoc.
Qed.

Lemma pass_length ts s : pass ts s = true -> length ts <= length s.
Proof.
  revert s. induction ts as [|p ts IH]; intros [|c s]; simpl; try done; try lia.
  intros [_ H]%andb_prop. apply IH in H. lia.
Qed.

Lemma pass_app_r ts s t : pass ts s = true -> pass ts (s ++ t) = true.
Proof.
  revert s. induction ts as [|p ts IH]; intros [|c s]; simpl; try done.
  intros [-> H]%andb_prop. simpl. by apply IH.
Qed.

Lemma ends_fixed r : forall ts s,
  tests r = Some ts ->
  ends r s = if pass ts s
             then [(take (length ts) s, drop (length ts) s)] else [].
Proof.
  induction r as [|c|p|r1 IH1 r2 IH2|g p|r1 IH1]; intros ts s Ht;
    simpl in Ht; try discriminate.
  - injection Ht as <-. simpl. by rewrite drop_0.
  - injection Ht as <-. destruct s as [|a s]; simpl; [done|]. unfold is_char.
    rewrite andb_true_r. destruct (N.eqb a c); [|done]. by rewrite take_0, drop_0.
  - injection Ht as <-. destruct s as [|a s]; simpl; [done|].
    rewrite andb_true_r. destruct (p a); [|done]. by rewrite take_0, drop_0.
  - destruct (tests r1) as [t1|]; [|done]. destruct (tests r2) as [t2|]; [|done].
    injection Ht as <-. simpl. rewrite (IH1 t1 s eq_refl), pass_app.
    destruct (pass t1 s); simpl; [|done].
    rewrite (IH2 t2 _ eq_refl).
    destruct (pass t2 (drop (length t1) s)); simpl; [|done].
    unfold app_fst. simpl.
    by rewrite length_app, take_take_drop, drop_drop.
Qed.

Lemma rmatch_fixed r ts s :
  tests r = Some ts ->
  rmatch r s = if pass ts s
               then Some (take (length ts) s, drop (length ts) s) else None.
Proof.
  intros Ht. unfold rmatch. rewrite (ends_fixed r ts s Ht).
  by destruct (pass ts s).
Qed.

Lemma tests_Lits l : tests (Lits l) = Some (map is_char l).
Proof.
  induction l as [|c l IH]; simpl; [done|]. fold (Lits l). by rewrite IH.
Qed.

Lemma pass_is_char l s : pass (map is_char l) s = starts_with l s.
Proof.
  revert s. induction l as [|c l IH]; intros [|a s]; simpl; try done.
  unfold is_char at 1. by rewrite IH, N.eqb_sym.
Qed.

Lemma ends_Lits l s :
  ends (Lits l) s = if starts_with l s then [(l, drop (length l) s)] else [].
Proof.
  rewrite (ends_fixed _ _ s (tests_Lits l)), pass_is_char, length_map.
  destruct (starts_with l s) eqn:E; [|done].
  apply starts_with_split in E. rewrite E at 1. by rewrite take_app_length.
Qed.

(** ** [str.replace] *)

Section Replace.
Variables (a : char) (old' new : str).
Let old := a :: old'.

Lemma replace_nil : replace old new [] = [].
Proof. unfold replace. by rewrite scan_nil_none. Qed.

Lemma replace_hit s : replace old new (old ++ s) = new ++ replace old new s.
Proof.
  unfold replace.
  rewrite (scan_hit _ (lit_match_sound old) (old ++ s) old s); [|  |done].
  - simpl. done.
  - unfold lit_match. by rewrite starts_with_app, drop_app_length.
Qed.

Lemma replace_keep c s :
  starts_with old (c :: s) = false ->
  replace old new (c :: s) = c :: replace old new s.
Proof.
  intros H. unfold replace.
  rewrite (scan_keep _ (lit_match_sound old)); [done|].
  unfold lit_match. by rewrite H.
Qed.

(** Text without the first character of [old] holds no occurrence. *)
Lemma replace_skip pre s :
  a ∉ pre -> replace old new (pre ++ s) = pre ++ replace old new s.
Proof.
  induction pre as [|c pre IH]; intros H; [done|].
  apply not_elem_of_cons in H as [Hc H]. simpl.
  rewrite replace_keep by (by apply starts_with_cons_ne). f_equal. by apply IH.
Qed.

End Replace.

(** ** Text up to the first stopping character *)

Section Upto.
Variable stop : char -> bool.

Lemma upto_replace a old' new' s :
  stop a = true ->
  upto stop (replace (a :: old') (a :: new') s) = upto stop s.
Proof.
  intros Ha. induction s as [|c s IH].
  - by rewrite replace_nil.
  - destruct (starts_with (a :: old') (c :: s)) eqn:E.
    + apply starts_with_split in E. rewrite E, replace_hit. simpl. by rewrite Ha.
    + rewrite replace_keep by done. simpl. by rewrite IH.
Qed.

Lemma starts_with_upto p s :
  (forall c, c ∈ p -> stop c = false) ->
  starts_with p (upto stop s) = starts_with p s.
Proof.
  revert s. induction p as [|a p IH]; intros s H; [by destruct s|].
  destruct s as [|c s]; [done|]. simpl.
  destruct (stop c) eqn:Ec; simpl.
  - destruct (N.eqb a c) eqn:Eac; [|done].
    apply N.eqb_eq in Eac. subst c. rewrite H in Ec by left. done.
  - f_equal. apply IH. intros c' Hc'. apply H. by right.
Qed.

Lemma pass_upto ts s :
  (forall p c, p ∈ ts -> stop c = true -> p c = false) ->
  pass ts (upto stop s) = pass ts s.
Proof.
  revert s. induction ts as [|p ts IH]; intros s H; [by destruct s|].
  destruct s as [|c s]; [done|]. simpl.
  destruct (stop c) eqn:Ec; simpl.
  - rewrite (H p c) by (done || left). done.
  - f_equal. apply IH. intros p' c' Hp'. apply H. by right.
Qed.

Lemma pass_no_stop ts s :
  (forall p c, p ∈ ts -> stop c = true -> p c = false) ->
  pass ts s = true ->
  forall c, c ∈ take (length ts) s -> stop c = false.
Proof.
  revert s. induction ts as [|p ts IH]; intros s H Hp c Hc; simpl in *.
  - by apply elem_of_nil in Hc.
  - destruct s as [|x s]; [done|]. simpl in *.
    apply andb_prop in Hp as [Hx Hp].
    apply elem_of_cons in Hc as [->|Hc].
    + destruct (stop x) eqn:E; [|done].
      rewrite (H p x) in Hx by (done || left). done.
    + eapply IH; [|exact Hp|exact Hc]. intros p' c' Hp'. apply H. by right.
Qed.

End Upto.

(** ** The identifier pattern *)

Lemma tests_uuid : tests uuid_pattern = Some uuid_tests.
Proof. reflexivity. Qed.

Lemma uuid_tests_length : length uuid_tests = 36.
Proof. reflexivity. Qed.

Lemma uuid_tests_break p c :
  p ∈ uuid_tests -> breaks_uuid c = true -> p c = false.
Proof.
  intros Hp Hc. unfold breaks_uuid in Hc.
  apply negb_true_iff, orb_false_iff in Hc as [Hhex Hhy].
  assert (Hall : Forall (fun q => q = is_hex \/ q = is_char HYPHEN) uuid_tests).
  { unfold uuid_tests. simpl. repeat (constructor; [auto|]). constructor. }
  rewrite Forall_forall in Hall. destruct (Hall p Hp) as [-> | ->]; done.
Qed.

Lemma rmatch_uuid s :
  rmatch uuid_pattern s =
  if pass uuid_tests s then Some (take 36 s, drop 36 s) else None.
Proof. exact (rmatch_fixed uuid_pattern uuid_tests s tests_uuid). Qed.

Lemma canonical_iff u :
  canonical u <-> pass uuid_tests u = true /\ length u = 36.
Proof.
  unfold canonical. rewrite rmatch_uuid. split.
  - destruct (pass uuid_tests u) eqn:E; [|done]. intros [= Ht Hd].
    split; [done|]. apply pass_length in E. rewrite uuid_tests_length in E.
    apply (f_equal length) in Hd. rewrite length_drop in Hd. simpl in Hd. lia.
  - intros [-> Hl]. by rewrite take_ge, drop_ge by lia.
Qed.

Lemma pass_take ts s : pass ts s = true -> pass ts (take (length ts) s) = true.
Proof.
  revert s. induction ts as [|p ts IH]; intros [|c s]; simpl; try done.
  intros [-> H]%andb_prop. simpl. by apply IH.
Qed.

Lemma rmatch_uuid_hit s u rest :
  rmatch uuid_pattern s = Some (u, rest) -> canonical u.
Proof.
  rewrite rmatch_uuid. destruct (pass uuid_tests s) eqn:E; [|done].
  intros [= <- <-]. apply canonical_iff. split.
  - by apply (pass_take uuid_tests) in E.
  - apply pass_length in E. rewrite uuid_tests_length in E.
    rewrite length_take. lia.
Qed.

Lemma rmatch_uuid_canonical u t :
  canonical u -> rmatch uuid_pattern (u ++ t) = Some (u, t).
Proof.
  intros [Hp Hl]%canonical_iff. rewrite rmatch_uuid, (pass_app_r _ _ _ Hp).
  by rewrite take_app_length', drop_app_length'.
Qed.

Lemma canonical_chars u c : canonical u -> c ∈ u -> breaks_uuid c = false.
Proof.
  intros [Hp Hl]%canonical_iff Hc.
  apply (pass_no_stop breaks_uuid uuid_tests u); [|done|].
  - intros p' c' Hp' Hc'. by apply uuid_tests_break.
  - rewrite uuid_tests_length, take_ge by lia. done.
Qed.

Lemma canonical_nonempty u : canonical u -> u <> [].
Proof. intros [_ Hl]%canonical_iff ->. done. Qed.

Lemma rmatch_uuid_not_hex c t :
  is_hex c = false -> rmatch uuid_pattern (c :: t) = None.
Proof. intros H. rewrite rmatch_uuid. simpl. by rewrite H. Qed.

Lemma renumber_keeps uuid4 n pre ps :
  renumber uuid4 n (map Keep pre ++ ps) = pre ++ renumber uuid4 n ps.
Proof. induction pre as [|c pre IH]; simpl; [done | by f_equal]. Qed.

(** ** The text of the clone *)

Section CloneText.
Variable uuid4 : nat -> str.
Variables donor_name clone_name : str.
Hypothesis donor_no_dot : 46%N ∉ donor_name.
Hypothesis clone_no_gt : 62%N ∉ clone_name.
Hypothesis clone_no_hex : forall c, c ∈ clone_name -> is_hex c = false.

Local Abbreviation D1 := (46%N :: donor_name).
Local Abbreviation C1 := (46%N :: clone_name).
Local Abbreviation D2 := (62%N :: donor_name ++ [60%N]).
Local Abbreviation C2 := (62%N :: clone_name ++ [60%N]).
Local Abbreviation text := (clone_text uuid4 donor_name clone_name).

Lemma rename_eq d :
  rename donor_name clone_name d = replace D2 C2 (replace D1 C1 d).
Proof. reflexivity. Qed.

Lemma clone_text_nil n : text n [] = [].
Proof.
  unfold clone_text. rewrite rename_eq, !replace_nil.
  by rewrite scan_nil_none.
Qed.

Lemma scan_uuid_skip pre s :
  (forall c, c ∈ pre -> is_hex c = false) ->
  scan (rmatch uuid_pattern) (pre ++ s)
  = map Keep pre ++ scan (rmatch uuid_pattern) s.
Proof.
  intros H. apply scan_skip; [apply rmatch_sound|].
  intros c t Hc. apply rmatch_uuid_not_hex. by apply H.
Qed.

Lemma clone_text_ref n d : text n (D1 ++ d) = C1 ++ text n d.
Proof using clone_no_gt clone_no_hex.
  unfold clone_text. rewrite !rename_eq, replace_hit.
  rewrite (replace_skip _ _ _ C1).
  - rewrite scan_uuid_skip, renumber_keeps; [done|].
    intros c [->|Hc]%elem_of_cons; [done | by apply clone_no_hex].
  - intros [?|?]%elem_of_cons; done.
Qed.

Lemma clone_text_tag n d : text n (D2 ++ d) = C2 ++ text n d.
Proof using donor_no_dot clone_no_hex.
  unfold clone_text. rewrite !rename_eq.
  rewrite (replace_skip _ _ _ D2).
  - rewrite replace_hit, scan_uuid_skip, renumber_keeps; [done|].
    intros c [->|[Hc| ->%list_elem_of_singleton]%elem_of_app]%elem_of_cons;
      [done | by apply clone_no_hex | done].
  - intros [?|[?| ?%list_elem_of_singleton]%elem_of_app]%elem_of_cons; done.
Qed.

Lemma clone_text_guid n u d :
  canonical u -> text n (u ++ d) = uuid4 n ++ text (S n) d.
Proof.
  intros Hu. unfold clone_text. rewrite !rename_eq.
  assert (Hno : forall c, breaks_uuid c = true -> c ∉ u).
  { intros c Hc Hin. by rewrite (canonical_chars u c Hu Hin) in Hc. }
  rewrite !replace_skip by (by apply Hno).
  rewrite (scan_hit _ (rmatch_sound _) _ u
             (replace D2 C2 (replace D1 C1 d))).
  - done.
  - by apply rmatch_uuid_canonical.
  - by apply canonical_nonempty.
Qed.

Lemma clone_text_same n c d :
  starts_with D1 (c :: d) = false ->
  starts_with D2 (c :: d) = false ->
  rmatch uuid_pattern (c :: d) = None ->
  text n (c :: d) = c :: text n d.
Proof using donor_no_dot.
  intros H1 H2 H3. unfold clone_text. rewrite !rename_eq.
  rewrite (replace_keep _ _ _ _ _ H1).
  assert (H2' : starts_with D2 (c :: replace D1 C1 d) = false).
  { rewrite starts_with_cons in *. destruct (N.eqb 62 c); [|done].
    rewrite andb_true_l in *.
    assert (Hnd : forall x, x ∈ donor_name ++ [60%N] -> is_char 46%N x = false).
    { intros x [Hx| ->%list_elem_of_singleton]%elem_of_app; [|done].
      unfold is_char. apply N.eqb_neq. by intros ->. }
    rewrite <- (starts_with_upto (is_char 46%N) _ (replace D1 C1 d) Hnd).
    rewrite upto_replace by done.
    by rewrite (starts_with_upto (is_char 46%N) _ d Hnd). }
  rewrite (replace_keep _ _ _ _ _ H2').
  rewrite scan_keep; [done | apply rmatch_sound |].
  rewrite rmatch_uuid in H3 |- *.
  change (pass uuid_tests (c :: ?x)) with (is_hex c && pass (tail uuid_tests) x)
    in H3 |- *.
  assert (Hts : forall p x, p ∈ tail uuid_tests -> breaks_uuid x = true -> p x = false).
  { intros p x Hp. apply uuid_tests_break. by right. }
  assert (Hp : pass (tail uuid_tests) (replace D2 C2 (replace D1 C1 d))
               = pass (tail uuid_tests) d).
  { rewrite <- (pass_upto breaks_uuid _ (replace D2 C2 (replace D1 C1 d)) Hts).
    rewrite !upto_replace by done.
    by rewrite (pass_upto breaks_uuid _ d Hts). }
  rewrite Hp.
  by destruct (is_hex c && pass (tail uuid_tests) d).
Qed.

(** Strong induction on the length of the donor text. *)
Lemma clone_text_identical d : forall n,
  identical_but uuid4 donor_name clone_name n d (text n d).
Proof using donor_no_dot clone_no_gt clone_no_hex.
  induction d as [d IH] using (induction_ltof1 _ (@length char)).
  unfold ltof in IH. intros n.
  destruct d as [|c d]; [rewrite clone_text_nil; constructor|].
  destruct (starts_with D1 (c :: d)) eqn:E1.
  { apply starts_with_split in E1. rewrite E1 at 2. rewrite E1 at 1.
    rewrite clone_text_ref. apply (ib_ref uuid4 donor_name clone_name).
    apply IH. rewrite length_drop. simpl. lia. }
  destruct (starts_with D2 (c :: d)) eqn:E2.
  { apply starts_with_split in E2. rewrite E2 at 2. rewrite E2 at 1.
    rewrite clone_text_tag.
    assert (Heq : forall x y : list N,
               (62%N :: x ++ [60%N]) ++ y = lit ">" ++ x ++ lit "<" ++ y).
    { intros x y. simpl. by rewrite <- app_assoc. }
    rewrite !Heq. apply ib_tag.
    apply IH. rewrite length_drop. simpl. lia. }
  destruct (rmatch uuid_pattern (c :: d)) as [[u rest]|] eqn:E3.
  { pose proof (rmatch_uuid_hit _ _ _ E3) as Hu.
    apply rmatch_sound in E3. rewrite E3, clone_text_guid by done.
    constructor; [done|]. apply IH.
    rewrite E3, length_app. apply canonical_iff in Hu as [_ ->]. lia. }
  rewrite clone_text_same by done.
  constructor; try done. apply IH. simpl. lia.
Qed.

End CloneText.

(** ** Identifiers before and after *)

Lemma uuid_tests_kinds :
  Forall (fun q => q = is_hex \/ q = is_char HYPHEN) uuid_tests.
Proof. unfold uuid_tests. simpl. repeat (constructor; [auto|]). constructor. Qed.

Lemma pass_shape ts s s' :
  Forall (fun q => q = is_hex \/ q = is_char HYPHEN) ts ->
  shape s = shape s' -> pass ts s = pass ts s'.
Proof.
  intros Hts. revert s s'.
  induction Hts as [|p ts Hp _ IH]; intros s s' H; [done|].
  destruct s as [|c s], s' as [|c' s']; try done.
  simpl in H. injection H as Hh Hy Hs. simpl. rewrite (IH s s' Hs).
  destruct Hp as [-> | ->]; unfold is_char; by rewrite ?Hh, ?Hy.
Qed.

(** Two texts of the identifier format look the same to the pattern. *)
Lemma pass_fixes_shape ts u u' :
  Forall (fun q => q = is_hex \/ q = is_char HYPHEN) ts ->
  pass ts u = true -> pass ts u' = true ->
  length u = length ts -> length u' = length ts ->
  shape u = shape u'.
Proof.
  intros Hts. revert u u'.
  induction Hts as [|p ts Hp _ IH]; intros u u' H H' Hl Hl'.
  - by destruct u, u'.
  - destruct u as [|c u], u' as [|c' u']; try done. simpl in *.
    apply andb_prop in H as [Hc H]. apply andb_prop in H' as [Hc' H'].
    rewrite (IH u u') by (done || lia). f_equal.
    destruct Hp as [-> | ->].
    + rewrite Hc, Hc'. f_equal.
      assert (Hn : forall x, is_hex x = true -> N.eqb x HYPHEN = false).
      { intros x Hx. destruct (N.eqb_spec x HYPHEN) as [->|]; done. }
      by rewrite !Hn.
    + unfold is_char in Hc, Hc'. apply N.eqb_eq in Hc, Hc'. by subst.
Qed.

Lemma canonical_shape u u' : canonical u -> canonical u' -> shape u = shape u'.
Proof.
  intros [H Hl]%canonical_iff [H' Hl']%canonical_iff.
  by apply (pass_fixes_shape uuid_tests); try apply uuid_tests_kinds.
Qed.

Lemma shape_app s t : shape (s ++ t) = shape s ++ shape t.
Proof. apply map_app. Qed.

Lemma rmatch_uuid_shape s s' :
  shape s = shape s' ->
  rmatch uuid_pattern s = None -> rmatch uuid_pattern s' = None.
Proof.
  intros H. rewrite !rmatch_uuid.
  rewrite (pass_shape uuid_tests s s' uuid_tests_kinds H).
  by destruct (pass uuid_tests s').
Qed.

Lemma scan_uuid_nil : scan (rmatch uuid_pattern) [] = [].
Proof. by apply scan_nil_none. Qed.

Section Regenerated.
Variable uuid4 : nat -> list N.
Hypothesis uuid4_canonical : forall k, canonical (uuid4 k).

Local Abbreviation U := (rmatch uuid_pattern).

(** Replacing identifiers by identifiers leaves the look of the text. *)
Lemma shape_renumber t : forall n, shape (renumber uuid4 n (scan U t)) = shape t.
Proof using uuid4_canonical.
  induction t as [t IH] using (induction_ltof1 _ (@length N)).
  unfold ltof in IH. intros n.
  destruct (U t) as [[u rest]|] eqn:E.
  - pose proof (rmatch_uuid_hit _ _ _ E) as Hu.
    rewrite (scan_hit _ (rmatch_sound _) _ _ _ E (canonical_nonempty u Hu)).
    apply rmatch_sound in E. subst t. simpl. rewrite !shape_app.
    rewrite IH.
    + f_equal. by apply canonical_shape.
    + rewrite length_app. apply canonical_iff in Hu as [_ ->]. lia.
  - destruct t as [|c t]; [by rewrite scan_uuid_nil|].
    rewrite (scan_keep _ (rmatch_sound _) _ _ E). simpl. f_equal.
    apply IH. simpl. lia.
Qed.

(** The identifiers found in the rewritten text are the generated ones, one
    for each found in the text before, in their order. *)
Lemma scan_renumber t : forall n,
  hits (scan U (renumber uuid4 n (scan U t)))
  = map uuid4 (seq n (length (hits (scan U t)))).
Proof using uuid4_canonical.
  induction t as [t IH] using (induction_ltof1 _ (@length N)).
  unfold ltof in IH. intros n.
  destruct (U t) as [[u rest]|] eqn:E.
  - pose proof (rmatch_uuid_hit _ _ _ E) as Hu.
    rewrite (scan_hit _ (rmatch_sound _) _ _ _ E (canonical_nonempty u Hu)).
    apply rmatch_sound in E. subst t. simpl.
    rewrite (scan_hit _ (rmatch_sound _) _ (uuid4 n)
               (renumber uuid4 (S n) (scan U rest))).
    + simpl. f_equal. apply IH.
      rewrite length_app. apply canonical_iff in Hu as [_ ->]. lia.
    + by apply rmatch_uuid_canonical.
    + by apply canonical_nonempty.
  - destruct t as [|c t]; [rewrite scan_uuid_nil; simpl; by rewrite ?scan_uuid_nil|].
    rewrite (scan_keep _ (rmatch_sound _) _ _ E). simpl.
    rewrite (scan_keep _ (rmatch_sound _)).
    + simpl. apply IH. simpl. lia.
    + apply (rmatch_uuid_shape (c :: t)); [|done].
      simpl. f_equal. symmetry. apply shape_renumber.
Qed.

End Regenerated.

(** Renaming only touches text in which no identifier starts. *)
Lemma hits_uuid_replace a old' new' s :
  breaks_uuid a = true ->
  (forall c, c ∈ old' -> is_hex c = false) ->
  (forall c, c ∈ new' -> is_hex c = false) ->
  hits (scan (rmatch uuid_pattern) (replace (a :: old') (a :: new') s))
  = hits (scan (rmatch uuid_pattern) s).
Proof.
  intros Ha Hold Hnew.
  assert (Hah : is_hex a = false).
  { unfold breaks_uuid in Ha. by apply negb_true_iff, orb_false_iff in Ha as [? _]. }
  induction s as [s IH] using (induction_ltof1 _ (@length N)).
  unfold ltof in IH.
  destruct (rmatch uuid_pattern s) as [[u rest]|] eqn:E.
  - pose proof (rmatch_uuid_hit _ _ _ E) as Hu.
    rewrite (scan_hit _ (rmatch_sound _) _ _ _ E (canonical_nonempty u Hu)).
    apply rmatch_sound in E. subst s.
    rewrite replace_skip.
    + rewrite (scan_hit _ (rmatch_sound _) _ u (replace (a :: old') (a :: new') rest)).
      * simpl. f_equal. apply IH.
        rewrite length_app. apply canonical_iff in Hu as [_ ->]. lia.
      * by apply rmatch_uuid_canonical.
      * by apply canonical_nonempty.
    + intros Hin. by rewrite (canonical_chars u a Hu Hin) in Ha.
  - destruct s as [|c s]; [by rewrite replace_nil|].
    destruct (starts_with (a :: old') (c :: s)) eqn:Es.
    + apply starts_with_split in Es. rewrite Es at 2. rewrite Es at 1.
      rewrite replace_hit.
      rewrite !(scan_skip _ (rmatch_sound _) (a :: _)), !hits_app, !hits_keeps.
      * simpl. apply IH. rewrite length_drop. simpl. lia.
      * intros x t [->|Hx]%elem_of_cons; apply rmatch_uuid_not_hex; auto.
      * intros x t [->|Hx]%elem_of_cons; apply rmatch_uuid_not_hex; auto.
    + rewrite replace_keep by done.
      rewrite !(scan_keep _ (rmatch_sound _)); [| done |].
      * simpl. apply IH. simpl. lia.
      * rewrite rmatch_uuid in E |- *.
        change (pass uuid_tests (c :: ?x)) with (is_hex c && pass (tail uuid_tests) x)
          in E |- *.
        assert (Hts : forall p x, p ∈ tail uuid_tests -> breaks_uuid x = true -> p x = false).
        { intros p x Hp. apply uuid_tests_break. by right. }
        rewrite <- (pass_upto breaks_uuid _ (replace _ _ s) Hts).
        rewrite upto_replace by done.
        rewrite (pass_upto breaks_uuid _ s Hts).
        by destruct (is_hex c && pass (tail uuid_tests) s).
Qed.

Lemma findall_uuid_rename donor_name clone_name d :
  (forall c, c ∈ donor_name -> is_hex c = false) ->
  (forall c, c ∈ clone_name -> is_hex c = false) ->
  findall uuid_pattern (rename donor_name clone_name d) = findall uuid_pattern d.
Proof.
  intros Hd Hc. unfold findall, rename.
  change (lit ">" ++ ?x ++ lit "<") with (62%N :: x ++ [60%N]).
  change (lit "." ++ ?x) with (46%N :: x).
  rewrite !hits_uuid_replace; try done.
  - intros c [?| ->%list_elem_of_singleton]%elem_of_app; auto.
  - intros c [?| ->%list_elem_of_singleton]%elem_of_app; auto.
Qed.

(** ** Paths *)

Lemma path_join_relative a b :
  starts_with [SLASH] b = false -> path_join a b = dir_prefix a ++ b.
Proof.
  intros H. unfold path_join, dir_prefix. rewrite H.
  destruct (last a) as [c|]; [|done].
  destruct (N.eqb c SLASH); [done|]. by rewrite <- app_assoc.
Qed.

Lemma dir_prefix_dir a name :
  name <> [] -> SLASH ∉ name ->
  dir_prefix (dir_prefix a ++ name) = dir_prefix a ++ name ++ [SLASH].
Proof.
  intros Hne Hs. unfold dir_prefix at 1.
  destruct (last name) as [c|] eqn:E; [|by apply last_None in E].
  rewrite last_app, E.
  destruct (N.eqb_spec c SLASH) as [->|_].
  - apply last_Some in E as [l ->]. exfalso. apply Hs. set_solver.
  - by rewrite <- app_assoc.
Qed.

Lemma file_name_relative name :
  SLASH ∉ name -> starts_with [SLASH] (name ++ lit ".xml") = false.
Proof.
  intros H. destruct name as [|c name]; [done|].
  rewrite <- app_comm_cons, starts_with_cons.
  destruct (N.eqb_spec SLASH c) as [<-|]; [|done].
  exfalso. apply H. left.
Qed.

Lemma config_xml_eq base :
  config_xml base = dir_prefix base ++ lit "Configuration.xml".
Proof. by apply path_join_relative. Qed.

Lemma config_dump_info_eq base :
  config_dump_info base = dir_prefix base ++ lit "ConfigDumpInfo.xml".
Proof. by apply path_join_relative. Qed.

Lemma catalog_file_eq base name :
  SLASH ∉ name ->
  catalog_file base name
  = dir_prefix base ++ lit "Catalogs/" ++ name ++ lit ".xml".
Proof.
  intros H. unfold catalog_file.
  rewrite (path_join_relative base (lit "Catalogs")) by done.
  rewrite path_join_relative.
  - rewrite dir_prefix_dir; [| done |].
    + by rewrite <- !app_assoc.
    + vm_compute. intros Hin. repeat (apply elem_of_cons in Hin as [Hin|Hin]; [done|]).
      by apply elem_of_nil in Hin.
  - by apply file_name_relative.
Qed.

Lemma config_xml_ne_dump base : config_xml base <> config_dump_info base.
Proof.
  rewrite config_xml_eq, config_dump_info_eq.
  intros H%app_inv_head. discriminate H.
Qed.

Lemma catalog_file_ne_config base name :
  SLASH ∉ name -> catalog_file base name <> config_xml base.
Proof.
  intros Hs. rewrite catalog_file_eq, config_xml_eq by done.
  intros H%app_inv_head. discriminate H.
Qed.

Lemma catalog_file_ne_dump base name :
  SLASH ∉ name -> catalog_file base name <> config_dump_info base.
Proof.
  intros Hs. rewrite catalog_file_eq, config_dump_info_eq by done.
  intros H%app_inv_head. discriminate H.
Qed.

Lemma catalog_file_inj base name name' :
  SLASH ∉ name -> SLASH ∉ name' ->
  catalog_file base name = catalog_file base name' -> name = name'.
Proof.
  intros Hs Hs'. rewrite !catalog_file_eq by done.
  intros H%app_inv_head%app_inv_head. by apply app_inv_tail in H.
Qed.

(** ** Computations that stay within given paths *)

Section Confined.
Variable ps : list (list N).

Lemma confined_same {A} (m : M A) :
  (forall w, exists r, m w = (r, w)) -> confined ps m.
Proof.
  intros H w. destruct (H w) as [r ->]. simpl. split; [done|].
  exists []. split; [by rewrite app_nil_r|]. by intros e p ?%elem_of_nil.
Qed.

Lemma confined_ret {A} (a : A) : confined ps (ret a).
Proof. apply confined_same. intros w. by eexists. Qed.

Lemma confined_raise {A} e : confined ps (@raise A e).
Proof. apply confined_same. intros w. by eexists. Qed.

Lemma confined_bind {A B} (m : M A) (f : A -> M B) :
  confined ps m -> (forall a, confined ps (f a)) -> confined ps (bind m f).
Proof.
  intros Hm Hf w. unfold bind.
  destruct (Hm w) as [Hfs (evs & Hlog & Hevs)].
  destruct (m w) as [[e|a] w1]; simpl in *.
  - split; [done|]. by exists evs.
  - destruct (Hf a w1) as [Hfs' (evs' & Hlog' & Hevs')]. split.
    + intros p Hp. by rewrite Hfs', Hfs.
    + exists (evs ++ evs'). split; [by rewrite Hlog', Hlog, app_assoc|].
      intros e p [?|?]%elem_of_app; eauto.
Qed.

Lemma confined_emit e : subject e = None -> confined ps (emit e).
Proof.
  intros He w. simpl. split; [done|]. exists [e]. split; [done|].
  intros e' p ->%list_elem_of_singleton. by rewrite He.
Qed.

Lemma confined_print_step msg : confined ps (print_step msg).
Proof. by apply confined_emit. Qed.

Lemma confined_print_success msg : confined ps (print_success msg).
Proof. by apply confined_emit. Qed.

Lemma confined_path_exists p : confined ps (path_exists p).
Proof. apply confined_same. intros w. by eexists. Qed.

Lemma confined_read_file p : confined ps (read_file p).
Proof.
  apply confined_same. intros w. unfold read_file.
  destruct (fs w !! p) as [[c|]|]; by eexists.
Qed.

Lemma confined_write_file p c : p ∈ ps -> confined ps (write_file p c).
Proof.
  intros Hp w. unfold write_file.
  assert (Hok : (forall q, q ∉ ps ->
                   fs (World (<[p:=File c]> (fs w)) (drawn w)
                         (log w ++ [Wrote p c])) !! q = fs w !! q) /\
                exists evs, log w ++ [Wrote p c] = log w ++ evs /\
                  forall e q, e ∈ evs -> subject e = Some q -> q ∈ ps).
  { split.
    - intros q Hq. simpl. apply lookup_insert_ne. by intros ->.
    - exists [Wrote p c]. split; [done|].
      by intros e q ->%list_elem_of_singleton [= <-]. }
  destruct (fs w !! p) as [[c0|]|]; simpl; try exact Hok.
  split; [done|]. exists []. split; [by rewrite app_nil_r|].
  by intros e q ?%elem_of_nil.
Qed.

Lemma confined_os_remove p : p ∈ ps -> confined ps (os_remove p).
Proof.
  intros Hp w. unfold os_remove.
  destruct (fs w !! p) as [[c0|]|]; simpl;
    try (split; [done|]; exists []; split; [by rewrite app_nil_r|];
         by intros e q ?%elem_of_nil).
  split.
  - intros q Hq. apply lookup_delete_ne. by intros ->.
  - exists [Removed p]. split; [done|].
    by intros e q ->%list_elem_of_singleton [= <-].
Qed.

Lemma confined_for_each {A} (l : list A) body :
  (forall a, confined ps (body a)) -> confined ps (for_each l body).
Proof.
  intros H. induction l as [|a l IH]; simpl.
  - apply confined_ret.
  - apply confined_bind; [apply H | by intros _].
Qed.

Lemma confined_get_new_guid uuid4 : confined ps (get_new_guid uuid4).
Proof.
  intros w. simpl. split; [done|]. exists []. split; [by rewrite app_nil_r|].
  by intros e p ?%elem_of_nil.
Qed.

Lemma confined_fill_guids uuid4 l : confined ps (fill_guids uuid4 l).
Proof.
  induction l as [|[c|m] l IH]; simpl.
  - apply confined_ret.
  - apply confined_bind; [done|]. intros t. apply confined_ret.
  - apply confined_bind; [apply confined_get_new_guid|]. intros g.
    apply confined_bind; [done|]. intros t. apply confined_ret.
Qed.

End Confined.

Create HintDb confined.

#[local] Hint Resolve confined_ret confined_raise confined_print_step
  confined_print_success confined_path_exists confined_read_file
  confined_get_new_guid confined_fill_guids : confined.

Ltac confined_steps :=
  repeat first
    [ apply confined_bind; [|intros ?]
    | apply confined_for_each; intros [? ?]
    | apply confined_write_file; set_solver
    | apply confined_os_remove; set_solver
    | progress auto with confined
    | match goal with |- confined _ (if ?b then _ else _) => destruct b end
    | match goal with |- confined _ (match ?x with _ => _ end) => destruct x end ].

Lemma confined_remove_existing_traces base clone_name :
  confined [config_xml base; config_dump_info base; catalog_file base clone_name]
    (remove_existing_traces base clone_name).
Proof.
  unfold remove_existing_traces.
  apply confined_bind; [auto with confined|intros _].
  apply confined_bind.
  - simpl. unfold clean_index.
    fold (config_xml base). fold (config_dump_info base). confined_steps.
  - intros _. fold (catalog_file base clone_name). confined_steps.
Qed.

Lemma confined_clone_and_regenerate uuid4 base donor_name clone_name :
  confined [catalog_file base clone_name]
    (clone_and_regenerate uuid4 base donor_name clone_name).
Proof.
  unfold clone_and_regenerate, sub_guids.
  fold (catalog_file base clone_name). confined_steps.
Qed.

Lemma confined_integrate_into_config uuid4 base clone_name :
  confined [config_xml base; config_dump_info base]
    (integrate_into_config uuid4 base clone_name).
Proof.
  unfold integrate_into_config.
  fold (config_xml base). fold (config_dump_info base). confined_steps.
Qed.

Lemma confined_mono {A} ps qs (m : M A) :
  (forall p, p ∈ ps -> p ∈ qs) -> confined ps m -> confined qs m.
Proof.
  intros Hsub Hm w. destruct (Hm w) as [Hfs (evs & Hlog & Hevs)]. split.
  - intros p Hp. apply Hfs. intros Hin. by apply Hp, Hsub.
  - exists evs. split; [done|]. intros e p He Hs. apply Hsub. eauto.
Qed.

Lemma confined_run_steps uuid4 base donor_name clone_name :
  confined [config_xml base; config_dump_info base; catalog_file base clone_name]
    (run_steps uuid4 base donor_name clone_name).
Proof.
  unfold run_steps.
  apply confined_bind; [apply confined_remove_existing_traces|intros _].
  apply confined_bind; [|intros _].
  - eapply confined_mono; [|apply confined_clone_and_regenerate].
    intros p ->%list_elem_of_singleton. right; right; left.
  - eapply confined_mono; [|apply confined_integrate_into_config].
    intros p [->|[->|?%elem_of_nil]%elem_of_cons]%elem_of_cons;
      [left | right; left | done].
Qed.

Lemma confined_untouched {A} ps p (m : M A) :
  p ∉ ps -> confined ps m -> untouched p m.
Proof.
  intros Hp Hm w. destruct (Hm w) as [Hfs (evs & Hlog & Hevs)]. split.
  - by apply Hfs.
  - exists evs. split; [done|]. intros e He Hs. apply Hp. eauto.
Qed.

(** ** The donor's definition file *)

(** C10. None of the three steps (cleanup, clone, integrate), nor the three
    in sequence, modifies or deletes the donor's definition file
    [Catalogs/<donor-name>.xml]: the path holds after the step what it held
    before and is the subject of no write or removal, whatever the state of
    the directory, provided the donor name and the clone name differ (both
    being file names, without a path separator). *)
Theorem donor_file_untouched uuid4 base donor_name clone_name :
  donor_name <> clone_name ->
  SLASH ∉ donor_name -> SLASH ∉ clone_name ->
  untouched (catalog_file base donor_name)
    (remove_existing_traces base clone_name) /\
  untouched (catalog_file base donor_name)
    (clone_and_regenerate uuid4 base donor_name clone_name) /\
  untouched (catalog_file base donor_name)
    (integrate_into_config uuid4 base clone_name) /\
  untouched (catalog_file base donor_name)
    (run_steps uuid4 base donor_name clone_name).
Proof.
  intros Hne Hd Hc.
  assert (H3 : catalog_file base donor_name
               ∉ [config_xml base; config_dump_info base;
                  catalog_file base clone_name]).
  { intros [E|[E|[E|E%elem_of_nil]%elem_of_cons]%elem_of_cons]%elem_of_cons;
      [| | |done].
    - by apply catalog_file_ne_config in E.
    - by apply catalog_file_ne_dump in E.
    - by apply catalog_file_inj in E. }
  split; [|split; [|split]].
  - apply (confined_untouched _ _ _ H3), confined_remove_existing_traces.
  - apply (confined_untouched [catalog_file base clone_name]);
      [|apply confined_clone_and_regenerate].
    intros E%list_elem_of_singleton. by apply catalog_file_inj in E.
  - apply (confined_untouched [config_xml base; config_dump_info base]);
      [|apply confined_integrate_into_config].
    intros [E|[E|E%elem_of_nil]%elem_of_cons]%elem_of_cons; [| |done].
    + by apply catalog_file_ne_config in E.
    + by apply catalog_file_ne_dump in E.
  - apply (confined_untouched _ _ _ H3), confined_run_steps.
Qed.

Ltac solve_notin :=
  let H := fresh in
  intros H; vm_compute in H;
  repeat (apply elem_of_cons in H as [H|H]; [discriminate H|]);
  by apply elem_of_nil in H.

Lemma donor_file_untouched_witness :
  untouched (catalog_file PROJECT_BASE_PATH DONOR_NAME)
    (remove_existing_traces PROJECT_BASE_PATH CLONE_NAME) /\
  untouched (catalog_file PROJECT_BASE_PATH DONOR_NAME)
    (clone_and_regenerate sample_uuid4 PROJECT_BASE_PATH DONOR_NAME CLONE_NAME) /\
  untouched (catalog_file PROJECT_BASE_PATH DONOR_NAME)
    (integrate_into_config sample_uuid4 PROJECT_BASE_PATH CLONE_NAME) /\
  untouched (catalog_file PROJECT_BASE_PATH DONOR_NAME)
    (run_steps sample_uuid4 PROJECT_BASE_PATH DONOR_NAME CLONE_NAME).
Proof.
  apply (donor_file_untouched sample_uuid4 PROJECT_BASE_PATH DONOR_NAME CLONE_NAME).
  - discriminate.
  - solve_notin.
  - solve_notin.
Defined.

(** ** The clone step *)

Ltac msimpl :=
  repeat (progress
    (cbn [bind emit print_step print_success print_error ret raise path_exists
          path_isdir get_new_guid for_each fs drawn log negb fst snd];
     unfold print_step, print_success, print_error, emit, ret, raise,
       path_exists, path_isdir, get_new_guid;
     cbn [fs drawn log negb])).

Lemma bind_run {A B} (m : M A) (f : A -> M B) w :
  bind m f w = match m w with
               | (inl e, w') => (inl e, w')
               | (inr a, w') => f a w'
               end.
Proof. reflexivity. Qed.

Lemma read_file_run p w c :
  fs w !! p = Some (File c) -> read_file p w = (inr c, w).
Proof. intros H. unfold read_file. by rewrite H. Qed.

Lemma write_file_run p c w :
  fs w !! p <> Some Dir ->
  write_file p c w
  = (inr tt, World (<[p := File c]> (fs w)) (drawn w) (log w ++ [Wrote p c])).
Proof. intros H. unfold write_file. by destruct (fs w !! p) as [[?|]|]. Qed.

Lemma os_remove_run p c w :
  fs w !! p = Some (File c) ->
  os_remove p w
  = (inr tt, World (delete p (fs w)) (drawn w) (log w ++ [Removed p])).
Proof. intros H. unfold os_remove. by rewrite H. Qed.

Lemma fill_guids_run uuid4 ps : forall w,
  fill_guids uuid4 ps w
  = (inr (renumber uuid4 (drawn w) ps),
     World (fs w) (drawn w + length (hits ps)) (log w)).
Proof.
  induction ps as [|[c|m] ps IH]; intros [f n l]; simpl.
  - unfold ret. by rewrite Nat.add_0_r.
  - unfold bind. rewrite IH. done.
  - unfold bind, get_new_guid. simpl. rewrite IH. simpl.
    by rewrite Nat.add_succ_r.
Qed.

(** What the step does when the donor file is there. *)
Lemma clone_and_regenerate_run uuid4 base donor_name clone_name w d :
  fs w !! catalog_file base donor_name = Some (File d) ->
  fs w !! catalog_file base clone_name <> Some Dir ->
  clone_and_regenerate uuid4 base donor_name clone_name w
  = (inr tt,
     World (<[catalog_file base clone_name :=
                File (clone_text uuid4 donor_name clone_name (drawn w) d)]> (fs w))
           (drawn w + length (findall uuid_pattern
                                (rename donor_name clone_name d)))
           (log w ++
            [Printed (lit "[*] " ++ lit "Cloning '" ++ donor_name ++ lit "' to '"
                      ++ clone_name ++ lit "' via text manipulation...");
             Printed (lit "[+] " ++ lit "Performed genetic string replacement.");
             Printed (lit "[+] " ++ lit "Regenerated all UUIDs in the file.");
             Wrote (catalog_file base clone_name)
                   (clone_text uuid4 donor_name clone_name (drawn w) d);
             Printed (lit "[+] " ++ lit "Saved new clone file to: "
                      ++ catalog_file base clone_name)])).
Proof.
  intros Hd Hc. destruct w as [f n l]. cbn [fs drawn log] in *.
  unfold clone_and_regenerate, sub_guids.
  fold (catalog_file base donor_name). fold (catalog_file base clone_name).
  msimpl. rewrite Hd. msimpl.
  rewrite bind_run, (read_file_run _ _ d) by done. msimpl.
  rewrite bind_run, fill_guids_run. msimpl.
  rewrite bind_run, write_file_run by done. msimpl.
  unfold clone_text, findall. by rewrite <- !app_assoc.
Qed.

(** What the step does when the donor file is missing. *)
Lemma clone_and_regenerate_missing uuid4 base donor_name clone_name w :
  fs w !! catalog_file base donor_name = None ->
  clone_and_regenerate uuid4 base donor_name clone_name w
  = (inl (FileNotFoundError (lit "Donor file not found: "
                             ++ catalog_file base donor_name)),
     World (fs w) (drawn w)
           (log w ++
            [Printed (lit "[*] " ++ lit "Cloning '" ++ donor_name ++ lit "' to '"
                      ++ clone_name ++ lit "' via text manipulation...")])).
Proof.
  intros Hd. destruct w as [f n l]. cbn [fs drawn log] in *.
  unfold clone_and_regenerate.
  fold (catalog_file base donor_name). fold (catalog_file base clone_name).
  msimpl. rewrite Hd. by msimpl.
Qed.


(** ** The example generator *)

Lemma is_hex_hex_of n : (n < 16)%N -> is_hex (hex_of n) = true.
Proof.
  intros H. rewrite <- (N2Nat.id n).
  assert (Hk : N.to_nat n < 16) by lia.
  generalize dependent (N.to_nat n). clear. intros k Hk.
  do 16 (destruct k as [|k]; [reflexivity|]). lia.
Qed.

Lemma hex_digits_length w n : length (hex_digits w n) = w.
Proof.
  revert n. induction w as [|w IH]; intros n; simpl; [done|].
  rewrite length_app, IH. simpl. lia.
Qed.

Lemma hex_digits_pass w n : pass (replicate w is_hex) (hex_digits w n) = true.
Proof.
  revert n. induction w as [|w IH]; intros n; [done|].
  rewrite replicate_S_end. cbn [hex_digits].
  rewrite pass_app, length_replicate.
  rewrite pass_app_r by apply IH.
  rewrite drop_app_length' by (by rewrite hex_digits_length).
  simpl. rewrite is_hex_hex_of; [done|]. apply N.mod_lt. done.
Qed.

Lemma sample_uuid4_canonical k : canonical (sample_uuid4 k).
Proof.
  apply canonical_iff. unfold sample_uuid4. split.
  - change uuid_tests with (take 24 uuid_tests ++ replicate 12 is_hex).
    rewrite pass_app. rewrite pass_app_r by reflexivity.
    rewrite drop_app_length' by reflexivity.
    by rewrite hex_digits_pass.
  - rewrite length_app, hex_digits_length. reflexivity.
Qed.

(** ** Identifiers of the clone *)

(** C2, as the code has it.  In the clone step the matches of the identifier
    pattern (the non-overlapping ones a left-to-right scan finds) are each
    replaced by a newly generated identifier of their own: the identifiers
    found in the clone file are the generated ones, one per identifier found
    in the donor file and in the same order, whatever the replaced texts
    were.  So the two files hold the same number of them, and repeated
    identifiers of the donor become different ones whenever the generator
    does not repeat itself during the step. *)
Theorem identifiers_regenerated uuid4 base donor_name clone_name w d :
  (forall k, canonical (uuid4 k)) ->
  (forall c, c ∈ donor_name -> is_hex c = false) ->
  (forall c, c ∈ clone_name -> is_hex c = false) ->
  fs w !! catalog_file base donor_name = Some (File d) ->
  fs w !! catalog_file base clone_name <> Some Dir ->
  exists w' out,
    clone_and_regenerate uuid4 base donor_name clone_name w = (inr tt, w') /\
    fs w' !! catalog_file base clone_name = Some (File out) /\
    findall uuid_pattern out
    = map uuid4 (seq (drawn w) (length (findall uuid_pattern d))) /\
    length (findall uuid_pattern out) = length (findall uuid_pattern d) /\
    drawn w' = drawn w + length (findall uuid_pattern d) /\
    ((forall i j, drawn w <= i < j ->
                  j < drawn w + length (findall uuid_pattern d) ->
                  uuid4 i <> uuid4 j) ->
     NoDup (findall uuid_pattern out)).
Proof.
  intros Hcan Hdn Hcn Hd Hc.
  eexists _, _. split; [by apply clone_and_regenerate_run|].
  split; [apply lookup_insert_eq|]. cbn [drawn].
  assert (Hout : findall uuid_pattern
                   (clone_text uuid4 donor_name clone_name (drawn w) d)
                 = map uuid4 (seq (drawn w) (length (findall uuid_pattern d)))).
  { unfold clone_text, findall at 1. rewrite scan_renumber by done.
    fold (findall uuid_pattern (rename donor_name clone_name d)).
    by rewrite findall_uuid_rename. }
  split; [exact Hout|]. split; [|split].
  - by rewrite Hout, length_map, length_seq.
  - by rewrite findall_uuid_rename.
  - intros Hfresh. rewrite Hout.
    generalize (length (findall uuid_pattern d)) Hfresh. clear.
    intros n. generalize (drawn w). clear. intros a.
    revert a. induction n as [|n IH]; intros a Hfresh; [constructor|].
    simpl. constructor.
    + intros (j & Hj & Hin%elem_of_seq)%list_elem_of_fmap.
      apply (Hfresh a j); [lia|lia|done].
    + apply IH. intros i j Hij Hj. apply Hfresh; lia.
Qed.

Ltac solve_no_hex :=
  let c := fresh in
  let H := fresh in
  intros c H; vm_compute in H;
  repeat (apply elem_of_cons in H as [->|H]; [reflexivity|]);
  by apply elem_of_nil in H.

Lemma identifiers_regenerated_witness :
  exists w' out,
    clone_and_regenerate sample_uuid4 sample_base DONOR_NAME CLONE_NAME
      sample_world = (inr tt, w') /\
    fs w' !! catalog_file sample_base CLONE_NAME = Some (File out) /\
    findall uuid_pattern out
    = map sample_uuid4
        (seq (drawn sample_world) (length (findall uuid_pattern sample_donor))) /\
    length (findall uuid_pattern out)
    = length (findall uuid_pattern sample_donor) /\
    drawn w' = drawn sample_world + length (findall uuid_pattern sample_donor) /\
    ((forall i j, drawn sample_world <= i < j ->
                  j < drawn sample_world
                      + length (findall uuid_pattern sample_donor) ->
                  sample_uuid4 i <> sample_uuid4 j) ->
     NoDup (findall uuid_pattern out)).
Proof.
  apply (identifiers_regenerated sample_uuid4 sample_base DONOR_NAME
           CLONE_NAME sample_world sample_donor).
  - exact sample_uuid4_canonical.
  - solve_no_hex.
  - solve_no_hex.
  - vm_compute. reflexivity.
  - vm_compute. discriminate.
Defined.

(** The sample donor holds three identifiers, two of them equal; the clone
    gets three different ones. *)
Example sample_identifiers :
  findall uuid_pattern sample_donor
  = [lit "3f2504e0-4f89-11d3-9a0c-0305e82c3301";
     lit "3f2504e0-4f89-11d3-9a0c-0305e82c3301";
     lit "7C9E6679-7425-40DE-944B-E07FC1F90AE7"] /\
  findall uuid_pattern
    (clone_text sample_uuid4 DONOR_NAME CLONE_NAME 0 sample_donor)
  = [lit "00000000-0000-4000-8000-000000000000";
     lit "00000000-0000-4000-8000-000000000001";
     lit "00000000-0000-4000-8000-000000000002"].
Proof. split; vm_compute; reflexivity. Qed.

(** C2, as stated, fails on overlapping texts of the identifier format.
    The donor text below holds two of them, at offsets 0 and 28, sharing
    eight characters.  The step generates one identifier only, for the
    first; from offset 36 on the clone text is the donor text, so the last
    28 characters of the second one are carried over. *)
Lemma overlapping_identifier_kept :
  canonical (take 36 overlap_donor) /\
  canonical (drop 28 overlap_donor) /\
  let r := clone_and_regenerate sample_uuid4 sample_base DONOR_NAME CLONE_NAME
             overlap_world in
  r.1 = inr tt /\
  drawn r.2 = 1 /\
  fs r.2 !! catalog_file sample_base CLONE_NAME
  = Some (File (sample_uuid4 0 ++ drop 36 overlap_donor)) /\
  drop 28 (sample_uuid4 0 ++ drop 36 overlap_donor)
  = lit "00000000-1111-2222-3333-444444444444".
Proof. repeat split; vm_compute; reflexivity. Qed.

(** ** The cleanup step *)

Lemma clean_index_run base ref filename template w :
  fs w !! path_join base filename <> Some Dir ->
  clean_index base ref (filename, template) w
  = (inr tt,
     World (clean_fs (path_join base filename) (template ref) (fs w))
           (drawn w)
           (log w ++ clean_events (path_join base filename) filename ref
                       (template ref) (fs w))).
Proof.
  intros Hnd. destruct w as [f n l]. cbn [fs drawn log] in *.
  unfold clean_index, clean_fs, clean_events. msimpl.
  destruct (f !! path_join base filename) as [[c|]|] eqn:E; [|done|].
  - msimpl. rewrite bind_run, (read_file_run _ _ c) by done. msimpl.
    case_bool_decide as Hc.
    + rewrite bind_run, write_file_run by (cbn [fs]; by rewrite E). msimpl.
      by rewrite <- app_assoc.
    + msimpl. rewrite <- Hc, insert_id by done.
      by rewrite app_nil_r.
  - msimpl. by rewrite app_nil_r.
Qed.

Lemma clean_fs_not_dir p pattern m q :
  m !! q <> Some Dir -> clean_fs p pattern m !! q <> Some Dir.
Proof.
  intros H. unfold clean_fs. destruct (m !! p) as [[c|]|] eqn:E; try done.
  destruct (decide (p = q)) as [->|Hne].
  - by rewrite lookup_insert_eq.
  - by rewrite lookup_insert_ne.
Qed.

(** The whole step, when none of its three paths is a directory. *)
Lemma remove_existing_traces_run base clone_name w :
  fs w !! config_xml base <> Some Dir ->
  fs w !! config_dump_info base <> Some Dir ->
  fs w !! catalog_file base clone_name <> Some Dir ->
  let m1 := clean_fs (config_xml base)
              (config_trace_pattern (ref_name clone_name)) (fs w) in
  let m2 := clean_fs (config_dump_info base)
              (dump_trace_pattern (ref_name clone_name)) m1 in
  remove_existing_traces base clone_name w
  = (inr tt,
     World (unlink_fs (catalog_file base clone_name) m2) (drawn w)
       (log w ++
        [Printed (lit "[*] " ++ lit "Ensuring idempotency by cleaning up traces of '"
                  ++ clone_name ++ lit "'...")]
        ++ clean_events (config_xml base) (lit "Configuration.xml")
             (ref_name clone_name)
             (config_trace_pattern (ref_name clone_name)) (fs w)
        ++ clean_events (config_dump_info base) (lit "ConfigDumpInfo.xml")
             (ref_name clone_name)
             (dump_trace_pattern (ref_name clone_name)) m1
        ++ unlink_events (catalog_file base clone_name) m2)).
Proof.
  intros H1 H2 H3 m1 m2. destruct w as [f n l]. cbn [fs drawn log] in *.
  unfold remove_existing_traces.
  fold (ref_name clone_name). fold (catalog_file base clone_name).
  msimpl.
  rewrite bind_run, bind_run, clean_index_run by done. cbn [fs drawn log].
  fold (config_xml base). fold m1.
  rewrite bind_run, clean_index_run
    by (cbn [fs]; fold (config_dump_info base); by apply clean_fs_not_dir).
  cbn [fs drawn log]. fold (config_dump_info base). fold m2. msimpl.
  assert (H3' : m2 !! catalog_file base clone_name <> Some Dir)
    by (by do 2 apply clean_fs_not_dir).
  unfold unlink_fs, unlink_events.
  destruct (m2 !! catalog_file base clone_name) as [[c|]|] eqn:E; [|done|].
  - rewrite bind_run, (os_remove_run _ c) by done. msimpl.
    by rewrite <- !app_assoc.
  - msimpl. by rewrite <- !app_assoc, app_nil_r.
Qed.

Lemma clean_events_elem e p filename ref pattern m :
  e ∈ clean_events p filename ref pattern m ->
  exists c, m !! p = Some (File c) /\ sub pattern [] c <> c /\
            (e = Wrote p (sub pattern [] c) \/ subject e = None).
Proof.
  unfold clean_events. destruct (m !! p) as [[c|]|]; try by intros ?%elem_of_nil.
  case_bool_decide as Hc; [|by intros ?%elem_of_nil].
  intros [->|[->|?%elem_of_nil]%elem_of_cons]%elem_of_cons; [| |done];
    exists c; eauto.
Qed.

Lemma unlink_events_elem e p m :
  e ∈ unlink_events p m ->
  is_Some (m !! p) /\ (e = Removed p \/ subject e = None).
Proof.
  unfold unlink_events. destruct (m !! p) as [x|]; [|by intros ?%elem_of_nil].
  intros [->|[->|?%elem_of_nil]%elem_of_cons]%elem_of_cons; [| |done]; eauto.
Qed.

Lemma clean_fs_lookup_ne p q pattern m :
  p <> q -> clean_fs p pattern m !! q = m !! q.
Proof.
  intros H. unfold clean_fs. destruct (m !! p) as [[c|]|]; try done.
  by apply lookup_insert_ne.
Qed.

Lemma clean_fs_lookup_file p pattern m c :
  m !! p = Some (File c) ->
  clean_fs p pattern m !! p = Some (File (sub pattern [] c)).
Proof. intros H. unfold clean_fs. rewrite H. apply lookup_insert_eq. Qed.

Lemma clean_fs_none p q pattern m :
  m !! q = None -> clean_fs p pattern m !! q = None.
Proof.
  intros H. destruct (decide (p = q)) as [->|Hne].
  - unfold clean_fs. by rewrite H.
  - by rewrite clean_fs_lookup_ne.
Qed.

Lemma unlink_fs_lookup_ne p q m : p <> q -> unlink_fs p m !! q = m !! q.
Proof.
  intros H. unfold unlink_fs. destruct (m !! p); [|done].
  by apply lookup_delete_ne.
Qed.

Lemma unlink_fs_none p q m : m !! q = None -> unlink_fs p m !! q = None.
Proof.
  intros H. unfold unlink_fs. destruct (m !! p); [|done].
  destruct (decide (p = q)) as [->|Hne].
  - apply lookup_delete_eq.
  - by rewrite lookup_delete_ne.
Qed.

(** C9. The cleanup step rewrites an index file only when its content
    changed (every write carries a content different from the one found) and
    leaves it untouched otherwise; it raises no error over absent files: an
    absent index file is skipped entirely, and an absent clone definition
    file is not removed.  (None of the three paths being a directory.) *)
Theorem cleanup_rewrites_only_changes base clone_name w :
  fs w !! config_xml base <> Some Dir ->
  fs w !! config_dump_info base <> Some Dir ->
  fs w !! catalog_file base clone_name <> Some Dir ->
  cleanup_only_on_change base clone_name w.
Proof.
  intros H1 H2 H3.
  pose proof (remove_existing_traces_run base clone_name w H1 H2 H3) as Hrun.
  cbv zeta in Hrun.
  set (P1 := config_trace_pattern (ref_name clone_name)) in *.
  set (P2 := dump_trace_pattern (ref_name clone_name)) in *.
  set (m1 := clean_fs (config_xml base) P1 (fs w)) in *.
  set (m2 := clean_fs (config_dump_info base) P2 m1) in *.
  pose proof (config_xml_ne_dump base) as Hne.
  assert (Hm1 : m1 !! config_dump_info base = fs w !! config_dump_info base)
    by by apply clean_fs_lookup_ne.
  eexists _, _. split; [exact Hrun|]. split; [reflexivity|]. cbn [fs log].
  assert (Hev : forall e,
    e ∈ [Printed (lit "[*] " ++ lit "Ensuring idempotency by cleaning up traces of '"
                  ++ clone_name ++ lit "'...")]
        ++ clean_events (config_xml base) (lit "Configuration.xml")
             (ref_name clone_name) P1 (fs w)
        ++ clean_events (config_dump_info base) (lit "ConfigDumpInfo.xml")
             (ref_name clone_name) P2 m1
        ++ unlink_events (catalog_file base clone_name) m2 ->
    subject e = None
    \/ (exists c, fs w !! config_xml base = Some (File c) /\ sub P1 [] c <> c /\
                  e = Wrote (config_xml base) (sub P1 [] c))
    \/ (exists c, fs w !! config_dump_info base = Some (File c) /\
                  sub P2 [] c <> c /\
                  e = Wrote (config_dump_info base) (sub P2 [] c))
    \/ (is_Some (m2 !! catalog_file base clone_name) /\
        e = Removed (catalog_file base clone_name))).
  { intros e [->%list_elem_of_singleton|[He|[He|He]%elem_of_app]%elem_of_app]%elem_of_app.
    - by left.
    - apply clean_events_elem in He as (c & Hc & Hd & [->|Hs]); [|by left].
      right; left. eauto.
    - apply clean_events_elem in He as (c & Hc & Hd & [->|Hs]); [|by left].
      right; right; left. rewrite Hm1 in Hc. eauto.
    - apply unlink_events_elem in He as [Hs [->|Hn]]; [|by left].
      right; right; right. eauto. }
  assert (Hcf : forall q, is_Some (m2 !! q) -> is_Some (fs w !! q)).
  { intros q [x Hx]. destruct (fs w !! q) eqn:E; [eauto|].
    unfold m2, m1 in Hx. rewrite clean_fs_none in Hx; [done|].
    by apply clean_fs_none. }
  split.
  - intros p pattern Hp.
    assert (Hcases : (p = config_xml base /\ pattern = P1) \/
                     (p = config_dump_info base /\ pattern = P2)).
    { apply elem_of_cons in Hp as [[= -> ->]|Hp]; [by left|].
      apply list_elem_of_singleton in Hp as [= -> ->]. by right. }
    split; [|split].
    + intros c' Hw. apply Hev in Hw.
      destruct Hw as [Hs|[(c & Hc & Hd & [= -> ->])|[(c & Hc & Hd & [= -> ->])|[_ [=]]]]];
        [done| |].
      * destruct Hcases as [[_ ->]|[E _]]; [eauto|done].
      * destruct Hcases as [[E _]|[_ ->]]; [by symmetry in E|eauto].
    + intros Hnone. split.
      * apply unlink_fs_none. unfold m2, m1. by do 2 apply clean_fs_none.
      * intros e He Hs. apply Hev in He.
        destruct He as [Hn|[(c & Hc & _ & ->)|[(c & Hc & _ & ->)|[Hsome ->]]]];
          simpl in Hs; simplify_eq.
        apply Hcf in Hsome. rewrite Hnone in Hsome. by destruct Hsome.
    + intros c Hc Hsame Hncf. split.
      * rewrite unlink_fs_lookup_ne by done. unfold m2.
        destruct Hcases as [[-> ->]|[-> ->]].
        -- rewrite clean_fs_lookup_ne by done. unfold m1.
           by rewrite (clean_fs_lookup_file _ _ _ c), Hsame.
        -- rewrite (clean_fs_lookup_file _ _ _ c), ?Hsame; [done|].
           by rewrite Hm1.
      * intros e He Hs. apply Hev in He.
        destruct He as [Hn|[(c0 & Hc0 & Hd & ->)|[(c0 & Hc0 & Hd & ->)|[Hsome ->]]]];
          simpl in Hs; simplify_eq.
        -- destruct Hcases as [[_ ->]|[E _]]; [done|by symmetry in E].
        -- destruct Hcases as [[E _]|[_ ->]]; done.
  - intros Hnone p Hin. apply Hev in Hin.
    destruct Hin as [Hn|[(c & _ & _ & [=])|[(c & _ & _ & [=])|[Hsome _]]]]; [done|].
    apply Hcf in Hsome. rewrite Hnone in Hsome. by destruct Hsome.
Qed.

Lemma cleanup_rewrites_only_changes_witness :
  cleanup_only_on_change sample_base CLONE_NAME sample_world.
Proof.
  apply (cleanup_rewrites_only_changes sample_base CLONE_NAME sample_world);
    vm_compute; discriminate.
Defined.

(** ** A missing donor file *)

Lemma creates_nothing_bind {A B} (m : M A) (f : A -> M B) :
  creates_nothing m -> (forall a, creates_nothing (f a)) ->
  creates_nothing (bind m f).
Proof.
  intros Hm Hf w p Hp. rewrite bind_run. specialize (Hm w p Hp).
  destruct (m w) as [[e|a] w1]; simpl in *; [done|]. by apply Hf.
Qed.

Lemma creates_nothing_same {A} (m : M A) :
  (forall w, fs (m w).2 = fs w) -> creates_nothing m.
Proof. intros H w p Hp. by rewrite H. Qed.

Lemma creates_nothing_clean_index base ref entry :
  creates_nothing (clean_index base ref entry).
Proof.
  destruct entry as [filename template]. intros [f n l] p Hp.
  cbn [fs] in Hp. unfold clean_index. msimpl.
  destruct (f !! path_join base filename) as [[c|]|] eqn:E; msimpl; [| |done].
  - try (rewrite bind_run, (read_file_run _ _ c) by done).
    case_bool_decide; msimpl; [|done].
    try (rewrite bind_run, write_file_run by (cbn [fs]; by rewrite E)); msimpl.
    rewrite lookup_insert_ne; [done|]. intros Heq. rewrite Heq in E.
    by rewrite E in Hp.
  - try rewrite bind_run. unfold read_file. cbn [fs]. by rewrite ?E.
Qed.

Lemma creates_nothing_remove_existing_traces base clone_name :
  creates_nothing (remove_existing_traces base clone_name).
Proof.
  unfold remove_existing_traces.
  apply creates_nothing_bind; [by apply creates_nothing_same|intros _].
  apply creates_nothing_bind.
  - cbn [for_each].
    repeat (apply creates_nothing_bind;
            [apply creates_nothing_clean_index|intros _]).
    by apply creates_nothing_same.
  - intros _. intros [f n l] p Hp. cbn [fs] in Hp.
    fold (catalog_file base clone_name). msimpl.
    destruct (f !! catalog_file base clone_name) as [[c|]|] eqn:E; msimpl;
      [| |done].
    + try (rewrite bind_run, (os_remove_run _ c) by done). msimpl.
      unfold os_remove. cbn [fs]. rewrite ?E. msimpl.
      destruct (decide (catalog_file base clone_name = p)) as [<-|Hne].
      * apply lookup_delete_eq.
      * by rewrite lookup_delete_ne.
    + try rewrite bind_run. unfold os_remove. cbn [fs]. by rewrite ?E.
Qed.

(** The run stops at the clone step, which has written nothing. *)
Lemma run_steps_missing uuid4 base donor_name clone_name w :
  fs w !! catalog_file base donor_name = None ->
  exists e w', run_steps uuid4 base donor_name clone_name w = (inl e, w') /\
    forall w1, remove_existing_traces base clone_name w = (inr tt, w1) ->
      e = FileNotFoundError (lit "Donor file not found: "
                             ++ catalog_file base donor_name) /\
      fs w' = fs w1 /\ drawn w' = drawn w1 /\
      exists msg, log w' = log w1 ++ [Printed msg].
Proof.
  intros Hd. unfold run_steps. rewrite bind_run.
  pose proof (creates_nothing_remove_existing_traces base clone_name w _ Hd) as Hd1.
  destruct (remove_existing_traces base clone_name w) as [[e|[]] w1]; simpl in Hd1.
  - eexists _, _. split; [done|]. intros w1' [=].
  - rewrite bind_run, clone_and_regenerate_missing by done.
    eexists _, _. split; [done|]. intros w1' [= <-]. eauto.
Qed.

(** C8, as the code has it.  If the donor definition file does not exist,
    the run fails: the clone step raises the file-not-found condition before
    it writes anything, and the integrate step is not reached.  The cleanup
    step has run by then: what it rewrote or removed stays so, and nothing
    else is written. The script ends with status 1. *)
Theorem missing_donor_fails uuid4 base donor_name clone_name w :
  fs w !! catalog_file base donor_name = None ->
  fs w !! config_xml base <> Some Dir ->
  fs w !! config_dump_info base <> Some Dir ->
  fs w !! catalog_file base clone_name <> Some Dir ->
  exists w1 w',
    remove_existing_traces base clone_name w = (inr tt, w1) /\
    clone_and_regenerate uuid4 base donor_name clone_name w1
    = (inl (FileNotFoundError (lit "Donor file not found: "
                               ++ catalog_file base donor_name)), w') /\
    run_steps uuid4 base donor_name clone_name w
    = (inl (FileNotFoundError (lit "Donor file not found: "
                               ++ catalog_file base donor_name)), w') /\
    fs w' = fs w1 /\
    exists msg, log w' = log w1 ++ [Printed msg].
Proof.
  intros Hd H1 H2 H3.
  pose proof (remove_existing_traces_run base clone_name w H1 H2 H3) as Hrun.
  cbv zeta in Hrun.
  pose proof (creates_nothing_remove_existing_traces base clone_name w _ Hd) as Hd1.
  rewrite Hrun in Hd1. cbn [snd] in Hd1.
  eexists _, _. split; [exact Hrun|].
  split; [by apply clone_and_regenerate_missing|]. split.
  - unfold run_steps. rewrite bind_run, Hrun, bind_run.
    by rewrite clone_and_regenerate_missing.
  - split; [done|]. eauto.
Qed.

Lemma missing_donor_fails_witness :
  exists w1 w',
    remove_existing_traces sample_base CLONE_NAME trace_world = (inr tt, w1) /\
    clone_and_regenerate sample_uuid4 sample_base DONOR_NAME CLONE_NAME w1
    = (inl (FileNotFoundError (lit "Donor file not found: "
                               ++ catalog_file sample_base DONOR_NAME)), w') /\
    run_steps sample_uuid4 sample_base DONOR_NAME CLONE_NAME trace_world
    = (inl (FileNotFoundError (lit "Donor file not found: "
                               ++ catalog_file sample_base DONOR_NAME)), w') /\
    fs w' = fs w1 /\
    exists msg, log w' = log w1 ++ [Printed msg].
Proof.
  apply (missing_donor_fails sample_uuid4 sample_base DONOR_NAME CLONE_NAME
           trace_world).
  - vm_compute. reflexivity.
  - vm_compute. discriminate.
  - vm_compute. discriminate.
  - vm_compute. discriminate.
Defined.

(** The script itself ends with status 1 when the donor file is missing
    under both directories it may work in. *)
Lemma main_missing_donor uuid4 w :
  fs w !! catalog_file PROJECT_BASE_PATH DONOR_NAME = None ->
  fs w !! catalog_file sample_base DONOR_NAME = None ->
  (main uuid4 w).1 = 1%N.
Proof.
  intros Ha Hb. unfold main, script_body. fold sample_base.
  rewrite bind_run. msimpl.
  destruct (fs w !! sample_base) as [[c|]|]; cbn [negb]; rewrite bind_run; msimpl.
  all: try (destruct (fs w !! path_join PROJECT_BASE_PATH (lit "Configuration.xml"));
            msimpl; [|done]).
  all: try (destruct (fs w !! path_join sample_base (lit "Configuration.xml"));
            msimpl; [|done]).
  all: rewrite bind_run; msimpl.
  all: first
    [ destruct (run_steps_missing uuid4 _ DONOR_NAME CLONE_NAME w Ha)
        as (e & w' & -> & _); done
    | destruct (run_steps_missing uuid4 _ DONOR_NAME CLONE_NAME w Hb)
        as (e & w' & -> & _); done ].
Qed.

(** C8, as stated, fails: on an export that holds a trace of the clone and
    no donor file, the run ends with status 1 on the file-not-found
    condition, and [Configuration.xml] has been rewritten before. *)
Lemma missing_donor_after_write :
  fs trace_world !! catalog_file sample_base DONOR_NAME = None /\
  (main sample_uuid4 trace_world).1 = 1%N /\
  (script_body sample_uuid4 trace_world).1
  = inl (FileNotFoundError (lit "Donor file not found: "
                            ++ catalog_file sample_base DONOR_NAME)) /\
  head (omap (fun e => match e with
                       | Wrote p c => Some (p, c)
                       | _ => None
                       end) (log (main sample_uuid4 trace_world).2))
  = Some (config_xml sample_base,
          lines [TAB :: TAB :: lit "<cfg:ChildObjects>";
                 TAB :: TAB :: lit "</cfg:ChildObjects>"]) /\
  fs (main sample_uuid4 trace_world).2 !! config_xml sample_base
  <> fs trace_world !! config_xml sample_base.
Proof. repeat split; vm_compute; (reflexivity || discriminate). Qed.

(** ** The integrate step *)

Lemma integrate_into_config_run uuid4 base clone_name w c b :
  fs w !! config_xml base = Some (File c) ->
  fs w !! config_dump_info base = Some (File b) ->
  integrate_into_config uuid4 base clone_name w
  = (inr tt,
     World (<[config_dump_info base :=
                File (dump_injected clone_name (uuid4 (drawn w)) b)]>
              (<[config_xml base := File (config_injected clone_name c)]> (fs w)))
           (S (drawn w))
           (log w ++
            [Printed (lit "[*] " ++ lit "Integrating clone into configuration topology via robust text insertion...");
             Printed (lit "[+] " ++ config_message
                        (chosen catalog_line_pattern document_line_pattern c)
                        (config_xml base));
             Wrote (config_xml base) (config_injected clone_name c);
             Printed (lit "[+] " ++ dump_message
                        (chosen catalog_block_pattern document_block_pattern b)
                        (config_dump_info base));
             Wrote (config_dump_info base)
                   (dump_injected clone_name (uuid4 (drawn w)) b)])).
Proof.
  intros Hc Hb. destruct w as [f n l]. cbn [fs drawn log] in *.
  unfold integrate_into_config.
  fold (config_xml base). fold (config_dump_info base).
  fold (ref_name clone_name). fold (new_line clone_name).
  rewrite bind_run. msimpl.
  rewrite bind_run, (read_file_run _ _ c) by done.
  rewrite bind_run.
  assert (Htier : forall w0,
    match last (findall catalog_line_pattern c) with
    | Some last_line =>
        print_success (lit "Injected after last Catalog in " ++ config_xml base);;
        ret (replace last_line (last_line ++ NL :: new_line clone_name) c)
    | None =>
        match search document_line_pattern c with
        | Some doc =>
            print_success (lit "Injected before first Document in "
                           ++ config_xml base);;
            ret (replace doc (new_line clone_name ++ NL :: doc) c)
        | None =>
            print_success (lit "Injected at end of ChildObjects in "
                           ++ config_xml base);;
            ret (replace ([TAB; TAB] ++ lit "</cfg:ChildObjects>")
                   (new_line clone_name ++ NL :: [TAB; TAB]
                    ++ lit "</cfg:ChildObjects>") c)
        end
    end w0
    = (inr (config_injected clone_name c),
       World (fs w0) (drawn w0)
         (log w0 ++ [Printed (lit "[+] " ++ config_message
                        (chosen catalog_line_pattern document_line_pattern c)
                        (config_xml base))]))).
  { intros w0. unfold config_injected, inject, chosen.
    destruct (last (findall catalog_line_pattern c)); [done|].
    by destruct (search document_line_pattern c). }
  rewrite Htier. clear Htier. cbn [fs drawn log].
  rewrite bind_run, write_file_run by (cbn [fs]; by rewrite Hc). cbn [fs drawn log].
  rewrite bind_run, (read_file_run _ _ b)
    by (cbn [fs]; rewrite lookup_insert_ne; [done|apply config_xml_ne_dump]).
  rewrite bind_run. msimpl.
  fold (new_block clone_name (uuid4 n)).
  rewrite bind_run.
  assert (Htier : forall w0,
    match last (findall catalog_block_pattern b) with
    | Some last_block =>
        print_success (lit "Injected metadata after last Catalog in "
                       ++ config_dump_info base);;
        ret (replace last_block
               (last_block ++ NL :: new_block clone_name (uuid4 n)) b)
    | None =>
        match search document_block_pattern b with
        | Some doc =>
            print_success (lit "Injected metadata before first Document in "
                           ++ config_dump_info base);;
            ret (replace doc (new_block clone_name (uuid4 n) ++ NL :: doc) b)
        | None =>
            print_success (lit "Injected metadata at end of ChildObjects in "
                           ++ config_dump_info base);;
            ret (replace (TAB :: lit "</xr:ChildObjects>")
                   (new_block clone_name (uuid4 n) ++ NL :: TAB
                    :: lit "</xr:ChildObjects>") b)
        end
    end w0
    = (inr (dump_injected clone_name (uuid4 n) b),
       World (fs w0) (drawn w0)
         (log w0 ++ [Printed (lit "[+] " ++ dump_message
                        (chosen catalog_block_pattern document_block_pattern b)
                        (config_dump_info base))]))).
  { intros w0. unfold dump_injected, inject, chosen.
    destruct (last (findall catalog_block_pattern b)); [done|].
    by destruct (search document_block_pattern b). }
  rewrite Htier. clear Htier. cbn [fs drawn log].
  rewrite write_file_run.
  - cbn [fs drawn log]. by rewrite <- !app_assoc.
  - cbn [fs]. rewrite lookup_insert_ne by apply config_xml_ne_dump.
    by rewrite Hb.
Qed.

(** ** Blocks of the dump index *)

(** C5 on the sample export.  After one run the index holds the donor's
    block, then the clone's, then a document's.  Cleaning up the clone then
    removes the donor's block with it: the pattern starts at the first
    [<xr:Metadata>] of the file, not at the one of the clone's block. *)
Lemma cleanup_removes_donor_block :
  fs after_first_run !! config_dump_info sample_base
  = Some (File (lines [HEADER; DONOR_BLOCK;
                       new_block CLONE_NAME (sample_uuid4 3);
                       ORDER_BLOCK; DUMP_CLOSE])) /\
  (remove_existing_traces sample_base CLONE_NAME after_first_run).1 = inr tt /\
  fs (remove_existing_traces sample_base CLONE_NAME after_first_run).2
    !! config_dump_info sample_base
  = Some (File (lines [HEADER; ORDER_BLOCK; DUMP_CLOSE])).
Proof. repeat split; vm_compute; reflexivity. Qed.

(** C7 on an index without catalog whose first block is of another kind:
    the new block is put before that block, not immediately before the
    first document block. *)
Lemma block_inserted_before_other_kind :
  findall catalog_block_pattern enum_dump = [] /\
  (integrate_into_config sample_uuid4 sample_base CLONE_NAME enum_world).1
  = inr tt /\
  fs (integrate_into_config sample_uuid4 sample_base CLONE_NAME enum_world).2
    !! config_dump_info sample_base
  = Some (File (lines [HEADER;
                       TAB :: TAB :: new_block CLONE_NAME (sample_uuid4 0);
                       drop 2 ENUM_BLOCK; ORDER_BLOCK; DUMP_CLOSE])) /\
  lines [HEADER; TAB :: TAB :: new_block CLONE_NAME (sample_uuid4 0);
         drop 2 ENUM_BLOCK; ORDER_BLOCK; DUMP_CLOSE]
  <> lines [HEADER; ENUM_BLOCK; new_block CLONE_NAME (sample_uuid4 0);
            ORDER_BLOCK; DUMP_CLOSE].
Proof. repeat split; vm_compute; (reflexivity || discriminate). Qed.

(** ** Matches are parts of the text *)

Lemma star_ends_nonempty g p s : star_ends g p s <> [].
Proof.
  destruct s as [|c s]; simpl; [done|].
  destruct (p c); [|done]. destruct g; [|done].
  intros H. apply app_eq_nil in H as [_ H]. done.
Qed.

Lemma ends_min_len r : forall s x, x ∈ ends r s -> min_len r <= length x.1.
Proof.
  induction r as [|c|p|r1 IH1 r2 IH2|g p|r1 IH1]; intros s x; simpl; try lia.
  - destruct s as [|a s]; [by intros ?%elem_of_nil|].
    destruct (N.eqb a c); [by intros ->%list_elem_of_singleton | by intros ?%elem_of_nil].
  - destruct s as [|a s]; [by intros ?%elem_of_nil|].
    destruct (p a); [by intros ->%list_elem_of_singleton | by intros ?%elem_of_nil].
  - intros H. apply list_elem_of_In, in_flat_map in H as (y & Hy & H).
    apply list_elem_of_In in Hy, H.
    apply list_elem_of_fmap in H as (z & -> & Hz).
    apply IH1 in Hy. apply IH2 in Hz. simpl. rewrite length_app. lia.
Qed.

Lemma rmatch_nonempty r s m rest :
  0 < min_len r -> rmatch r s = Some (m, rest) -> m <> [].
Proof.
  intros Hr H. unfold rmatch in H.
  destruct (ends r s) as [|x l] eqn:E; [done|]. simpl in H. injection H as ->.
  pose proof (ends_min_len r s (m, rest)) as Hl. rewrite E in Hl.
  specialize (Hl ltac:(left)). simpl in Hl. intros ->. simpl in Hl. lia.
Qed.

Section Hits.
Variable r : regex.
Hypothesis r_nonempty : 0 < min_len r.

Lemma scan_regex_cases s :
  (exists m rest, rmatch r s = Some (m, rest) /\ m <> [] /\ s = m ++ rest /\
                  scan (rmatch r) s = Hit m :: scan (rmatch r) rest) \/
  (rmatch r s = None /\
   match s with
   | [] => scan (rmatch r) s = []
   | c :: s' => scan (rmatch r) s = Keep c :: scan (rmatch r) s'
   end).
Proof using r_nonempty.
  destruct (rmatch r s) as [[m rest]|] eqn:E.
  - left. exists m, rest.
    pose proof (rmatch_nonempty r s m rest r_nonempty E) as Hm.
    repeat split; try done.
    + exact (rmatch_sound r _ _ _ E).
    + by apply (scan_hit _ (rmatch_sound r)).
  - right. split; [done|]. destruct s as [|c s].
    + by apply scan_nil_none.
    + by apply (scan_keep _ (rmatch_sound r)).
Qed.

Lemma hits_infix s : forall m,
  m ∈ findall r s -> m <> [] /\ exists pre post, s = pre ++ m ++ post.
Proof using r_nonempty.
  induction s as [s IH] using (induction_ltof1 _ (@length N)).
  unfold ltof in IH. intros m. unfold findall.
  destruct (scan_regex_cases s) as [(m0 & rest & E & Hm0 & -> & ->)|[E Hs]].
  - simpl. intros [->|Hin]%elem_of_cons.
    + split; [done|]. by exists [], rest.
    + apply IH in Hin as [Hm (pre & post & ->)].
      * split; [done|]. exists (m0 ++ pre), post. by rewrite <- app_assoc.
      * rewrite length_app. destruct m0; [done|]. simpl. lia.
  - destruct s as [|c s]; rewrite Hs; simpl; [by intros ?%elem_of_nil|].
    intros Hin. apply IH in Hin as [Hm (pre & post & ->)]; [|simpl; lia].
    split; [done|]. by exists (c :: pre), post.
Qed.

Lemma search_infix s : forall m,
  search r s = Some m -> m <> [] /\ exists pre post, s = pre ++ m ++ post.
Proof using r_nonempty.
  induction s as [|c s IH]; intros m; simpl.
  - destruct (rmatch r []) as [[m0 rest]|] eqn:E; [|done].
    intros [= ->]. split; [by eapply rmatch_nonempty|].
    apply rmatch_sound in E. by exists [], rest.
  - destruct (rmatch r (c :: s)) as [[m0 rest]|] eqn:E.
    + intros [= ->]. split; [by eapply rmatch_nonempty|].
      apply rmatch_sound in E. by exists [], rest.
    + intros H. apply IH in H as [Hm (pre & post & ->)].
      split; [done|]. by exists (c :: pre), post.
Qed.

End Hits.

(** ** Occurrences and [str.replace] *)

Lemma occurs_unfold old s :
  occurs old s = starts_with old s || match s with
                                      | [] => false
                                      | _ :: s' => occurs old s'
                                      end.
Proof. by destruct s. Qed.

Lemma occurs_infix old s :
  occurs old s = true <-> exists pre post, s = pre ++ old ++ post.
Proof.
  split.
  - induction s as [|c s IH]; simpl.
    + rewrite orb_false_r. intros H%starts_with_split. by exists [], (drop (length old) []).
    + intros [H|H]%orb_prop.
      * apply starts_with_split in H. by exists [], (drop (length old) (c :: s)).
      * destruct (IH H) as (pre & post & ->). by exists (c :: pre), post.
  - intros (pre & post & ->). induction pre as [|c pre IH]; simpl.
    + by rewrite occurs_unfold, starts_with_app.
    + rewrite IH. apply orb_true_r.
Qed.

Lemma replace_absent a old' new s :
  occurs (a :: old') s = false -> replace (a :: old') new s = s.
Proof.
  induction s as [|c s IH]; [by rewrite replace_nil|].
  cbn [occurs]. intros [H1 H2]%orb_false_elim.
  rewrite replace_keep by done. by rewrite IH.
Qed.

(** The first occurrence is replaced, then the rest of the text is gone
    through likewise. *)
Lemma replace_first a old' new : forall pre post,
  exists pre' post',
    pre ++ (a :: old') ++ post = pre' ++ (a :: old') ++ post' /\
    replace (a :: old') new (pre ++ (a :: old') ++ post)
    = pre' ++ new ++ replace (a :: old') new post'.
Proof.
  induction pre as [|c pre IH]; intros post.
  - exists [], post. split; [done|]. apply replace_hit.
  - destruct (starts_with (a :: old') ((c :: pre) ++ (a :: old') ++ post)) eqn:E.
    + apply starts_with_split in E. rewrite E. eexists [], _.
      split; [done|]. apply replace_hit.
    + destruct (IH post) as (pre' & post' & Heq & Hrep).
      exists (c :: pre'), post'. split; [simpl; by f_equal|].
      change ((c :: pre) ++ (a :: old') ++ post)
        with (c :: (pre ++ (a :: old') ++ post)) in *.
      rewrite replace_keep by done. simpl. by f_equal.
Qed.

Lemma replace_infix old new s pre post :
  old <> [] -> s = pre ++ old ++ post ->
  exists pre' post',
    s = pre' ++ old ++ post' /\
    replace old new s = pre' ++ new ++ replace old new post'.
Proof.
  intros Hne ->. destruct old as [|a old']; [done|]. apply replace_first.
Qed.

(** ** One strategy, in priority order *)

Lemma inject_takes_effect P Q close new c :
  0 < min_len P -> 0 < min_len Q -> close <> [] ->
  takes_effect P Q close new c (inject P Q close new c) (chosen P Q c).
Proof.
  intros HP HQ Hclose. unfold inject, chosen, takes_effect.
  destruct (last (findall P c)) as [anchor|] eqn:E.
  - apply last_Some_elem_of, (hits_infix P HP) in E as Hin.
    destruct Hin as [Hne (pre & post & Hc)].
    destruct (replace_infix anchor (anchor ++ NL :: new) c pre post Hne Hc)
      as (pre' & post' & Hc' & Hrep).
    exists anchor, pre', post'. by rewrite Hrep.
  - apply last_None in E.
    destruct (search Q c) as [anchor|] eqn:Es; (split; [done|]).
    + apply (search_infix Q HQ) in Es as Hin.
      destruct Hin as [Hne (pre & post & Hc)].
      destruct (replace_infix anchor (new ++ NL :: anchor) c pre post Hne Hc)
        as (pre' & post' & Hc' & Hrep).
      exists anchor, pre', post'. by rewrite Hrep.
    + split; [done|]. destruct close as [|a close']; [done|]. split.
      * apply replace_absent.
      * intros (pre & post & Hc)%occurs_infix.
        destruct (replace_infix (a :: close') (new ++ NL :: a :: close') c
                    pre post ltac:(done) Hc) as (pre' & post' & Hc' & Hrep).
        exists pre', post'. by rewrite Hrep.
Qed.

Lemma Printed_inj a b : Printed a = Printed b -> a = b.
Proof. by intros [=]. Qed.

Lemma config_message_inj s s' p q :
  lit "[+] " ++ config_message s p = lit "[+] " ++ config_message s' q -> s = s'.
Proof. destruct s, s'; try done; intros H; vm_compute in H; discriminate H. Qed.

Lemma dump_message_inj s s' p q :
  lit "[+] " ++ dump_message s p = lit "[+] " ++ dump_message s' q -> s = s'.
Proof. destruct s, s'; try done; intros H; vm_compute in H; discriminate H. Qed.

Lemma config_message_ne_dump s s' p q :
  lit "[+] " ++ config_message s p <> lit "[+] " ++ dump_message s' q.
Proof. destruct s, s'; intros H; vm_compute in H; discriminate H. Qed.

Lemma config_message_ne_step s p msg :
  lit "[+] " ++ config_message s p <> lit "[*] " ++ msg.
Proof. destruct s; intros H; vm_compute in H; discriminate H. Qed.

Lemma dump_message_ne_step s p msg :
  lit "[+] " ++ dump_message s p <> lit "[*] " ++ msg.
Proof. destruct s; intros H; vm_compute in H; discriminate H. Qed.

(** X17.  In the integrate step, for each of the two
    files exactly one of the three strategies is taken (its message, and no
    other, is printed), the first in priority order whose anchor is found:
    after the last catalog match if there is one, else before the first
    document match if there is one, else before the container's closing
    tag.  With the first two the new line (for [Configuration.xml]) or block
    (for [ConfigDumpInfo.xml]) is put next to the matched text, there where
    that text first occurs and at each later occurrence of it; with the
    third it is put before the closing tag if that tag, with its
    indentation, occurs, and else the content is left as it is. *)
Theorem integrate_one_strategy uuid4 base clone_name w c b :
  fs w !! config_xml base = Some (File c) ->
  fs w !! config_dump_info base = Some (File b) ->
  exists w' evs c' b' s1 s2,
    integrate_into_config uuid4 base clone_name w = (inr tt, w') /\
    log w' = log w ++ evs /\
    fs w' !! config_xml base = Some (File c') /\
    fs w' !! config_dump_info base = Some (File b') /\
    (forall s, Printed (lit "[+] " ++ config_message s (config_xml base)) ∈ evs
               <-> s = s1) /\
    (forall s, Printed (lit "[+] " ++ dump_message s (config_dump_info base)) ∈ evs
               <-> s = s2) /\
    s1 = chosen catalog_line_pattern document_line_pattern c /\
    s2 = chosen catalog_block_pattern document_block_pattern b /\
    takes_effect catalog_line_pattern document_line_pattern CONFIG_CLOSE
      (new_line clone_name) c c' s1 /\
    takes_effect catalog_block_pattern document_block_pattern DUMP_CLOSE
      (new_block clone_name (uuid4 (drawn w))) b b' s2.
Proof.
  intros Hc Hb.
  eexists _, _, _, _, _, _.
  split; [by apply integrate_into_config_run|].
  split; [reflexivity|]. cbn [fs log].
  split; [rewrite lookup_insert_ne by (symmetry; apply config_xml_ne_dump);
          apply lookup_insert_eq|].
  split; [apply lookup_insert_eq|].
  split; [|split; [|split; [reflexivity|split; [reflexivity|split]]]].
  - intros s. split.
    + intros Hin. repeat (apply elem_of_cons in Hin as [Hin|Hin]);
        try by apply elem_of_nil in Hin.
      * apply Printed_inj in Hin. by apply config_message_ne_step in Hin.
      * apply Printed_inj in Hin. by apply config_message_inj in Hin.
      * discriminate Hin.
      * apply Printed_inj in Hin. by apply config_message_ne_dump in Hin.
      * discriminate Hin.
    + intros ->. right; left.
  - intros s. split.
    + intros Hin. repeat (apply elem_of_cons in Hin as [Hin|Hin]);
        try by apply elem_of_nil in Hin.
      * apply Printed_inj in Hin. by apply dump_message_ne_step in Hin.
      * apply Printed_inj in Hin. symmetry in Hin.
        by apply config_message_ne_dump in Hin.
      * discriminate Hin.
      * apply Printed_inj in Hin. by apply dump_message_inj in Hin.
      * discriminate Hin.
    + intros ->. do 3 right; left.
  - apply inject_takes_effect; [vm_compute; lia | vm_compute; lia | done].
  - apply inject_takes_effect; [vm_compute; lia | vm_compute; lia | done].
Qed.

Lemma integrate_one_strategy_witness :
  exists w' evs c' b' s1 s2,
    integrate_into_config sample_uuid4 sample_base CLONE_NAME sample_world
    = (inr tt, w') /\
    log w' = log sample_world ++ evs /\
    fs w' !! config_xml sample_base = Some (File c') /\
    fs w' !! config_dump_info sample_base = Some (File b') /\
    (forall s, Printed (lit "[+] " ++ config_message s (config_xml sample_base))
               ∈ evs <-> s = s1) /\
    (forall s, Printed (lit "[+] " ++ dump_message s (config_dump_info sample_base))
               ∈ evs <-> s = s2) /\
    s1 = chosen catalog_line_pattern document_line_pattern sample_config /\
    s2 = chosen catalog_block_pattern document_block_pattern sample_dump /\
    takes_effect catalog_line_pattern document_line_pattern CONFIG_CLOSE
      (new_line CLONE_NAME) sample_config c' s1 /\
    takes_effect catalog_block_pattern document_block_pattern DUMP_CLOSE
      (new_block CLONE_NAME (sample_uuid4 (drawn sample_world))) sample_dump b' s2.
Proof.
  apply (integrate_one_strategy sample_uuid4 sample_base CLONE_NAME sample_world
           sample_config sample_dump); vm_compute; reflexivity.
Defined.

(** C6 on an export that lists neither catalog nor document and whose
    container is closed with one tab instead of two: the integrate step
    takes the third strategy and prints [Injected at end of ChildObjects],
    yet no strategy takes effect: [Configuration.xml] is written as it was
    and holds the clone's line nowhere. *)
Lemma no_anchor_no_insertion :
  let r := integrate_into_config sample_uuid4 sample_base CLONE_NAME bare_world in
  r.1 = inr tt /\
  Printed (lit "[+] " ++ config_message AtEndOfChildObjects (config_xml sample_base))
    ∈ log r.2 /\
  fs r.2 !! config_xml sample_base = Some (File bare_config) /\
  occurs (new_line CLONE_NAME) bare_config = false.
Proof.
  cbv zeta. split; [vm_compute; reflexivity|]. split.
  - apply list_elem_of_In. vm_compute. right; left. reflexivity.
  - split; vm_compute; reflexivity.
Qed.

(** ** Patterns that match within a line *)

Lemma map_cons_fst_app_snd c t (l : list (list N * list N)) :
  map (app_snd t) (map (cons_fst c) l) = map (cons_fst c) (map (app_snd t) l).
Proof. rewrite !map_map. by apply map_ext. Qed.

Lemma map_app_fst_app_snd m t (l : list (list N * list N)) :
  map (app_snd t) (map (app_fst m) l) = map (app_fst m) (map (app_snd t) l).
Proof. rewrite !map_map. by apply map_ext. Qed.

Lemma star_ends_nl_local g p l t :
  p NL = false ->
  star_ends g p (l ++ NL :: t) = map (app_snd (NL :: t)) (star_ends g p l).
Proof.
  intros Hp. induction l as [|a l IH]; simpl.
  - by rewrite Hp.
  - destruct (p a); [|done]. destruct g.
    + by rewrite map_app, IH, map_cons_fst_app_snd.
    + simpl. by rewrite IH, map_cons_fst_app_snd.
Qed.

(** What the pattern does on a text is what it does on its first line. *)
Lemma ends_nl_local r : nl_free r = true -> forall l t,
  ends r (l ++ NL :: t) = map (app_snd (NL :: t)) (ends r l).
Proof.
  induction r as [|c|p|r1 IH1 r2 IH2|g p|r1 IH1]; cbn [nl_free ends];
    intros Hr l t.
  - done.
  - apply negb_true_iff in Hr. destruct l as [|a l]; cbn [app map].
    + by rewrite N.eqb_sym, Hr.
    + by destruct (N.eqb a c).
  - apply negb_true_iff in Hr. destruct l as [|a l]; cbn [app map].
    + by rewrite Hr.
    + by destruct (p a).
  - apply andb_prop in Hr as [H1 H2]. rewrite (IH1 H1).
    generalize (ends r1 l). intros xs.
    induction xs as [|x xs IHxs]; simpl; [done|].
    rewrite map_app, IHxs. f_equal.
    by rewrite (IH2 H2), map_app_fst_app_snd.
  - apply negb_true_iff in Hr. by apply star_ends_nl_local.
  - by rewrite map_app, (IH1 Hr).
Qed.

Lemma rmatch_nl_local r l t :
  nl_free r = true ->
  rmatch r (l ++ NL :: t) = app_snd (NL :: t) <$> rmatch r l.
Proof.
  intros Hr. unfold rmatch. rewrite ends_nl_local by done.
  by destruct (ends r l).
Qed.

Lemma star_ends_no_nl g p s x :
  p NL = false -> x ∈ star_ends g p s -> NL ∉ x.1.
Proof.
  intros Hp. revert x. induction s as [|c s IH]; intros x; simpl.
  - intros ->%list_elem_of_singleton. apply not_elem_of_nil.
  - destruct (p c) eqn:Ec; [|intros ->%list_elem_of_singleton; apply not_elem_of_nil].
    assert (Hm : x ∈ map (cons_fst c) (star_ends g p s) -> NL ∉ x.1).
    { intros (y & -> & Hy)%list_elem_of_fmap. simpl.
      apply not_elem_of_cons. split; [|by apply IH].
      intros H. rewrite <- H, Hp in Ec. done. }
    destruct g.
    + intros [H| ->%list_elem_of_singleton]%elem_of_app;
        [by apply Hm | apply not_elem_of_nil].
    + intros [->|H]%elem_of_cons; [apply not_elem_of_nil | by apply Hm].
Qed.

Lemma ends_no_nl r : nl_free r = true -> forall s x, x ∈ ends r s -> NL ∉ x.1.
Proof.
  induction r as [|c|p|r1 IH1 r2 IH2|g p|r1 IH1]; simpl; intros Hr s x.
  - intros ->%list_elem_of_singleton. apply not_elem_of_nil.
  - apply negb_true_iff in Hr. destruct s as [|a s]; [by intros ?%elem_of_nil|].
    destruct (N.eqb_spec a c) as [->|]; [|by intros ?%elem_of_nil].
    intros ->%list_elem_of_singleton. simpl.
    intros H%list_elem_of_singleton. rewrite <- H, N.eqb_refl in Hr. done.
  - apply negb_true_iff in Hr. destruct s as [|a s]; [by intros ?%elem_of_nil|].
    destruct (p a) eqn:Ea; [|by intros ?%elem_of_nil].
    intros ->%list_elem_of_singleton. simpl.
    intros H%list_elem_of_singleton. rewrite <- H, Hr in Ea. done.
  - apply andb_prop in Hr as [H1 H2].
    intros H. apply list_elem_of_In, in_flat_map in H as (y & Hy & H).
    apply list_elem_of_In in Hy, H.
    apply list_elem_of_fmap in H as (z & -> & Hz). simpl.
    intros [Hm|Hm]%elem_of_app;
      [exact (IH1 H1 _ _ Hy Hm) | exact (IH2 H2 _ _ Hz Hm)].
  - apply negb_true_iff in Hr. by apply star_ends_no_nl.
  - intros [H| ->%list_elem_of_singleton]%elem_of_app;
      [by apply (IH1 Hr s) | apply not_elem_of_nil].
Qed.

Lemma rmatch_no_nl r s m rest :
  nl_free r = true -> rmatch r s = Some (m, rest) -> NL ∉ m.
Proof.
  intros Hr H. unfold rmatch in H.
  destruct (ends r s) as [|x xs] eqn:E; [done|]. injection H as ->.
  apply (ends_no_nl r Hr s (m, rest)). rewrite E. left.
Qed.

Section Lines.
Variable r : regex.
Hypothesis r_local : nl_free r = true.
Hypothesis r_nonempty : 0 < min_len r.

(** The scan goes line by line. *)
Lemma scan_nl_local l : forall t,
  scan (rmatch r) (l ++ NL :: t)
  = scan (rmatch r) l ++ Keep NL :: scan (rmatch r) t.
Proof using r_local r_nonempty.
  induction l as [l IH] using (induction_ltof1 _ (@length N)).
  unfold ltof in IH. intros t.
  destruct (scan_regex_cases r r_nonempty l)
    as [(m & rest & E & Hm & -> & ->)|[E Hs]].
  - rewrite <- app_assoc.
    rewrite (scan_hit _ (rmatch_sound r) _ m (rest ++ NL :: t)); [| |done].
    + simpl. f_equal. apply IH. rewrite length_app.
      destruct m; [done|]. simpl. lia.
    + rewrite app_assoc, rmatch_nl_local, E by done. done.
  - destruct l as [|c l]; rewrite Hs.
    + simpl. apply (scan_keep _ (rmatch_sound r)).
      change (NL :: t) with ([] ++ NL :: t).
      by rewrite rmatch_nl_local, E.
    + simpl. rewrite (scan_keep _ (rmatch_sound r)).
      * f_equal. apply IH. simpl. lia.
      * change (c :: l ++ NL :: t) with ((c :: l) ++ NL :: t).
        by rewrite rmatch_nl_local, E.
Qed.

Lemma findall_nl_local l t :
  findall r (l ++ NL :: t) = findall r l ++ findall r t.
Proof using r_local r_nonempty.
  unfold findall. by rewrite scan_nl_local, hits_app.
Qed.

Lemma findall_nil : findall r [] = [].
Proof using r_nonempty.
  unfold findall.
  destruct (scan_regex_cases r r_nonempty [])
    as [(m & rest & E & Hm & Hs & _)|[E ->]]; [|done].
  by destruct m.
Qed.

(** Matches found in a part that is made of whole lines do not depend on
    what is around. *)
Lemma findall_frame pre mid post :
  ends_line pre -> starts_line post ->
  findall r (pre ++ mid ++ post)
  = findall r pre ++ findall r mid ++ findall r post.
Proof using r_local r_nonempty.
  intros Hpre Hpost.
  assert (Hright : findall r (mid ++ post) = findall r mid ++ findall r post).
  { destruct Hpost as [->|[q ->]].
    - by rewrite findall_nil, !app_nil_r.
    - rewrite findall_nl_local.
      change (NL :: q) with ([] ++ NL :: q).
      by rewrite (findall_nl_local []), findall_nil. }
  destruct Hpre as [->|[p ->]].
  - by rewrite findall_nil.
  - rewrite <- !app_assoc. simpl.
    by rewrite !findall_nl_local, findall_nil, app_nil_r, Hright.
Qed.

Lemma findall_no_nl s m : m ∈ findall r s -> NL ∉ m.
Proof using r_local r_nonempty.
  revert m. induction s as [s IH] using (induction_ltof1 _ (@length N)).
  unfold ltof in IH. intros m. unfold findall.
  destruct (scan_regex_cases r r_nonempty s)
    as [(m0 & rest & E & Hm0 & -> & ->)|[E Hs]].
  - simpl. intros [->|Hin]%elem_of_cons.
    + by eapply rmatch_no_nl.
    + apply IH in Hin; [done|]. rewrite length_app.
      destruct m0; [done|]. simpl. lia.
  - destruct s as [|c s]; rewrite Hs; simpl; [by intros ?%elem_of_nil|].
    intros Hin. apply IH in Hin; [done|]. simpl. lia.
Qed.

End Lines.

(** ** What a pattern does on a text cut short *)

Lemma within_cons_fst n c x :
  within (S n) (cons_fst c x) = cons_fst c <$> within n x.
Proof.
  unfold within, cons_fst. simpl.
  destruct (decide (length x.1 <= n)), (decide (S (length x.1) <= S n));
    try lia; done.
Qed.

Lemma within_0_cons_fst c x : within 0 (cons_fst c x) = None.
Proof.
  unfold within, cons_fst. simpl.
  destruct (decide (S (length x.1) <= 0)); [lia|done].
Qed.

Lemma omap_cons_eq {A B} (f : A -> option B) a l :
  omap f (a :: l) = match f a with
                    | Some y => y :: omap f l
                    | None => omap f l
                    end.
Proof. reflexivity. Qed.

Lemma omap_within_cons_fst n c (xs : list (list N * list N)) :
  omap (within (S n)) (map (cons_fst c) xs)
  = map (cons_fst c) (omap (within n) xs).
Proof.
  induction xs as [|x xs IH]; [done|].
  cbn [map]. rewrite !omap_cons_eq, within_cons_fst, IH.
  by destruct (within n x).
Qed.

Lemma omap_within_0_cons_fst c (xs : list (list N * list N)) :
  omap (within 0) (map (cons_fst c) xs) = [].
Proof.
  induction xs as [|x xs IH]; [done|].
  cbn [map]. by rewrite omap_cons_eq, within_0_cons_fst.
Qed.

Lemma omap_within_app_fst n m (ys : list (list N * list N)) :
  length m <= n ->
  omap (within n) (map (app_fst m) ys)
  = map (app_fst m) (omap (within (n - length m)) ys).
Proof.
  intros Hm. induction ys as [|y ys IH]; [done|].
  cbn [map]. rewrite !omap_cons_eq, IH.
  unfold within, app_fst. cbn [fst snd]. rewrite length_app.
  destruct (decide (length m + length y.1 <= n)),
           (decide (length y.1 <= n - length m)); try lia; [|done].
  cbn [map fst snd]. do 3 f_equal. lia.
Qed.

Lemma omap_within_app_fst_long n m (ys : list (list N * list N)) :
  n < length m -> omap (within n) (map (app_fst m) ys) = [].
Proof.
  intros Hm. induction ys as [|y ys IH]; [done|].
  cbn [map]. rewrite omap_cons_eq, IH.
  unfold within, app_fst. cbn [fst snd]. rewrite length_app.
  destruct (decide (length m + length y.1 <= n)); [lia|done].
Qed.

Lemma within_whole n (s t : list N) :
  n = length s -> within n ([], s ++ t) = Some ([], s).
Proof.
  intros ->. unfold within. simpl.
  destruct (decide (0 <= length s)); [|lia].
  by rewrite Nat.sub_0_r, take_app_length.
Qed.

Lemma omap_within_whole (s t : list N) :
  omap (within (length s)) [([], s ++ t)] = [([], s)].
Proof. by rewrite omap_cons_eq, within_whole. Qed.

Lemma star_ends_within g p s t :
  star_ends g p s = omap (within (length s)) (star_ends g p (s ++ t)).
Proof.
  induction s as [|a s IH].
  - destruct t as [|c t]; [done|]. cbn [app star_ends length].
    destruct (p c); [|done]. destruct g.
    + by rewrite omap_app, omap_within_0_cons_fst.
    + by rewrite omap_cons_eq, omap_within_0_cons_fst.
  - cbn [app star_ends length]. destruct (p a).
    + destruct g.
      * rewrite omap_app, omap_within_cons_fst, <- IH.
        change (a :: s ++ t) with ((a :: s) ++ t).
        change (S (length s)) with (length (a :: s)).
        by rewrite omap_within_whole.
      * change (a :: s ++ t) with ((a :: s) ++ t).
        change (S (length s)) with (length (a :: s)).
        rewrite omap_cons_eq, within_whole by done.
        change (length (a :: s)) with (S (length s)).
        by rewrite omap_within_cons_fst, <- IH.
    + change (a :: s ++ t) with ((a :: s) ++ t).
      change (S (length s)) with (length (a :: s)).
      by rewrite omap_within_whole.
Qed.

Lemma within_char a (s t : list N) :
  within (S (length s)) ([a], s ++ t) = Some ([a], s).
Proof.
  unfold within. cbn [fst snd length].
  destruct (decide (1 <= S (length s))); [|lia].
  by rewrite Nat.sub_succ, Nat.sub_0_r, take_app_length.
Qed.

(** The ways a pattern matches within [s] are those ways it matches within
    [s ++ t] that do not go beyond [s], in the same order. *)
Lemma ends_within r : forall s t,
  ends r s = omap (within (length s)) (ends r (s ++ t)).
Proof.
  induction r as [|c|p|r1 IH1 r2 IH2|g p|r1 IH1]; intros s t; cbn [ends].
  - by rewrite omap_within_whole.
  - destruct s as [|a s]; cbn [app length].
    + destruct t as [|b t]; [done|]. by destruct (N.eqb b c).
    + destruct (N.eqb a c); [|done]. by rewrite omap_cons_eq, within_char.
  - destruct s as [|a s]; cbn [app length].
    + destruct t as [|b t]; [done|]. by destruct (p b).
    + destruct (p a); [|done]. by rewrite omap_cons_eq, within_char.
  - rewrite (IH1 s t).
    assert (Hs : forall x, x ∈ ends r1 (s ++ t) -> s ++ t = x.1 ++ x.2)
      by apply ends_sound.
    induction (ends r1 (s ++ t)) as [|x xs IHxs]; [done|].
    cbn [flat_map]. rewrite omap_app, omap_cons_eq.
    rewrite <- IHxs by (intros y Hy; apply Hs; by right).
    specialize (Hs x ltac:(left)).
    unfold within at 1. destruct (decide (length x.1 <= length s)) as [Hle|Hgt].
    + cbn [flat_map fst snd]. f_equal.
      rewrite omap_within_app_fst by done. f_equal.
      assert (Hx2 : x.2 = drop (length x.1) s ++ t).
      { apply (f_equal (drop (length x.1))) in Hs.
        rewrite drop_app_length, drop_app_le in Hs by done. done. }
      rewrite Hx2, take_app_length' by (rewrite length_drop; lia).
      rewrite (IH2 (drop (length x.1) s) t), length_drop. done.
    + rewrite omap_within_app_fst_long by lia. done.
  - apply star_ends_within.
  - by rewrite omap_app, <- IH1, omap_within_whole.
Qed.

(** A match that stops where the text is cut is still the match. *)
Lemma rmatch_cut r m t :
  rmatch r (m ++ t) = Some (m, t) -> rmatch r m = Some (m, []).
Proof.
  unfold rmatch. rewrite (ends_within r m t).
  destruct (ends r (m ++ t)) as [|x xs]; [done|]. simpl. intros [= ->].
  unfold within. simpl. destruct (decide (length m <= length m)); [|lia].
  by rewrite Nat.sub_diag, take_0.
Qed.

(** ** Unfolding stars and literals *)

Lemma ends_lits_then l r s :
  ends (Cat (Lits l) r) s
  = if starts_with l s then map (app_fst l) (ends r (drop (length l) s)) else [].
Proof.
  cbn [ends]. rewrite ends_Lits. destruct (starts_with l s); [|done].
  cbn [flat_map fst snd]. by rewrite app_nil_r.
Qed.

Lemma ends_lits_eps l s :
  ends (Cat (Lits l) Eps) s
  = if starts_with l s then [(l, drop (length l) s)] else [].
Proof.
  rewrite ends_lits_then. destruct (starts_with l s); [|done].
  cbn [ends map]. unfold app_fst. cbn [fst snd]. by rewrite app_nil_r.
Qed.

Lemma flat_map_cons_fst c (f : list N * list N -> list (list N * list N))
    (g : list N * list N -> list (list N * list N)) xs :
  (forall x, f (cons_fst c x) = map (cons_fst c) (g x)) ->
  flat_map f (map (cons_fst c) xs) = map (cons_fst c) (flat_map g xs).
Proof.
  intros H. induction xs as [|x xs IH]; [done|].
  cbn [map flat_map]. by rewrite map_app, H, IH.
Qed.

Lemma map_app_fst_cons c m (xs : list (list N * list N)) :
  map (app_fst (c :: m)) xs = map (cons_fst c) (map (app_fst m) xs).
Proof. rewrite map_map. by apply map_ext. Qed.

Lemma map_app_fst_nil (xs : list (list N * list N)) : map (app_fst []) xs = xs.
Proof. rewrite <- (map_id xs) at 2. apply map_ext. by intros []. Qed.

Lemma ends_star_then g p r s :
  ends (Cat (Star g p) r) s
  = match s with
    | c :: s' =>
        if p c then
          if g then map (cons_fst c) (ends (Cat (Star g p) r) s') ++ ends r s
          else ends r s ++ map (cons_fst c) (ends (Cat (Star g p) r) s')
        else ends r s
    | [] => ends r s
    end.
Proof.
  assert (Hstep : forall c xs,
    flat_map (fun x => map (app_fst x.1) (ends r x.2)) (map (cons_fst c) xs)
    = map (cons_fst c) (flat_map (fun x => map (app_fst x.1) (ends r x.2)) xs)).
  { intros c xs. apply flat_map_cons_fst. intros x. cbn [cons_fst fst snd].
    apply map_app_fst_cons. }
  destruct s as [|c s]; cbn [ends star_ends flat_map fst snd].
  - by rewrite map_app_fst_nil, app_nil_r.
  - destruct (p c); [destruct g|]; cbn [flat_map fst snd].
    + by rewrite flat_map_app, Hstep; cbn [flat_map fst snd];
        rewrite map_app_fst_nil, app_nil_r.
    + by rewrite Hstep, map_app_fst_nil.
    + by rewrite map_app_fst_nil, app_nil_r.
Qed.

Lemma dot_true c : c <> NL -> dot c = true.
Proof. intros H. unfold dot. by apply negb_true_iff, N.eqb_neq. Qed.

Lemma occurs_cons_false old c s :
  occurs old (c :: s) = false ->
  starts_with old (c :: s) = false /\ occurs old s = false.
Proof. cbn [occurs]. by intros [? ?]%orb_false_elim. Qed.

Lemma occurs_drop old s k : occurs old s = false -> occurs old (drop k s) = false.
Proof.
  revert s. induction k as [|k IH]; intros s H; [by rewrite drop_0|].
  destruct s as [|c s]; [done|]. apply occurs_cons_false in H as [_ H].
  by apply IH.
Qed.

Lemma occurs_app_r old s t : occurs old (s ++ t) = false -> occurs old t = false.
Proof.
  intros H. rewrite <- (drop_app_length s t). by apply occurs_drop.
Qed.

Lemma not_in_drop (x : N) s k : x ∉ s -> x ∉ drop k s.
Proof.
  intros H Hin. apply H. rewrite <- (take_drop k s). apply elem_of_app. by right.
Qed.

Lemma starts_with_head_ne (old : list N) c s :
  old <> [] -> head old <> Some c -> starts_with old (c :: s) = false.
Proof.
  destruct old as [|a old']; [done|]. intros _ H. cbn [starts_with].
  destruct (N.eqb_spec a c) as [->|]; done.
Qed.

Lemma starts_with_nil_r old : old <> [] -> starts_with old [] = false.
Proof. by destruct old. Qed.

(** ** Lines that hold an opening and a closing tag *)

Section TaggedLine.
Variables op cl : list N.
Hypothesis cl_nonempty : cl <> [].

Local Abbreviation R2 := (tail_pattern cl).
Local Abbreviation Q1 := (tagged_pattern op cl).
Local Abbreviation P := (line_pattern op cl).

Lemma ends_tail_cons c s :
  c <> NL ->
  ends R2 (c :: s)
  = map (cons_fst c) (ends R2 s)
    ++ (if starts_with cl (c :: s) then [(cl, drop (length cl) (c :: s))] else []).
Proof.
  intros Hc. unfold tail_pattern at 1.
  by rewrite ends_star_then, dot_true, ends_lits_eps.
Qed.

Lemma ends_tail_nil : ends R2 [] = [].
Proof using cl_nonempty.
  unfold tail_pattern. rewrite ends_star_then, ends_lits_eps.
  by rewrite starts_with_nil_r.
Qed.

Lemma ends_tail_none s : occurs cl s = false -> ends R2 s = [].
Proof using cl_nonempty.
  induction s as [|c s IH]; intros H; [apply ends_tail_nil|].
  apply occurs_cons_false in H as [H1 H2].
  unfold tail_pattern. rewrite ends_star_then. fold (tail_pattern cl).
  rewrite ends_lits_eps, H1, IH by done. by destruct (dot c).
Qed.

Lemma ends_tail_none_inv s : NL ∉ s -> ends R2 s = [] -> occurs cl s = false.
Proof using cl_nonempty.
  induction s as [|c s IH]; intros Hs H.
  - cbn [occurs]. by rewrite starts_with_nil_r.
  - apply not_elem_of_cons in Hs as [Hc Hs].
    rewrite ends_tail_cons in H by done.
    apply app_eq_nil in H as [H1 H2]. apply map_eq_nil in H1.
    cbn [occurs]. rewrite (IH Hs H1).
    by destruct (starts_with cl (c :: s)).
Qed.

(** The closing tag taken is the last of the line. *)
Lemma rmatch_tail_last s m r :
  NL ∉ s -> rmatch R2 s = Some (m, r) -> occurs cl r = false.
Proof using cl_nonempty.
  revert m. induction s as [|c s IH]; intros m Hs; unfold rmatch.
  - by rewrite ends_tail_nil.
  - apply not_elem_of_cons in Hs as [Hc Hs].
    rewrite ends_tail_cons by done.
    destruct (ends R2 s) as [|[m' r'] xs] eqn:E.
    + cbn [map app]. destruct (starts_with cl (c :: s)); [|done].
      intros [= <- <-]. apply (ends_tail_none_inv s Hs) in E.
      destruct cl as [|a cl']; [done|]. cbn [length drop].
      by apply occurs_drop.
    + cbn [map app head]. intros [= <- <-].
      apply (IH m' Hs). unfold rmatch. by rewrite E.
Qed.

Lemma rmatch_tail_some b r :
  NL ∉ b -> NL ∉ cl ->
  occurs cl (tail (cl ++ r)) = false ->
  rmatch R2 (b ++ cl ++ r) = Some (b ++ cl, r).
Proof using cl_nonempty.
  intros Hb Hcl Hr. induction b as [|c b IH].
  - assert (exists a cl', cl = a :: cl') as (a & cl' & Ecl)
      by (destruct cl; [done|eauto]).
    assert (Ha : a <> NL) by (intros ->; apply Hcl; rewrite Ecl; left).
    replace (tail (cl ++ r)) with (cl' ++ r) in Hr by (by rewrite Ecl).
    cbn [app]. unfold rmatch.
    replace (cl ++ r) with (a :: (cl' ++ r)) by (by rewrite Ecl).
    rewrite ends_tail_cons by done.
    rewrite (ends_tail_none _ Hr). cbn [map app].
    replace (a :: (cl' ++ r)) with (cl ++ r) by (by rewrite Ecl).
    by rewrite starts_with_app, drop_app_length.
  - apply not_elem_of_cons in Hb as [Hc Hb]. specialize (IH Hb).
    unfold rmatch in *. cbn [app]. rewrite ends_tail_cons by done.
    destruct (ends R2 (b ++ cl ++ r)) as [|x xs]; [done|].
    cbn [head] in IH. injection IH as ->. done.
Qed.

Lemma ends_tagged s :
  ends Q1 s
  = if starts_with op s then map (app_fst op) (ends R2 (drop (length op) s))
    else [].
Proof. apply ends_lits_then. Qed.

Lemma ends_line_unfold s :
  ends P s = ends Q1 s ++ match s with
                          | c :: s' => if dot c then map (cons_fst c) (ends P s')
                                       else []
                          | [] => []
                          end.
Proof.
  unfold line_pattern at 1. rewrite ends_star_then. fold (line_pattern op cl).
  destruct s as [|c s]; [by rewrite app_nil_r|].
  destruct (dot c); [done | by rewrite app_nil_r].
Qed.

Lemma ends_tagged_none s : occurs cl s = false -> ends Q1 s = [].
Proof using cl_nonempty.
  intros H. rewrite ends_tagged. destruct (starts_with op s); [|done].
  by rewrite ends_tail_none by (by apply occurs_drop).
Qed.

Lemma ends_line_none s : occurs cl s = false -> ends P s = [].
Proof using cl_nonempty.
  induction s as [|c s IH]; intros H; rewrite ends_line_unfold,
    ends_tagged_none by done; [done|].
  apply occurs_cons_false in H as [_ H]. rewrite IH by done.
  by destruct (dot c).
Qed.

(** Nothing after a match, on the same line, holds a closing tag. *)
Lemma rmatch_line_last s m r :
  NL ∉ s -> rmatch P s = Some (m, r) -> occurs cl r = false.
Proof using cl_nonempty.
  revert m. induction s as [|c s IH]; intros m Hs; unfold rmatch;
    rewrite ends_line_unfold, ends_tagged.
  - rewrite drop_nil, ends_tail_nil. by destruct (starts_with op []).
  - apply not_elem_of_cons in Hs as [Hc Hs]. rewrite dot_true by done.
    destruct (starts_with op (c :: s)) eqn:Eop.
    + destruct (ends R2 (drop (length op) (c :: s))) as [|[m' r'] xs] eqn:E.
      * cbn [map app]. destruct (ends P s) as [|[m' r'] xs] eqn:E'; [done|].
        cbn [map head]. intros [= <- <-]. apply (IH m' Hs).
        unfold rmatch. by rewrite E'.
      * cbn [map app head]. intros [= <- <-].
        apply (rmatch_tail_last (drop (length op) (c :: s)) m').
        -- apply not_in_drop. by apply not_elem_of_cons.
        -- unfold rmatch. by rewrite E.
    + cbn [app]. destruct (ends P s) as [|[m' r'] xs] eqn:E'; [done|].
      cbn [map head]. intros [= <- <-]. apply (IH m' Hs).
      unfold rmatch. by rewrite E'.
Qed.

Lemma rmatch_line_none_tail c s :
  c <> NL -> rmatch P (c :: s) = None -> rmatch P s = None.
Proof.
  intros Hc. unfold rmatch. rewrite (ends_line_unfold (c :: s)), dot_true by done.
  destruct (ends Q1 (c :: s)); [|done]. cbn [app].
  by destruct (ends P s).
Qed.

Lemma findall_line_none s :
  NL ∉ s -> rmatch P s = None -> findall P s = [].
Proof.
  unfold findall. induction s as [|c s IH]; intros Hs H.
  - by rewrite scan_nil_none.
  - apply not_elem_of_cons in Hs as [Hc Hs].
    rewrite (scan_keep _ (rmatch_sound _)) by done. rewrite hits_keep.
    apply IH; [done|]. by apply (rmatch_line_none_tail c).
Qed.

Lemma findall_no_close s : NL ∉ s -> occurs cl s = false -> findall P s = [].
Proof using cl_nonempty.
  intros Hs H. apply findall_line_none; [done|].
  unfold rmatch. by rewrite ends_line_none.
Qed.

Lemma min_len_line : 0 < min_len P.
Proof using cl_nonempty.
  unfold line_pattern, tagged_pattern, tail_pattern. cbn [min_len].
  destruct cl as [|a cl']; [done|]. cbn [Lits foldr min_len]. lia.
Qed.

(** A line holds at most one match, at its start. *)
Lemma findall_line_some s m r :
  NL ∉ s -> rmatch P s = Some (m, r) -> findall P s = [m].
Proof using cl_nonempty.
  intros Hs H. unfold findall.
  rewrite (scan_hit _ (rmatch_sound _) _ _ _ H)
    by (by eapply rmatch_nonempty; [apply min_len_line|]).
  rewrite hits_hit. f_equal.
  apply (findall_no_close r).
  - apply (rmatch_sound P) in H. subst s. intros Hin. apply Hs.
    apply elem_of_app. by right.
  - by apply (rmatch_line_last s m).
Qed.

(** The match of a line made of an indentation, the opening tag, a body
    and the closing tag, followed by text without a closing tag. *)
Lemma rmatch_line_built ind body r :
  (forall c, c ∈ ind -> c <> NL /\ head op <> Some c) ->
  op <> [] ->
  NL ∉ body -> NL ∉ cl ->
  occurs cl (tail (cl ++ r)) = false ->
  rmatch P (ind ++ op ++ body ++ cl ++ r) = Some (ind ++ op ++ body ++ cl, r).
Proof using cl_nonempty.
  intros Hind Hop Hbody Hcl Hr. induction ind as [|c ind IH].
  - cbn [app]. unfold rmatch. rewrite ends_line_unfold, ends_tagged.
    rewrite starts_with_app, drop_app_length.
    pose proof (rmatch_tail_some body r Hbody Hcl Hr) as Ht.
    unfold rmatch in Ht.
    destruct (ends R2 (body ++ cl ++ r)) as [|x xs]; [done|].
    injection Ht as ->. cbn [map app head]. unfold app_fst. cbn [fst snd].
    by rewrite <- ?app_assoc.
  - destruct (Hind c ltac:(left)) as [Hc Hsw].
    unfold rmatch. cbn [app]. rewrite ends_line_unfold, ends_tagged.
    assert (Hno : starts_with op (c :: ind ++ op ++ body ++ cl ++ r) = false).
    { by apply starts_with_head_ne. }
    rewrite Hno, dot_true by done. cbn [app].
    assert (IH' := IH ltac:(intros; apply Hind; by right)).
    unfold rmatch in IH'.
    destruct (ends P (ind ++ op ++ body ++ cl ++ r)) as [|x xs]; [done|].
    injection IH' as ->. done.
Qed.

End TaggedLine.

(** ** Cutting a text at its lines *)

Lemma split_last_line (pre : list N) :
  exists pre0 h, pre = pre0 ++ h /\ (NL ∉ h) /\ ends_line pre0.
Proof.
  induction pre as [|x pre IH] using rev_ind.
  - exists [], []. repeat split; [apply not_elem_of_nil | by left].
  - destruct (decide (x = NL)) as [->|Hx].
    + exists (pre ++ [NL]), []. rewrite app_nil_r.
      repeat split; [apply not_elem_of_nil | right; by exists pre].
    + destruct IH as (pre0 & h & -> & Hh & Hpre0).
      exists pre0, (h ++ [x]). rewrite app_assoc. repeat split; [|done].
      intros [?|H%list_elem_of_singleton]%elem_of_app; [done|congruence].
Qed.

Lemma split_first_line (post : list N) :
  exists t post0, post = t ++ post0 /\ (NL ∉ t) /\ starts_line post0.
Proof.
  induction post as [|x post IH].
  - exists [], []. repeat split; [apply not_elem_of_nil | by left].
  - destruct (decide (x = NL)) as [->|Hx].
    + exists [], (NL :: post).
      repeat split; [apply not_elem_of_nil | right; by exists post].
    + destruct IH as (t & post0 & -> & Ht & Hpost0).
      exists (x :: t), post0. repeat split; [|done].
      apply not_elem_of_cons. split; [done|done].
Qed.

(** ** A text that occurs once *)

Lemma occurs_once_not_later old c pre x y :
  old <> [] -> occurs_once old c -> c = pre ++ old ++ x ++ old ++ y -> False.
Proof.
  intros Hne Honce Hc.
  assert (Heq : pre = pre ++ old ++ x).
  { apply (Honce pre (x ++ old ++ y) (pre ++ old ++ x) y); [done|].
    by rewrite <- !app_assoc. }
  apply (f_equal length) in Heq. rewrite !length_app in Heq.
  destruct old; [done|]. simpl in Heq. lia.
Qed.

Lemma replace_once old new c pre post :
  old <> [] -> occurs_once old c -> c = pre ++ old ++ post ->
  replace old new c = pre ++ new ++ post.
Proof.
  intros Hne Honce Hc.
  destruct (replace_infix old new c pre post Hne Hc)
    as (pre' & post' & Hc' & ->).
  assert (pre' = pre) as -> by (by apply (Honce pre' post' pre post)).
  assert (post' = post) as ->.
  { rewrite Hc in Hc'. by apply app_inv_head, app_inv_head in Hc'. }
  do 2 f_equal. destruct old as [|a old']; [done|].
  apply replace_absent. destruct (occurs (a :: old') post) eqn:E; [|done].
  apply occurs_infix in E as (x & y & ->).
  exfalso. by apply (occurs_once_not_later (a :: old') c pre x y).
Qed.

Lemma occurs_skip (old : list N) pre s :
  old <> [] -> (forall x, x ∈ pre -> head old <> Some x) ->
  occurs old (pre ++ s) = occurs old s.
Proof.
  intros Hne H. induction pre as [|x pre IH]; [done|].
  cbn [app occurs]. rewrite starts_with_head_ne by (done || apply H; left).
  apply IH. intros y Hy. apply H. by right.
Qed.

(** ** The catalog lines of [Configuration.xml] *)

Lemma catalog_line_pattern_eq :
  catalog_line_pattern = line_pattern O_CATALOG C_CATALOG.
Proof. reflexivity. Qed.

Lemma catalog_close_tail r :
  occurs C_CATALOG r = false -> occurs C_CATALOG (tail (C_CATALOG ++ r)) = false.
Proof.
  intros H. change (tail (C_CATALOG ++ r)) with (drop 1 C_CATALOG ++ r).
  rewrite occurs_skip; [done|done|].
  intros x Hx. vm_compute in Hx.
  repeat (apply elem_of_cons in Hx as [->|Hx]; [done|]).
  by apply elem_of_nil in Hx.
Qed.

Lemma new_line_no_nl clone_name : NL ∉ clone_name -> NL ∉ ref_name clone_name.
Proof.
  intros H. unfold ref_name.
  intros [Hin|[Hin|Hin]%elem_of_app]%elem_of_app; [| |done];
    vm_compute in Hin;
    repeat (apply elem_of_cons in Hin as [Hin|Hin]; [discriminate Hin|]);
    by apply elem_of_nil in Hin.
Qed.

Section CatalogLines.
Variable clone_name : list N.
Hypothesis clone_no_nl : NL ∉ clone_name.

Local Abbreviation P := catalog_line_pattern.
Local Abbreviation X := (new_line clone_name).

Lemma catalog_line_local : nl_free P = true.
Proof. reflexivity. Qed.

Lemma catalog_line_nonempty : 0 < min_len P.
Proof. vm_compute. lia. Qed.

Lemma rmatch_new_line r :
  occurs C_CATALOG r = false -> rmatch P (X ++ r) = Some (X, r).
Proof using clone_no_nl.
  intros Hr. rewrite catalog_line_pattern_eq. unfold new_line.
  rewrite <- !app_assoc.
  rewrite (rmatch_line_built O_CATALOG C_CATALOG ltac:(done) [TAB; TAB; TAB]
             (ref_name clone_name) r); [done| | done | | |].
  - intros c Hc.
    repeat (apply elem_of_cons in Hc as [->|Hc]; [done|]).
    by apply elem_of_nil in Hc.
  - by apply new_line_no_nl.
  - intros Hin. vm_compute in Hin.
    repeat (apply elem_of_cons in Hin as [Hin|Hin]; [discriminate Hin|]).
    by apply elem_of_nil in Hin.
  - by apply catalog_close_tail.
Qed.

Lemma new_line_text_no_nl : NL ∉ X.
Proof using clone_no_nl.
  unfold new_line.
  intros [Hin|[Hin|[Hin|Hin]%elem_of_app]%elem_of_app]%elem_of_app.
  - repeat (apply elem_of_cons in Hin as [Hin|Hin]; [discriminate Hin|]).
    by apply elem_of_nil in Hin.
  - vm_compute in Hin.
    repeat (apply elem_of_cons in Hin as [Hin|Hin]; [discriminate Hin|]).
    by apply elem_of_nil in Hin.
  - by apply new_line_no_nl in Hin.
  - vm_compute in Hin.
    repeat (apply elem_of_cons in Hin as [Hin|Hin]; [discriminate Hin|]).
    by apply elem_of_nil in Hin.
Qed.

(** Where the last match stands: at the start of its line, with no further
    match after it. *)
Lemma last_catalog_line c L :
  last (findall P c) = Some L -> occurs_once L c ->
  exists pre0 r post0,
    c = pre0 ++ L ++ r ++ post0 /\
    ends_line pre0 /\ starts_line post0 /\ (NL ∉ L) /\ (NL ∉ r) /\ L <> [] /\
    rmatch P (L ++ r) = Some (L, r) /\
    findall P c = findall P pre0 ++ [L] /\
    findall P post0 = [].
Proof.
  intros Hlast Honce.
  pose proof (last_Some_elem_of _ _ Hlast) as Hin.
  pose proof (findall_no_nl P catalog_line_local catalog_line_nonempty c L Hin) as HL.
  apply (hits_infix P catalog_line_nonempty) in Hin as [Hne (pre & post & Hc)].
  destruct (split_last_line pre) as (pre0 & h & -> & Hh & Hpre0).
  destruct (split_first_line post) as (t & post0 & -> & Ht & Hpost0).
  assert (Hc' : c = pre0 ++ (h ++ L ++ t) ++ post0)
    by (by rewrite Hc, <- !app_assoc).
  pose proof (findall_frame P catalog_line_local catalog_line_nonempty pre0 (h ++ L ++ t) post0
                Hpre0 Hpost0) as Hfr.
  rewrite <- Hc' in Hfr.
  assert (Hline : NL ∉ h ++ L ++ t).
  { intros [?|[?|?]%elem_of_app]%elem_of_app; done. }
  (* no match after the line *)
  assert (HB : findall P post0 = []).
  { destruct (findall P post0) as [|b B] eqn:EB; [done|]. exfalso.
    assert (HinB : L ∈ findall P post0).
    { rewrite EB. apply last_Some_elem_of.
      rewrite Hfr, !last_app in Hlast. rewrite <- Hlast.
      by destruct (last (b :: B)) eqn:E; [|apply last_None in E]. }
    apply (hits_infix P catalog_line_nonempty) in HinB as [_ (x & y & Hpost)].
    apply (occurs_once_not_later L c (pre0 ++ h) (t ++ x) y Hne Honce).
    rewrite Hc, Hpost. by rewrite <- !app_assoc. }
  rewrite HB, app_nil_r in Hfr.
  rewrite catalog_line_pattern_eq in *.
  destruct (rmatch (line_pattern O_CATALOG C_CATALOG) (h ++ L ++ t))
    as [[m r]|] eqn:Em.
  - rewrite (findall_line_some O_CATALOG C_CATALOG ltac:(done) _ m r Hline Em)
      in Hfr.
    rewrite Hfr, last_snoc in Hlast. injection Hlast as ->.
    pose proof (rmatch_sound _ _ _ _ Em) as Hsplit.
    assert (Hh0 : pre0 = pre0 ++ h).
    { apply (Honce pre0 (r ++ post0) (pre0 ++ h) (t ++ post0)).
      - by rewrite Hc', Hsplit, <- !app_assoc.
      - by rewrite Hc, <- !app_assoc. }
    rewrite <- (app_nil_r pre0) in Hh0 at 1. apply app_inv_head in Hh0.
    subst h. cbn [app] in *. apply app_inv_head in Hsplit. subst t.
    exists pre0, r, post0. by rewrite app_nil_r in *.
  - exfalso.
    rewrite (findall_line_none O_CATALOG C_CATALOG _ Hline Em), app_nil_r in Hfr.
    assert (HinA : L ∈ findall (line_pattern O_CATALOG C_CATALOG) pre0)
      by (rewrite <- Hfr; by apply last_Some_elem_of).
    apply (hits_infix _ catalog_line_nonempty) in HinA as [_ (x & y & Hpre)].
    apply (occurs_once_not_later L c x (y ++ h) (t ++ post0) Hne Honce).
    rewrite Hc, Hpre. by rewrite <- !app_assoc.
Qed.

(** The text after the step, and the matches found in it. *)
Lemma config_injected_after_last c L :
  last (findall P c) = Some L -> occurs_once L c ->
  exists pre post,
    c = pre ++ L ++ post /\
    config_injected clone_name c = pre ++ L ++ NL :: X ++ post /\
    findall P (config_injected clone_name c) = findall P c ++ [X].
Proof using clone_no_nl.
  intros Hlast Honce.
  destruct (last_catalog_line c L Hlast Honce)
    as (pre0 & r & post0 & Hc & Hpre0 & Hpost0 & HL & Hr & Hne & Hm & Hall & HB).
  exists pre0, (r ++ post0). split; [done|].
  assert (Hinj : config_injected clone_name c
                 = pre0 ++ L ++ NL :: X ++ r ++ post0).
  { unfold config_injected, inject. rewrite Hlast.
    rewrite (replace_once L _ c pre0 (r ++ post0) Hne Honce Hc).
    by rewrite <- app_assoc. }
  split; [done|]. rewrite Hinj, Hall.
  replace (pre0 ++ L ++ NL :: X ++ r ++ post0)
    with (pre0 ++ (L ++ NL :: X ++ r) ++ post0)
    by (rewrite <- !app_assoc; cbn [app]; by rewrite <- ?app_assoc).
  rewrite (findall_frame P catalog_line_local catalog_line_nonempty) by done.
  rewrite HB, app_nil_r, (findall_nl_local P catalog_line_local catalog_line_nonempty).
  pose proof (rmatch_cut _ _ _ Hm) as HmL.
  rewrite catalog_line_pattern_eq in *.
  rewrite (findall_line_some O_CATALOG C_CATALOG ltac:(done) L L [] HL HmL).
  assert (Hr' : occurs C_CATALOG r = false).
  { apply (rmatch_line_last O_CATALOG C_CATALOG ltac:(done) (L ++ r) L r);
      [|done].
    intros [?|?]%elem_of_app; done. }
  rewrite (findall_line_some O_CATALOG C_CATALOG ltac:(done) (X ++ r) X r).
  - by rewrite <- app_assoc.
  - intros [?%new_line_text_no_nl|?]%elem_of_app; done.
  - rewrite <- catalog_line_pattern_eq. by apply rmatch_new_line.
Qed.

End CatalogLines.

(** ** Counting the places of a text *)

Lemma occurrences_infix old c p q :
  c = p ++ old ++ q -> 1 <= occurrences old c.
Proof.
  revert c. induction p as [|x p IH]; intros c ->.
  - cbn [app]. destruct (old ++ q) eqn:E; cbn [occurrences];
      rewrite <- E, starts_with_app; lia.
  - cbn [app occurrences]. specialize (IH _ eq_refl). lia.
Qed.

Lemma occurrences_once old c : occurrences old c <= 1 -> occurs_once old c.
Proof.
  induction c as [|x c IH]; intros Hn p1 q1 p2 q2 H1 H2.
  - destruct p1, p2; try done.
  - cbn [occurrences] in Hn.
    destruct p1 as [|x1 p1], p2 as [|x2 p2]; [done| | |].
    + exfalso. cbn [app] in H1, H2. rewrite H1 in Hn at 1.
      rewrite starts_with_app in Hn. injection H2 as _ H2.
      apply occurrences_infix in H2. lia.
    + exfalso. cbn [app] in H1, H2. rewrite H2 in Hn at 1.
      rewrite starts_with_app in Hn. injection H1 as _ H1.
      apply occurrences_infix in H1. lia.
    + cbn [app] in H1, H2. injection H1 as <- H1. injection H2 as <- H2.
      f_equal. apply (IH ltac:(lia) p1 q1 p2 q2 H1 H2).
Qed.

(** ** C4 *)

Lemma config_injected_at_line clone_name c L :
  NL ∉ clone_name ->
  last (findall catalog_line_pattern c) = Some L -> occurs_once L c ->
  exists pre rest post,
    c = pre ++ L ++ rest ++ post /\
    config_injected clone_name c
    = pre ++ L ++ NL :: new_line clone_name ++ rest ++ post /\
    ends_line pre /\ (NL ∉ L) /\ (NL ∉ rest) /\ starts_line post /\
    findall catalog_line_pattern (config_injected clone_name c)
    = findall catalog_line_pattern c ++ [new_line clone_name].
Proof.
  intros Hnl Hlast Honce.
  destruct (last_catalog_line c L Hlast Honce)
    as (pre0 & r & post0 & Hc & Hpre0 & Hpost0 & HL & Hr & Hne & Hm & Hall & HB).
  destruct (config_injected_after_last clone_name Hnl c L Hlast Honce)
    as (pre & post & Hsplit & Hinj & Hfind).
  assert (pre = pre0) as ->
    by apply (Honce pre post pre0 (r ++ post0) Hsplit Hc).
  assert (post = r ++ post0) as ->.
  { rewrite Hc in Hsplit. apply app_inv_head, app_inv_head in Hsplit.
    by symmetry. }
  by exists pre0, r, post0.
Qed.

(** C4. For every [Configuration.xml] that holds N >= 1 matches of the
    catalog-reference pattern, the text of the last one occurring at one
    place only (each catalog reference is listed once), the integrate step
    writes the file with the new reference line immediately after the
    previously last match, behind a newline, and the file then holds N + 1
    matches: the N former ones, then the new line.  The previously last
    match starts at the beginning of its line; whatever followed it on that
    line follows the new line.  (The clone name holds no newline.) *)
Theorem catalog_line_added uuid4 base clone_name w c b L :
  fs w !! config_xml base = Some (File c) ->
  fs w !! config_dump_info base = Some (File b) ->
  NL ∉ clone_name ->
  last (findall catalog_line_pattern c) = Some L ->
  occurrences L c = 1 ->
  exists w' c' pre rest post,
    integrate_into_config uuid4 base clone_name w = (inr tt, w') /\
    fs w' !! config_xml base = Some (File c') /\
    c = pre ++ L ++ rest ++ post /\
    c' = pre ++ L ++ NL :: new_line clone_name ++ rest ++ post /\
    ends_line pre /\ (NL ∉ L) /\ (NL ∉ rest) /\ starts_line post /\
    findall catalog_line_pattern c'
    = findall catalog_line_pattern c ++ [new_line clone_name] /\
    length (findall catalog_line_pattern c')
    = S (length (findall catalog_line_pattern c)).
Proof.
  intros Hc Hb Hnl Hlast Hone.
  assert (Honce : occurs_once L c) by (apply occurrences_once; lia).
  destruct (config_injected_at_line clone_name c L Hnl Hlast Honce)
    as (pre & rest & post & Hsplit & Hinj & Hpre & HL & Hrest & Hpost & Hall).
  eexists _, (config_injected clone_name c), pre, rest, post.
  split; [by apply integrate_into_config_run|]. cbn [fs].
  split; [rewrite lookup_insert_ne by (symmetry; apply config_xml_ne_dump);
          apply lookup_insert_eq|].
  split; [done|]. split; [done|]. split; [done|]. split; [done|].
  split; [done|]. split; [done|]. split; [done|].
  rewrite Hall, length_app. cbn [length]. lia.
Qed.

Lemma catalog_line_added_witness :
  exists w' c' pre rest post,
    integrate_into_config sample_uuid4 sample_base CLONE_NAME sample_world
    = (inr tt, w') /\
    fs w' !! config_xml sample_base = Some (File c') /\
    sample_config
    = pre ++ (TAB :: TAB :: TAB :: lit "<cfg:Catalog>Catalog." ++ DONOR_NAME
                ++ lit "</cfg:Catalog>") ++ rest ++ post /\
    c' = pre ++ (TAB :: TAB :: TAB :: lit "<cfg:Catalog>Catalog." ++ DONOR_NAME
                   ++ lit "</cfg:Catalog>")
             ++ NL :: new_line CLONE_NAME ++ rest ++ post /\
    ends_line pre /\
    (NL ∉ TAB :: TAB :: TAB :: lit "<cfg:Catalog>Catalog." ++ DONOR_NAME
            ++ lit "</cfg:Catalog>") /\
    (NL ∉ rest) /\ starts_line post /\
    findall catalog_line_pattern c'
    = findall catalog_line_pattern sample_config ++ [new_line CLONE_NAME] /\
    length (findall catalog_line_pattern c')
    = S (length (findall catalog_line_pattern sample_config)).
Proof.
  apply (catalog_line_added sample_uuid4 sample_base CLONE_NAME sample_world
           sample_config sample_dump).
  - vm_compute; reflexivity.
  - vm_compute; reflexivity.
  - intros Hin. vm_compute in Hin.
    repeat (apply elem_of_cons in Hin as [Hin|Hin]; [discriminate Hin|]).
    by apply elem_of_nil in Hin.
  - vm_compute; reflexivity.
  - vm_compute; reflexivity.
Defined.

(** Outside that case: on a file that lists the same catalog line twice
    (which the data model excludes), [str.replace] rewrites every
    occurrence of the last match, so from two catalog lines the step makes
    four. *)
Lemma duplicate_catalog_line_doubled :
  let r := integrate_into_config sample_uuid4 sample_base CLONE_NAME dup_world in
  r.1 = inr tt /\
  length (findall catalog_line_pattern dup_config) = 2 /\
  exists c', fs r.2 !! config_xml sample_base = Some (File c') /\
             length (findall catalog_line_pattern c') = 4.
Proof.
  cbv zeta. split; [vm_compute; reflexivity|].
  split; [vm_compute; reflexivity|].
  eexists. split; vm_compute; reflexivity.
Qed.

(** ** The cleanup pattern of [Configuration.xml], line by line *)

Lemma starts_with_line (x b e : list N) :
  NL ∉ x -> starts_line e -> starts_with x (b ++ e) = starts_with x b.
Proof.
  intros Hx He. revert x Hx.
  induction b as [|c b IH]; intros [|a x] Hx; try reflexivity.
  - cbn [app]. destruct He as [->|[q ->]]; [done|].
    rewrite starts_with_cons_ne; [done|].
    intros ->. apply Hx. left.
  - cbn [app]. rewrite !starts_with_cons. f_equal. apply IH.
    intros H. apply Hx. by right.
Qed.

Lemma starts_with_app_l (a b s : list N) :
  starts_with (a ++ b) s = starts_with a s && starts_with b (drop (length a) s).
Proof.
  revert s. induction a as [|x a IH]; intros s; [done|].
  destruct s as [|c s]; [done|].
  cbn [app length drop]. rewrite !starts_with_cons, IH. by rewrite andb_assoc.
Qed.

Lemma map_app_fst_app (a b : list N) (xs : list (list N * list N)) :
  map (app_fst a) (map (app_fst b) xs) = map (app_fst (a ++ b)) xs.
Proof.
  rewrite map_map. apply map_ext. intros [m r]. unfold app_fst. cbn.
  by rewrite app_assoc.
Qed.

Lemma ends_lits_app a b r s :
  ends (Cat (Lits a) (Cat (Lits b) r)) s = ends (Cat (Lits (a ++ b)) r) s.
Proof.
  rewrite (ends_lits_then a), (ends_lits_then b), (ends_lits_then (a ++ b)).
  rewrite starts_with_app_l, length_app, drop_drop.
  destruct (starts_with a s); [|done]. cbn [andb].
  destruct (starts_with b (drop (length a) s)); [|done].
  apply map_app_fst_app.
Qed.

Lemma ends_lits3 a b c r s :
  ends (Cat (Lits a) (Cat (Lits b) (Cat (Lits c) r))) s
  = if starts_with (a ++ b ++ c) s
    then map (app_fst (a ++ b ++ c)) (ends r (drop (length (a ++ b ++ c)) s))
    else [].
Proof.
  rewrite <- ends_lits_then, <- ends_lits_app.
  rewrite (ends_lits_then a), (ends_lits_then a).
  destruct (starts_with a s); [|done]. f_equal. apply ends_lits_app.
Qed.


Lemma lines_ind (Q : list N -> Prop) :
  (forall l, NL ∉ l -> Q l) ->
  (forall l rest, NL ∉ l -> Q rest -> Q (l ++ NL :: rest)) ->
  forall s, Q s.
Proof.
  intros H0 H1 s.
  induction s as [s IH] using (induction_ltof1 _ (@length N)). unfold ltof in IH.
  destruct (split_first_line s) as (t & post0 & -> & Ht & [->|[q ->]]).
  - rewrite app_nil_r. by apply H0.
  - apply H1; [done|]. apply IH. rewrite length_app. cbn [length]. lia.
Qed.

Lemma scan_skip_suffix (mt : matcher) pre s :
  sound mt ->
  (forall a b, pre = a ++ b -> b <> [] -> mt (b ++ s) = None) ->
  scan mt (pre ++ s) = map Keep pre ++ scan mt s.
Proof.
  intros Hs. induction pre as [|c pre IH]; intros H; [done|].
  cbn [app map]. rewrite scan_keep; [|done|by apply (H [] (c :: pre))].
  f_equal. apply IH. intros a b -> Hb. by apply (H (c :: a) b).
Qed.

Section TraceLine.
Variable ref : list N.
Hypothesis ref_no_nl : NL ∉ ref.

Local Abbreviation K2 := (Cat (Star true dot) (Cat (Opt (Chr NL)) Eps)).
Local Abbreviation MK :=
  (Cat (Lits O_CATALOG) (Cat (Lits ref) (Cat (Lits C_CATALOG) K2))).
Local Abbreviation T := (config_trace_pattern ref).
Local Abbreviation X := (O_CATALOG ++ ref ++ C_CATALOG).

Lemma trace_unfold : T = Cat (Star true dot) MK.
Proof. reflexivity. Qed.

Lemma marker_no_nl : NL ∉ X.
Proof using ref_no_nl.
  intros [Hin|[Hin|Hin]%elem_of_app]%elem_of_app; [| done |];
    vm_compute in Hin;
    repeat (apply elem_of_cons in Hin as [Hin|Hin]; [discriminate Hin|]);
    by apply elem_of_nil in Hin.
Qed.

Lemma marker_nonempty : X <> [].
Proof. done. Qed.

Lemma rmatch_rest_of_line t e :
  NL ∉ t -> starts_line e ->
  rmatch K2 (t ++ e) = Some (t ++ take 1 e, drop 1 e).
Proof.
  intros Ht He. unfold rmatch. induction t as [|c t IH].
  - destruct He as [->|[q ->]]; reflexivity.
  - apply not_elem_of_cons in Ht as [Hc Ht]. specialize (IH Ht).
    cbn [app]. rewrite ends_star_then, dot_true by done.
    destruct (ends K2 (t ++ e)) as [|x xs]; [done|].
    cbn [head] in IH. injection IH as ->. reflexivity.
Qed.

Lemma ends_mark s :
  ends MK s = if starts_with X s
              then map (app_fst X) (ends K2 (drop (length X) s))
              else [].
Proof. apply ends_lits3. Qed.

Lemma ends_trace_start e : starts_line e -> ends T e = [].
Proof using ref_no_nl.
  intros He. rewrite trace_unfold, ends_star_then.
  assert (Hm : ends MK e = []).
  { rewrite ends_mark.
    rewrite <- (app_nil_l e), (starts_with_line X [] e marker_no_nl He).
    by rewrite starts_with_nil_r. }
  destruct He as [->|[q ->]]; [done|].
  by change (dot NL) with false.
Qed.

Lemma ends_trace_none l e :
  NL ∉ l -> starts_line e -> occurs X l = false -> ends T (l ++ e) = [].
Proof using ref_no_nl.
  intros Hl He. induction l as [|c l IH]; intros Ho.
  - by apply ends_trace_start.
  - apply not_elem_of_cons in Hl as [Hc Hl].
    apply occurs_cons_false in Ho as [Hs Ho].
    cbn [app]. rewrite trace_unfold, ends_star_then, dot_true by done.
    rewrite <- trace_unfold, (IH Hl Ho). cbn [map app].
    rewrite ends_mark.
    change (c :: l ++ e) with ((c :: l) ++ e).
    by rewrite (starts_with_line X (c :: l) e marker_no_nl He), Hs.
Qed.

Lemma rmatch_trace_none l e :
  NL ∉ l -> starts_line e -> occurs X l = false -> rmatch T (l ++ e) = None.
Proof using ref_no_nl.
  intros Hl He Ho. unfold rmatch. by rewrite ends_trace_none.
Qed.

Lemma rmatch_trace_some l e :
  NL ∉ l -> starts_line e -> occurs X l = true ->
  rmatch T (l ++ e) = Some (l ++ take 1 e, drop 1 e).
Proof using ref_no_nl.
  intros Hl He. induction l as [|c l IH]; intros Ho.
  - by rewrite occurs_unfold, starts_with_nil_r in Ho.
  - apply not_elem_of_cons in Hl as [Hc Hl].
    unfold rmatch. cbn [app].
    rewrite trace_unfold, ends_star_then, dot_true by done.
    rewrite <- trace_unfold.
    destruct (occurs X l) eqn:El.
    + specialize (IH Hl eq_refl). unfold rmatch in IH.
      destruct (ends T (l ++ e)) as [|x xs]; [done|].
      cbn [head] in IH. injection IH as ->. reflexivity.
    + rewrite (ends_trace_none l e Hl He El). cbn [map app].
      rewrite occurs_unfold, El, orb_false_r in Ho.
      pose proof (starts_with_split _ _ Ho) as Hsplit.
      set (t := drop (length X) (c :: l)) in Hsplit.
      assert (Ht : NL ∉ t).
      { apply not_in_drop. by apply not_elem_of_cons. }
      change (c :: l ++ e) with ((c :: l) ++ e). rewrite Hsplit.
      rewrite <- app_assoc, ends_mark, starts_with_app, drop_app_length.
      pose proof (rmatch_rest_of_line t e Ht He) as Hk. unfold rmatch in Hk.
      destruct (ends K2 (t ++ e)) as [|x xs]; [done|].
      cbn [head] in Hk. injection Hk as ->.
      cbn [map head]. unfold app_fst. cbn [fst snd].
      change (c :: l ++ take 1 e) with ((c :: l) ++ take 1 e).
      by rewrite Hsplit, app_assoc.
Qed.

Lemma sub_line_keep l e :
  NL ∉ l -> starts_line e -> occurs X l = false ->
  sub T [] (l ++ e) = l ++ take 1 e ++ sub T [] (drop 1 e).
Proof using ref_no_nl.
  intros Hl He Ho. unfold sub.
  rewrite scan_skip_suffix; [|apply rmatch_sound|].
  - rewrite fill_app, fill_keeps. f_equal.
    destruct He as [->|[q ->]].
    + cbn [take drop app]. rewrite scan_nil_none; [done|].
      rewrite <- (app_nil_l []).
      apply rmatch_trace_none; [apply not_elem_of_nil|by left|].
      by rewrite occurs_unfold, starts_with_nil_r.
    + rewrite scan_keep; [done|apply rmatch_sound|].
      rewrite <- (app_nil_l (NL :: q)).
      apply rmatch_trace_none; [apply not_elem_of_nil|right; by exists q|done].
  - intros a b -> _. apply rmatch_trace_none; [|done|].
    + intros H. apply Hl. apply elem_of_app. by right.
    + by apply occurs_app_r in Ho.
Qed.

Lemma sub_line_hit l e :
  NL ∉ l -> starts_line e -> occurs X l = true ->
  sub T [] (l ++ e) = sub T [] (drop 1 e).
Proof using ref_no_nl.
  intros Hl He Ho. unfold sub.
  rewrite (scan_hit _ (rmatch_sound T) _ _ _ (rmatch_trace_some l e Hl He Ho)).
  - reflexivity.
  - destruct l; [|done]. by rewrite occurs_unfold, starts_with_nil_r in Ho.
Qed.

Lemma sub_line_nl l rest :
  NL ∉ l ->
  sub T [] (l ++ NL :: rest)
  = (if occurs X l then [] else l ++ [NL]) ++ sub T [] rest.
Proof using ref_no_nl.
  intros Hl.
  assert (He : starts_line (NL :: rest)) by (right; by exists rest).
  destruct (occurs X l) eqn:Ho.
  - by rewrite sub_line_hit.
  - rewrite sub_line_keep by done. cbn [take drop]. by rewrite <- app_assoc.
Qed.

Lemma sub_line_end l :
  NL ∉ l -> sub T [] l = if occurs X l then [] else l.
Proof using ref_no_nl.
  intros Hl.
  assert (He : starts_line []) by (by left).
  assert (Hnil : sub T [] [] = []).
  { unfold sub. rewrite scan_nil_none; [done|].
    rewrite <- (app_nil_l []).
    apply rmatch_trace_none; [apply not_elem_of_nil|done|].
    by rewrite occurs_unfold, starts_with_nil_r. }
  rewrite <- (app_nil_r l) at 1.
  destruct (occurs X l) eqn:Ho.
  - rewrite sub_line_hit by done. exact Hnil.
  - rewrite sub_line_keep by done. cbn [take drop app].
    by rewrite Hnil, app_nil_r.
Qed.

Lemma sub_trace_nil : sub T [] [] = [].
Proof using ref_no_nl.
  rewrite sub_line_end by apply not_elem_of_nil.
  by rewrite occurs_unfold, starts_with_nil_r.
Qed.

(** Cleaning a clean text changes nothing. *)
Lemma sub_trace_idem s : sub T [] (sub T [] s) = sub T [] s.
Proof using ref_no_nl.
  induction s as [l Hl|l rest Hl IH] using lines_ind.
  - rewrite (sub_line_end l Hl). destruct (occurs X l) eqn:Ho.
    + apply sub_trace_nil.
    + by rewrite (sub_line_end l Hl), Ho.
  - rewrite (sub_line_nl l rest Hl). destruct (occurs X l) eqn:Ho.
    + exact IH.
    + rewrite <- app_assoc. cbn [app].
      by rewrite (sub_line_nl l _ Hl), Ho, IH, <- app_assoc.
Qed.


End TraceLine.

(** ** Two runs *)



Lemma unlink_fs_lookup p m : unlink_fs p m !! p = None.
Proof.
  unfold unlink_fs. destruct (m !! p) eqn:E; [apply lookup_delete_eq | done].
Qed.

(** One run of the three steps on an export that has its two index files
    and the donor file. *)
Lemma run_steps_once uuid4 base donor_name clone_name w c b d :
  donor_name <> clone_name ->
  SLASH ∉ donor_name -> SLASH ∉ clone_name ->
  fs w !! config_xml base = Some (File c) ->
  fs w !! config_dump_info base = Some (File b) ->
  fs w !! catalog_file base donor_name = Some (File d) ->
  fs w !! catalog_file base clone_name <> Some Dir ->
  exists w',
    run_steps uuid4 base donor_name clone_name w = (inr tt, w') /\
    fs w' !! config_xml base
    = Some (File (config_injected clone_name
                    (sub (config_trace_pattern (ref_name clone_name)) [] c))) /\
    fs w' !! config_dump_info base
    = Some (File (dump_injected clone_name
                    (uuid4 (drawn w + length (findall uuid_pattern
                                         (rename donor_name clone_name d))))
                    (sub (dump_trace_pattern (ref_name clone_name)) [] b))) /\
    fs w' !! catalog_file base donor_name = Some (File d) /\
    fs w' !! catalog_file base clone_name
    = Some (File (clone_text uuid4 donor_name clone_name (drawn w) d)) /\
    drawn w' = S (drawn w + length (findall uuid_pattern
                                      (rename donor_name clone_name d))).
Proof.
  intros Hne Hd Hcl Hc Hb Hdon Hclone.
  pose proof (catalog_file_ne_config base clone_name Hcl) as N1.
  pose proof (catalog_file_ne_dump base clone_name Hcl) as N2.
  pose proof (catalog_file_ne_config base donor_name Hd) as N3.
  pose proof (catalog_file_ne_dump base donor_name Hd) as N4.
  pose proof (config_xml_ne_dump base) as N5.
  assert (N6 : catalog_file base clone_name <> catalog_file base donor_name).
  { intros E. apply catalog_file_inj in E; [|done..]. by symmetry in E. }
  pose proof (remove_existing_traces_run base clone_name w) as Hrun.
  cbv zeta in Hrun.
  unfold run_steps. rewrite bind_run, Hrun by (rewrite ?Hc, ?Hb; done).
  clear Hrun.
  set (m3 := unlink_fs _ _).
  assert (L1 : m3 !! config_xml base
               = Some (File (sub (config_trace_pattern (ref_name clone_name))
                               [] c))).
  { unfold m3. rewrite unlink_fs_lookup_ne, clean_fs_lookup_ne by done.
    by apply clean_fs_lookup_file. }
  assert (L2 : m3 !! config_dump_info base
               = Some (File (sub (dump_trace_pattern (ref_name clone_name))
                               [] b))).
  { unfold m3. rewrite unlink_fs_lookup_ne by done.
    apply clean_fs_lookup_file. by rewrite clean_fs_lookup_ne. }
  assert (L3 : m3 !! catalog_file base donor_name = Some (File d)).
  { unfold m3. by rewrite unlink_fs_lookup_ne, !clean_fs_lookup_ne. }
  assert (L4 : m3 !! catalog_file base clone_name = None)
    by apply unlink_fs_lookup.
  rewrite bind_run, (clone_and_regenerate_run uuid4 base donor_name clone_name _ d)
    by (cbn [fs]; rewrite ?L3, ?L4; done).
  cbn [fs drawn log].
  erewrite integrate_into_config_run;
    [|cbn [fs]; rewrite lookup_insert_ne by done; exact L1
     |cbn [fs]; rewrite lookup_insert_ne by done; exact L2].
  eexists. split; [reflexivity|]. cbn [fs drawn log].
  split; [rewrite lookup_insert_ne by done; apply lookup_insert_eq|].
  split; [apply lookup_insert_eq|].
  split; [by rewrite !lookup_insert_ne|].
  split; [|done].
  rewrite !lookup_insert_ne by done. apply lookup_insert_eq.
Qed.

(** ** A second run *)



(** ** C3 *)

(** C3 on the sample export, with a generator that returns the same
    identifier every time, so that the identifier of the inserted block
    makes no difference.  Both runs end with status 0.  After the first run
    [ConfigDumpInfo.xml] lists the donor's block, the clone's and the
    document's; after the second the donor's block is gone and the
    document's block has lost its indentation to the clone's: the cleanup
    of the second run removed everything from the first [<xr:Metadata>]
    through the clone's block.  Likewise on the export that lists a document
    and no catalog: the first run appends the clone's line to the line of
    the container's opening tag, and the cleanup of the second run removes
    that line, opening tag included, from [Configuration.xml]. *)
Lemma second_run_differs :
  let w1 := (main constant_uuid4 sample_world).2 in
  let w2 := (main constant_uuid4 w1).2 in
  let d1 := (main constant_uuid4 doc_export).2 in
  let d2 := (main constant_uuid4 d1).2 in
  (main constant_uuid4 sample_world).1 = 0%N /\
  (main constant_uuid4 w1).1 = 0%N /\
  fs w1 !! config_dump_info sample_base
  = Some (File (lines [HEADER; DONOR_BLOCK;
                       new_block CLONE_NAME (constant_uuid4 0);
                       ORDER_BLOCK; DUMP_CLOSE])) /\
  fs w2 !! config_dump_info sample_base
  = Some (File (lines [HEADER;
                       TAB :: TAB :: new_block CLONE_NAME (constant_uuid4 0);
                       drop 2 ORDER_BLOCK; DUMP_CLOSE])) /\
  (main constant_uuid4 doc_export).1 = 0%N /\
  (main constant_uuid4 d1).1 = 0%N /\
  fs d1 !! config_xml sample_base
  = Some (File ((TAB :: TAB :: lit "<cfg:ChildObjects>") ++ new_line CLONE_NAME
                ++ NL :: NL
                :: lines [TAB :: TAB :: TAB
                            :: lit "<cfg:Document>Document.Order</cfg:Document>";
                          TAB :: TAB :: lit "</cfg:ChildObjects>"])) /\
  fs d2 !! config_xml sample_base
  = Some (File (new_line CLONE_NAME
                ++ NL :: NL
                :: lines [TAB :: TAB :: TAB
                            :: lit "<cfg:Document>Document.Order</cfg:Document>";
                          TAB :: TAB :: lit "</cfg:ChildObjects>"])).
Proof. cbv zeta. repeat split; vm_compute; reflexivity. Qed.

(** ** The script as a whole *)

Lemma script_body_run uuid4 w :
  script_body uuid4 w
  = match fs w !! config_xml (config_root w) with
    | None => (inl (FileNotFoundError (lit "Config files not found.")), w)
    | Some _ =>
        (run_steps uuid4 (config_root w) DONOR_NAME CLONE_NAME ;;
         emit (Printed SUCCESS_LINE)) w
    end.
Proof.
  unfold script_body, config_root, config_xml.
  rewrite bind_run. unfold path_isdir at 1.
  destruct (fs w !! path_join PROJECT_BASE_PATH CONFIG_DIR) as [[c|]|] eqn:E;
    cbn [negb]; rewrite bind_run; unfold path_exists at 1;
    (destruct (fs w !! path_join _ (lit "Configuration.xml")) eqn:E';
     cbn [negb]; rewrite bind_run; [reflexivity|reflexivity]).
Qed.

Lemma names_differ : DONOR_NAME <> CLONE_NAME.
Proof. discriminate. Qed.

Lemma donor_name_no_slash : SLASH ∉ DONOR_NAME.
Proof. solve_notin. Qed.

Lemma clone_name_no_slash : SLASH ∉ CLONE_NAME.
Proof. solve_notin. Qed.

Lemma clone_name_no_nl : NL ∉ CLONE_NAME.
Proof. solve_notin. Qed.

(** X1. When the working directory holds no [Configuration.xml], the script
    ends with status 1 before doing anything: no file is changed, no
    identifier is generated, and all it prints is the error
    [Config files not found.] and the trace. *)
Theorem missing_config_root_fails uuid4 w :
  fs w !! config_xml (config_root w) = None ->
  main uuid4 w
  = (1%N, World (fs w) (drawn w)
            (log w ++ [PrintedErr (lit "[!] " ++ lit "A critical error occurred: "
                                   ++ lit "Config files not found.");
                       Traceback])).
Proof.
  intros H. unfold main. rewrite script_body_run, H.
  unfold print_error. rewrite bind_run. unfold emit. cbn [fs drawn log exn_str].
  by rewrite <- app_assoc.
Qed.

Lemma missing_config_root_fails_witness :
  main sample_uuid4 empty_world
  = (1%N, World (fs empty_world) (drawn empty_world)
            (log empty_world
             ++ [PrintedErr (lit "[!] " ++ lit "A critical error occurred: "
                             ++ lit "Config files not found.");
                 Traceback])).
Proof.
  apply (missing_config_root_fails sample_uuid4 empty_world).
  vm_compute; reflexivity.
Defined.

(** X2. On an export that has its two index files and the donor's file in
    the working directory (the clone's path not being a directory), the
    script ends with status 0; the last thing it prints is the success line;
    [Configuration.xml] holds its cleaned text with the clone's line
    injected, [ConfigDumpInfo.xml] its cleaned text with a block carrying
    the identifier generated last, the clone's file the renamed and
    renumbered donor text, and the donor's file is as it was. *)
Theorem main_succeeds uuid4 w c b d :
  fs w !! config_xml (config_root w) = Some (File c) ->
  fs w !! config_dump_info (config_root w) = Some (File b) ->
  fs w !! catalog_file (config_root w) DONOR_NAME = Some (File d) ->
  fs w !! catalog_file (config_root w) CLONE_NAME <> Some Dir ->
  exists w',
    main uuid4 w = (0%N, w') /\
    last (log w') = Some (Printed SUCCESS_LINE) /\
    fs w' !! config_xml (config_root w)
    = Some (File (config_injected CLONE_NAME
                    (sub (config_trace_pattern (ref_name CLONE_NAME)) [] c))) /\
    fs w' !! config_dump_info (config_root w)
    = Some (File (dump_injected CLONE_NAME
                    (uuid4 (drawn w + length (findall uuid_pattern
                                         (rename DONOR_NAME CLONE_NAME d))))
                    (sub (dump_trace_pattern (ref_name CLONE_NAME)) [] b))) /\
    fs w' !! catalog_file (config_root w) CLONE_NAME
    = Some (File (clone_text uuid4 DONOR_NAME CLONE_NAME (drawn w) d)) /\
    fs w' !! catalog_file (config_root w) DONOR_NAME = Some (File d) /\
    drawn w' = S (drawn w + length (findall uuid_pattern
                                      (rename DONOR_NAME CLONE_NAME d))).
Proof.
  intros Hc Hb Hd Hcl.
  destruct (run_steps_once uuid4 (config_root w) DONOR_NAME CLONE_NAME w c b d
              names_differ donor_name_no_slash clone_name_no_slash
              Hc Hb Hd Hcl)
    as (w1 & Hrun & Hc1 & Hb1 & Hd1 & Hcl1 & Hn1).
  unfold main. rewrite script_body_run, Hc, bind_run, Hrun.
  unfold emit. eexists. split; [reflexivity|]. cbn [fs drawn log].
  split; [apply last_snoc|]. done.
Qed.

Lemma main_succeeds_witness :
  exists w',
    main sample_uuid4 sample_world = (0%N, w') /\
    last (log w') = Some (Printed SUCCESS_LINE) /\
    fs w' !! config_xml (config_root sample_world)
    = Some (File (config_injected CLONE_NAME
                    (sub (config_trace_pattern (ref_name CLONE_NAME)) []
                       sample_config))) /\
    fs w' !! config_dump_info (config_root sample_world)
    = Some (File (dump_injected CLONE_NAME
                    (sample_uuid4
                       (drawn sample_world
                        + length (findall uuid_pattern
                                    (rename DONOR_NAME CLONE_NAME sample_donor))))
                    (sub (dump_trace_pattern (ref_name CLONE_NAME)) []
                       sample_dump))) /\
    fs w' !! catalog_file (config_root sample_world) CLONE_NAME
    = Some (File (clone_text sample_uuid4 DONOR_NAME CLONE_NAME
                    (drawn sample_world) sample_donor)) /\
    fs w' !! catalog_file (config_root sample_world) DONOR_NAME
    = Some (File sample_donor) /\
    drawn w' = S (drawn sample_world
                  + length (findall uuid_pattern
                              (rename DONOR_NAME CLONE_NAME sample_donor))).
Proof.
  apply (main_succeeds sample_uuid4 sample_world sample_config sample_dump
           sample_donor).
  - vm_compute; reflexivity.
  - vm_compute; reflexivity.
  - vm_compute; reflexivity.
  - vm_compute; discriminate.
Defined.

(** ** What a run leaves alone *)

(** X3. Whatever the state of the directory and however the run ends, the
    script changes nothing but [Configuration.xml], [ConfigDumpInfo.xml] and
    the clone's definition file of its working directory: any other path
    holds afterwards what it held before, and is neither written nor
    removed. *)
Theorem main_touches_three_paths uuid4 w p :
  p ∉ run_paths (config_root w) ->
  fs (main uuid4 w).2 !! p = fs w !! p /\
  exists evs, log (main uuid4 w).2 = log w ++ evs /\
              forall e, e ∈ evs -> subject e <> Some p.
Proof.
  intros Hp. unfold main. rewrite script_body_run.
  destruct (fs w !! config_xml (config_root w)) as [x|] eqn:Ex.
  - rewrite bind_run.
    destruct (confined_run_steps uuid4 (config_root w) DONOR_NAME CLONE_NAME w)
      as [Hfs (evs & Hlog & Hevs)].
    destruct (run_steps uuid4 (config_root w) DONOR_NAME CLONE_NAME w)
      as [[e|[]] w1] eqn:E; cbn [snd] in Hfs, Hlog.
    + unfold print_error. rewrite bind_run. unfold emit. cbn [snd fs log].
      split; [by apply Hfs|].
      exists (evs ++ [PrintedErr (lit "[!] " ++ lit "A critical error occurred: "
                                  ++ exn_str e); Traceback]).
      split; [by rewrite Hlog, <- !app_assoc|].
      intros ev [Hev|Hev]%elem_of_app Hs.
      * apply Hp. by apply (Hevs ev p).
      * apply elem_of_cons in Hev as [->|Hev]; [done|].
        apply list_elem_of_singleton in Hev as ->. done.
    + unfold emit. cbn [snd fs log].
      split; [by apply Hfs|].
      exists (evs ++ [Printed SUCCESS_LINE]).
      split; [by rewrite Hlog, <- !app_assoc|].
      intros ev [Hev|Hev]%elem_of_app Hs.
      * apply Hp. by apply (Hevs ev p).
      * apply list_elem_of_singleton in Hev as ->. done.
  - unfold print_error. rewrite bind_run. unfold emit. cbn [snd fs log].
    split; [done|].
    eexists. split; [by rewrite <- app_assoc|].
    intros ev Hev Hs.
    apply elem_of_cons in Hev as [->|Hev]; [done|].
    apply list_elem_of_singleton in Hev as ->. done.
Qed.

Lemma main_touches_three_paths_witness :
  fs (main sample_uuid4 sample_world).2 !! catalog_file sample_base DONOR_NAME
  = fs sample_world !! catalog_file sample_base DONOR_NAME /\
  exists evs,
    log (main sample_uuid4 sample_world).2 = log sample_world ++ evs /\
    forall e, e ∈ evs -> subject e <> Some (catalog_file sample_base DONOR_NAME).
Proof.
  apply (main_touches_three_paths sample_uuid4 sample_world
           (catalog_file sample_base DONOR_NAME)).
  solve_notin.
Defined.

(** X4. Each step keeps to its own files, whatever the state of the
    directory and whether or not it fails: the cleanup changes, writes or
    removes nothing but the two index files and the clone's file, the clone
    step nothing but the clone's file, the integrate step nothing but the
    two index files. *)
Theorem steps_keep_to_their_files uuid4 base donor_name clone_name :
  confined [config_xml base; config_dump_info base;
            catalog_file base clone_name]
    (remove_existing_traces base clone_name) /\
  confined [catalog_file base clone_name]
    (clone_and_regenerate uuid4 base donor_name clone_name) /\
  confined [config_xml base; config_dump_info base]
    (integrate_into_config uuid4 base clone_name).
Proof.
  split; [apply confined_remove_existing_traces|].
  split; [apply confined_clone_and_regenerate
         |apply confined_integrate_into_config].
Qed.

(** ** A missing index file *)

Lemma read_file_missing p w :
  fs w !! p = None ->
  read_file p w
  = (inl (FileNotFoundError
            (errno_msg (lit "[Errno 2] No such file or directory") p)), w).
Proof. intros H. unfold read_file. by rewrite H. Qed.

(** X5. Without [Configuration.xml] the integrate step raises the
    file-not-found error of the read right after announcing itself: nothing
    is written and no identifier is generated. *)
Theorem integrate_without_config uuid4 base clone_name w :
  fs w !! config_xml base = None ->
  integrate_into_config uuid4 base clone_name w
  = (inl (FileNotFoundError
            (errno_msg (lit "[Errno 2] No such file or directory")
               (config_xml base))),
     World (fs w) (drawn w)
       (log w ++ [Printed (lit "[*] " ++ lit "Integrating clone into configuration topology via robust text insertion...")])).
Proof.
  intros Hc. destruct w as [f n l]. cbn [fs drawn log] in *.
  unfold integrate_into_config.
  fold (config_xml base).
  rewrite bind_run. msimpl.
  by rewrite bind_run, read_file_missing by done.
Qed.

Lemma integrate_without_config_witness :
  integrate_into_config sample_uuid4 sample_base CLONE_NAME empty_world
  = (inl (FileNotFoundError
            (errno_msg (lit "[Errno 2] No such file or directory")
               (config_xml sample_base))),
     World (fs empty_world) (drawn empty_world)
       (log empty_world ++ [Printed (lit "[*] " ++ lit "Integrating clone into configuration topology via robust text insertion...")])).
Proof.
  apply (integrate_without_config sample_uuid4 sample_base CLONE_NAME
           empty_world).
  vm_compute; reflexivity.
Defined.

(** The integrate step up to the read that fails. *)
Lemma integrate_dump_missing_run uuid4 base clone_name w c :
  fs w !! config_xml base = Some (File c) ->
  fs w !! config_dump_info base = None ->
  integrate_into_config uuid4 base clone_name w
  = (inl (FileNotFoundError
            (errno_msg (lit "[Errno 2] No such file or directory")
               (config_dump_info base))),
     World (<[config_xml base := File (config_injected clone_name c)]> (fs w))
       (drawn w)
       (log w ++
        [Printed (lit "[*] " ++ lit "Integrating clone into configuration topology via robust text insertion...");
         Printed (lit "[+] " ++ config_message
                    (chosen catalog_line_pattern document_line_pattern c)
                    (config_xml base));
         Wrote (config_xml base) (config_injected clone_name c)])).
Proof.
  intros Hc Hb. destruct w as [f n l]. cbn [fs drawn log] in *.
  unfold integrate_into_config.
  fold (config_xml base). fold (config_dump_info base).
  fold (ref_name clone_name). fold (new_line clone_name).
  rewrite bind_run. msimpl.
  rewrite bind_run, (read_file_run _ _ c) by done.
  rewrite bind_run.
  assert (Htier : forall w0,
    match last (findall catalog_line_pattern c) with
    | Some last_line =>
        print_success (lit "Injected after last Catalog in " ++ config_xml base);;
        ret (replace last_line (last_line ++ NL :: new_line clone_name) c)
    | None =>
        match search document_line_pattern c with
        | Some doc =>
            print_success (lit "Injected before first Document in "
                           ++ config_xml base);;
            ret (replace doc (new_line clone_name ++ NL :: doc) c)
        | None =>
            print_success (lit "Injected at end of ChildObjects in "
                           ++ config_xml base);;
            ret (replace ([TAB; TAB] ++ lit "</cfg:ChildObjects>")
                   (new_line clone_name ++ NL :: [TAB; TAB]
                    ++ lit "</cfg:ChildObjects>") c)
        end
    end w0
    = (inr (config_injected clone_name c),
       World (fs w0) (drawn w0)
         (log w0 ++ [Printed (lit "[+] " ++ config_message
                        (chosen catalog_line_pattern document_line_pattern c)
                        (config_xml base))]))).
  { intros w0. unfold config_injected, inject, chosen.
    destruct (last (findall catalog_line_pattern c)); [done|].
    by destruct (search document_line_pattern c). }
  rewrite Htier. clear Htier. cbn [fs drawn log].
  rewrite bind_run, write_file_run by (cbn [fs]; by rewrite Hc).
  cbn [fs drawn log].
  rewrite bind_run, read_file_missing
    by (cbn [fs]; rewrite lookup_insert_ne; [done|apply config_xml_ne_dump]).
  by rewrite <- !app_assoc.
Qed.

(** X6. With [Configuration.xml] but without [ConfigDumpInfo.xml] the
    integrate step fails half-way: it has written [Configuration.xml] with
    the clone's line injected when the read of [ConfigDumpInfo.xml] raises
    the file-not-found error; no identifier is generated and nothing is
    rolled back. *)
Theorem integrate_without_dump uuid4 base clone_name w c :
  fs w !! config_xml base = Some (File c) ->
  fs w !! config_dump_info base = None ->
  exists w',
    integrate_into_config uuid4 base clone_name w
    = (inl (FileNotFoundError
              (errno_msg (lit "[Errno 2] No such file or directory")
                 (config_dump_info base))), w') /\
    fs w' !! config_xml base = Some (File (config_injected clone_name c)) /\
    Wrote (config_xml base) (config_injected clone_name c) ∈ log w' /\
    fs w' !! config_dump_info base = None /\
    (forall p, p <> config_xml base -> fs w' !! p = fs w !! p) /\
    drawn w' = drawn w.
Proof.
  intros Hc Hb.
  rewrite (integrate_dump_missing_run uuid4 base clone_name w c Hc Hb).
  eexists. split; [reflexivity|]. cbn [fs drawn log].
  split; [apply lookup_insert_eq|].
  split; [rewrite elem_of_app; right; do 2 right; left|].
  split.
  - rewrite lookup_insert_ne by apply config_xml_ne_dump. exact Hb.
  - split; [|done]. intros p Hp. by rewrite lookup_insert_ne.
Qed.

Lemma integrate_without_dump_witness :
  exists w',
    integrate_into_config sample_uuid4 sample_base CLONE_NAME trace_world
    = (inl (FileNotFoundError
              (errno_msg (lit "[Errno 2] No such file or directory")
                 (config_dump_info sample_base))), w') /\
    fs w' !! config_xml sample_base
    = Some (File (config_injected CLONE_NAME trace_config)) /\
    Wrote (config_xml sample_base) (config_injected CLONE_NAME trace_config)
      ∈ log w' /\
    fs w' !! config_dump_info sample_base = None /\
    (forall p, p <> config_xml sample_base ->
               fs w' !! p = fs trace_world !! p) /\
    drawn w' = drawn trace_world.
Proof.
  apply (integrate_without_dump sample_uuid4 sample_base CLONE_NAME trace_world
           trace_config); vm_compute; reflexivity.
Defined.

Lemma two_steps_without_dump uuid4 base donor_name clone_name w c d :
  donor_name <> clone_name ->
  SLASH ∉ donor_name -> SLASH ∉ clone_name ->
  fs w !! config_xml base = Some (File c) ->
  fs w !! config_dump_info base = None ->
  fs w !! catalog_file base donor_name = Some (File d) ->
  fs w !! catalog_file base clone_name <> Some Dir ->
  exists w1 w2,
    remove_existing_traces base clone_name w = (inr tt, w1) /\
    clone_and_regenerate uuid4 base donor_name clone_name w1 = (inr tt, w2) /\
    fs w2 !! config_xml base
    = Some (File (sub (config_trace_pattern (ref_name clone_name)) [] c)) /\
    fs w2 !! config_dump_info base = None /\
    fs w2 !! catalog_file base donor_name = Some (File d) /\
    fs w2 !! catalog_file base clone_name
    = Some (File (clone_text uuid4 donor_name clone_name (drawn w) d)).
Proof.
  intros Hne Hd Hcl Hc Hb Hdon Hclone.
  pose proof (catalog_file_ne_config base clone_name Hcl) as N1.
  pose proof (catalog_file_ne_dump base clone_name Hcl) as N2.
  pose proof (catalog_file_ne_config base donor_name Hd) as N3.
  pose proof (catalog_file_ne_dump base donor_name Hd) as N4.
  pose proof (config_xml_ne_dump base) as N5.
  assert (N6 : catalog_file base clone_name <> catalog_file base donor_name).
  { intros E. apply catalog_file_inj in E; [|done..]. by symmetry in E. }
  pose proof (remove_existing_traces_run base clone_name w) as Hrun.
  cbv zeta in Hrun.
  rewrite Hrun by (rewrite ?Hc, ?Hb; done). clear Hrun.
  set (m3 := unlink_fs _ _).
  assert (L1 : m3 !! config_xml base
               = Some (File (sub (config_trace_pattern (ref_name clone_name))
                               [] c))).
  { unfold m3. rewrite unlink_fs_lookup_ne, clean_fs_lookup_ne by done.
    by apply clean_fs_lookup_file. }
  assert (L2 : m3 !! config_dump_info base = None).
  { unfold m3. apply unlink_fs_none, clean_fs_none.
    by rewrite clean_fs_lookup_ne. }
  assert (L3 : m3 !! catalog_file base donor_name = Some (File d)).
  { unfold m3. by rewrite unlink_fs_lookup_ne, !clean_fs_lookup_ne. }
  assert (L4 : m3 !! catalog_file base clone_name = None)
    by apply unlink_fs_lookup.
  eexists _, _. split; [reflexivity|].
  rewrite (clone_and_regenerate_run uuid4 base donor_name clone_name _ d)
    by (cbn [fs]; rewrite ?L3, ?L4; done).
  split; [reflexivity|]. cbn [fs drawn log].
  split; [by rewrite lookup_insert_ne|].
  split; [by rewrite lookup_insert_ne|].
  split; [by rewrite lookup_insert_ne|].
  apply lookup_insert_eq.
Qed.

(** X7. On an export with [Configuration.xml] and the donor's file but
    without [ConfigDumpInfo.xml], the script ends with status 1 only in the
    integrate step, after the clone's file and [Configuration.xml] have been
    written: both stay as written, [ConfigDumpInfo.xml] is still missing,
    and the last two things reported are the error of the read and the
    trace. *)
Theorem main_without_dump uuid4 w c d :
  fs w !! config_xml (config_root w) = Some (File c) ->
  fs w !! config_dump_info (config_root w) = None ->
  fs w !! catalog_file (config_root w) DONOR_NAME = Some (File d) ->
  fs w !! catalog_file (config_root w) CLONE_NAME <> Some Dir ->
  exists w' evs,
    main uuid4 w = (1%N, w') /\
    fs w' !! config_xml (config_root w)
    = Some (File (config_injected CLONE_NAME
                    (sub (config_trace_pattern (ref_name CLONE_NAME)) [] c))) /\
    fs w' !! catalog_file (config_root w) CLONE_NAME
    = Some (File (clone_text uuid4 DONOR_NAME CLONE_NAME (drawn w) d)) /\
    fs w' !! config_dump_info (config_root w) = None /\
    fs w' !! catalog_file (config_root w) DONOR_NAME = Some (File d) /\
    log w'
    = evs ++ [PrintedErr
                (lit "[!] " ++ lit "A critical error occurred: "
                 ++ errno_msg (lit "[Errno 2] No such file or directory")
                      (config_dump_info (config_root w)));
              Traceback].
Proof.
  intros Hc Hb Hd Hcl.
  destruct (two_steps_without_dump uuid4 (config_root w) DONOR_NAME CLONE_NAME
              w c d names_differ donor_name_no_slash clone_name_no_slash
              Hc Hb Hd Hcl)
    as (w1 & w2 & Hrem & Hclone & Hc2 & Hb2 & Hd2 & Hcl2).
  unfold main. rewrite script_body_run, Hc, bind_run.
  unfold run_steps. rewrite bind_run, Hrem, bind_run, Hclone.
  rewrite (integrate_dump_missing_run uuid4 _ CLONE_NAME w2 _ Hc2 Hb2).
  unfold print_error. rewrite bind_run. unfold emit.
  cbn [snd fs drawn log exn_str].
  pose proof (config_xml_ne_dump (config_root w)) as N5.
  pose proof (catalog_file_ne_config (config_root w) CLONE_NAME
                clone_name_no_slash) as N1.
  pose proof (catalog_file_ne_config (config_root w) DONOR_NAME
                donor_name_no_slash) as N3.
  eexists _, _. split; [reflexivity|]. cbn [fs log].
  split; [apply lookup_insert_eq|].
  split; [by rewrite lookup_insert_ne|].
  split; [by rewrite lookup_insert_ne|].
  split; [by rewrite lookup_insert_ne|].
  rewrite <- (app_assoc _ [_] [Traceback]). reflexivity.
Qed.

Lemma main_without_dump_witness :
  exists w' evs,
    main sample_uuid4 nodump_world = (1%N, w') /\
    fs w' !! config_xml (config_root nodump_world)
    = Some (File (config_injected CLONE_NAME
                    (sub (config_trace_pattern (ref_name CLONE_NAME)) []
                       sample_config))) /\
    fs w' !! catalog_file (config_root nodump_world) CLONE_NAME
    = Some (File (clone_text sample_uuid4 DONOR_NAME CLONE_NAME
                    (drawn nodump_world) sample_donor)) /\
    fs w' !! config_dump_info (config_root nodump_world) = None /\
    fs w' !! catalog_file (config_root nodump_world) DONOR_NAME
    = Some (File sample_donor) /\
    log w'
    = evs ++ [PrintedErr
                (lit "[!] " ++ lit "A critical error occurred: "
                 ++ errno_msg (lit "[Errno 2] No such file or directory")
                      (config_dump_info (config_root nodump_world)));
              Traceback].
Proof.
  apply (main_without_dump sample_uuid4 nodump_world sample_config sample_donor).
  - vm_compute; reflexivity.
  - vm_compute; reflexivity.
  - vm_compute; reflexivity.
  - vm_compute; discriminate.
Defined.

(** ** The cleanup of [Configuration.xml], by lines *)

Lemma text_lines_line l rest :
  NL ∉ l -> text_lines (l ++ NL :: rest) = (l ++ [NL]) :: text_lines rest.
Proof.
  induction l as [|c l IH]; intros Hl; [reflexivity|].
  apply not_elem_of_cons in Hl as [Hc Hl].
  cbn [app text_lines]. rewrite (IH Hl).
  by destruct (N.eqb_spec c NL) as [->|_].
Qed.

Lemma text_lines_last l :
  NL ∉ l -> text_lines l = match l with [] => [] | _ => [l] end.
Proof.
  induction l as [|c l IH]; intros Hl; [reflexivity|].
  apply not_elem_of_cons in Hl as [Hc Hl].
  cbn [text_lines]. rewrite (IH Hl).
  destruct (N.eqb_spec c NL) as [->|_]; [done|]. by destruct l.
Qed.

Lemma occurs_line_end (x l : list N) :
  NL ∉ x -> occurs x (l ++ [NL]) = occurs x l.
Proof.
  intros Hx.
  assert (He : starts_line [NL]) by (right; by exists []).
  induction l as [|c l IH].
  - destruct x as [|a x]; [reflexivity|].
    apply not_elem_of_cons in Hx as [Ha _].
    cbn [app occurs starts_with].
    by destruct (N.eqb_spec a NL) as [->|_].
  - cbn [app]. rewrite (occurs_unfold x (c :: l ++ [NL])), (occurs_unfold x (c :: l)).
    change (c :: l ++ [NL]) with ((c :: l) ++ [NL]).
    by rewrite (starts_with_line x (c :: l) [NL] Hx He), IH.
Qed.

Lemma sub_trace_lines ref c :
  NL ∉ ref ->
  sub (config_trace_pattern ref) [] c = without_lines (catalog_entry ref) c.
Proof.
  intros Href. unfold without_lines, catalog_entry.
  induction c as [l Hl|l rest Hl IH] using lines_ind.
  - rewrite (sub_line_end ref Href l Hl), (text_lines_last l Hl).
    destruct l as [|a l].
    + by rewrite occurs_unfold, starts_with_nil_r.
    + cbn [List.filter]. destruct (occurs _ (a :: l)); cbn [negb concat];
        [done|by rewrite app_nil_r].
  - rewrite (sub_line_nl ref Href l rest Hl), (text_lines_line l rest Hl), IH.
    cbn [List.filter].
    rewrite (occurs_line_end _ l (marker_no_nl ref Href)).
    by destruct (occurs _ l).
Qed.

(** X8. The cleanup leaves in [Configuration.xml] the lines that do not hold
    the clone's catalog entry [<cfg:Catalog>Catalog.NAME</cfg:Catalog>],
    each as it was and in their order, and no other: a line that holds the
    entry goes with its newline. *)
Theorem cleanup_drops_entry_lines base clone_name w c :
  NL ∉ clone_name -> SLASH ∉ clone_name ->
  fs w !! config_xml base = Some (File c) ->
  fs w !! config_dump_info base <> Some Dir ->
  fs w !! catalog_file base clone_name <> Some Dir ->
  exists w',
    remove_existing_traces base clone_name w = (inr tt, w') /\
    fs w' !! config_xml base
    = Some (File (without_lines (catalog_entry (ref_name clone_name)) c)).
Proof.
  intros Hnl Hsl Hc Hb Hcl.
  pose proof (remove_existing_traces_run base clone_name w) as Hrun.
  cbv zeta in Hrun. rewrite Hrun by (rewrite ?Hc; done). clear Hrun.
  eexists. split; [reflexivity|]. cbn [fs].
  rewrite unlink_fs_lookup_ne by (by apply catalog_file_ne_config).
  rewrite clean_fs_lookup_ne
    by (intros E; symmetry in E; by apply config_xml_ne_dump in E).
  rewrite (clean_fs_lookup_file _ _ _ c Hc).
  by rewrite (sub_trace_lines _ c (new_line_no_nl clone_name Hnl)).
Qed.

Lemma cleanup_drops_entry_lines_witness :
  exists w',
    remove_existing_traces sample_base CLONE_NAME trace_world = (inr tt, w') /\
    fs w' !! config_xml sample_base
    = Some (File (without_lines (catalog_entry (ref_name CLONE_NAME))
                    trace_config)).
Proof.
  apply (cleanup_drops_entry_lines sample_base CLONE_NAME trace_world
           trace_config).
  - solve_notin.
  - solve_notin.
  - vm_compute; reflexivity.
  - vm_compute; discriminate.
  - vm_compute; discriminate.
Defined.

(** ** A cleanup with nothing to clean *)

Lemma occurs_app_suffix old (a b : list N) :
  occurs old b = true -> occurs old (a ++ b) = true.
Proof.
  intros (p & q & ->)%occurs_infix. apply occurs_infix.
  exists (a ++ p), q. by rewrite <- app_assoc.
Qed.

Lemma needs_cat_r l r1 r2 : needs l r2 -> needs l (Cat r1 r2).
Proof.
  intros H s Hne. cbn [ends] in Hne.
  destruct (flat_map _ _) as [|y ys] eqn:E; [done|].
  assert (Hin : In y (flat_map (fun x => map (app_fst x.1) (ends r2 x.2))
                        (ends r1 s))) by (rewrite E; left; reflexivity).
  apply in_flat_map in Hin as (x & Hx & Hy).
  apply list_elem_of_In in Hx.
  rewrite (ends_sound r1 s x Hx).
  apply occurs_app_suffix, H. intros Hnil. by rewrite Hnil in Hy.
Qed.

Lemma needs_lits3 a b c r :
  needs (a ++ b ++ c) (Cat (Lits a) (Cat (Lits b) (Cat (Lits c) r))).
Proof.
  intros s Hne. rewrite ends_lits3 in Hne.
  destruct (starts_with (a ++ b ++ c) s) eqn:E; [|done].
  by rewrite occurs_unfold, E.
Qed.

Lemma needs_config_trace ref :
  needs (catalog_entry ref) (config_trace_pattern ref).
Proof. apply needs_cat_r, needs_lits3. Qed.

Lemma needs_dump_trace ref :
  needs (name_field ref) (dump_trace_pattern ref).
Proof. apply needs_cat_r, needs_cat_r, needs_lits3. Qed.

(** Where the pattern cannot match, [sub] gives the text back. *)
Lemma sub_absent l r repl s :
  needs l r -> occurs l s = false -> sub r repl s = s.
Proof.
  intros Hn Ho. unfold sub.
  assert (Hnone : forall a b, s = a ++ b -> rmatch r b = None).
  { intros a b ->. unfold rmatch. destruct (ends r b) as [|x xs] eqn:E; [done|].
    exfalso. apply occurs_app_r in Ho. rewrite Hn in Ho; [done|].
    by rewrite E. }
  replace (scan (rmatch r) s) with (scan (rmatch r) (s ++ []))
    by (by rewrite app_nil_r).
  rewrite scan_skip_suffix; [|apply rmatch_sound|].
  - rewrite scan_nil_none by (apply (Hnone s []); by rewrite app_nil_r).
    by rewrite app_nil_r, fill_keeps.
  - intros a b -> _. rewrite app_nil_r. by apply (Hnone a b).
Qed.

Lemma clean_fs_same (p : list N) (pattern : regex) (m : gmap (list N) node) :
  (forall c, m !! p = Some (File c) -> sub pattern [] c = c) ->
  clean_fs p pattern m = m.
Proof.
  intros H. unfold clean_fs. destruct (m !! p) as [[c|]|] eqn:E; [|done..].
  rewrite (H c eq_refl). by apply insert_id.
Qed.

Lemma clean_events_same (p filename ref : list N) (pattern : regex)
    (m : gmap (list N) node) :
  (forall c, m !! p = Some (File c) -> sub pattern [] c = c) ->
  clean_events p filename ref pattern m = [].
Proof.
  intros H. unfold clean_events. destruct (m !! p) as [[c|]|] eqn:E; [|done..].
  rewrite (H c eq_refl). case_bool_decide as Hd; [by destruct Hd|done].
Qed.

(** X9. On an export that bears no trace of the clone (neither index file,
    where there is one, holds the clone's catalog entry or name field, and
    the clone's file does not exist), the cleanup changes nothing: no file
    is written or removed, and all it prints is its announcement. *)
Theorem cleanup_without_traces base clone_name w :
  (forall c, fs w !! config_xml base = Some (File c) ->
             occurs (catalog_entry (ref_name clone_name)) c = false) ->
  (forall b, fs w !! config_dump_info base = Some (File b) ->
             occurs (name_field (ref_name clone_name)) b = false) ->
  fs w !! config_xml base <> Some Dir ->
  fs w !! config_dump_info base <> Some Dir ->
  fs w !! catalog_file base clone_name = None ->
  remove_existing_traces base clone_name w
  = (inr tt,
     World (fs w) (drawn w)
       (log w ++
        [Printed (lit "[*] " ++ lit "Ensuring idempotency by cleaning up traces of '"
                  ++ clone_name ++ lit "'...")])).
Proof.
  intros Hc Hb Dc Db Hcl.
  pose proof (remove_existing_traces_run base clone_name w) as Hrun.
  cbv zeta in Hrun. rewrite Hrun by (rewrite ?Hcl; done). clear Hrun.
  assert (S1 : forall c, fs w !! config_xml base = Some (File c) ->
                 sub (config_trace_pattern (ref_name clone_name)) [] c = c).
  { intros c E. apply (sub_absent _ _ _ _ (needs_config_trace _)), Hc, E. }
  assert (S2 : forall b, fs w !! config_dump_info base = Some (File b) ->
                 sub (dump_trace_pattern (ref_name clone_name)) [] b = b).
  { intros b E. apply (sub_absent _ _ _ _ (needs_dump_trace _)), Hb, E. }
  rewrite (clean_events_same _ _ _ _ (fs w) S1).
  rewrite (clean_fs_same _ _ (fs w) S1).
  rewrite (clean_events_same _ _ _ _ (fs w) S2).
  rewrite (clean_fs_same _ _ (fs w) S2).
  unfold unlink_fs, unlink_events. rewrite Hcl. cbn [app].
  reflexivity.
Qed.

Lemma cleanup_without_traces_witness :
  remove_existing_traces sample_base CLONE_NAME sample_world
  = (inr tt,
     World (fs sample_world) (drawn sample_world)
       (log sample_world ++
        [Printed (lit "[*] " ++ lit "Ensuring idempotency by cleaning up traces of '"
                  ++ CLONE_NAME ++ lit "'...")])).
Proof.
  apply (cleanup_without_traces sample_base CLONE_NAME sample_world).
  - intros c H. vm_compute in H. injection H as <-. vm_compute; reflexivity.
  - intros b H. vm_compute in H. injection H as <-. vm_compute; reflexivity.
  - vm_compute; discriminate.
  - vm_compute; discriminate.
  - vm_compute; reflexivity.
Defined.

Lemma clean_fs_is_Some (p q : list N) (pattern : regex)
    (m : gmap (list N) node) :
  is_Some (m !! q) -> is_Some (clean_fs p pattern m !! q).
Proof.
  intros H. unfold clean_fs. destruct (m !! p) as [[c|]|] eqn:E; [|done..].
  destruct (decide (p = q)) as [->|Hne].
  - rewrite lookup_insert_eq. by eexists.
  - by rewrite lookup_insert_ne.
Qed.

(** X10. After the cleanup the clone's definition file does not exist,
    whether or not it did before; if it did, its removal is among the
    things done.  (None of the three paths being a directory.) *)
Theorem cleanup_removes_clone_file base clone_name w :
  fs w !! config_xml base <> Some Dir ->
  fs w !! config_dump_info base <> Some Dir ->
  fs w !! catalog_file base clone_name <> Some Dir ->
  exists w',
    remove_existing_traces base clone_name w = (inr tt, w') /\
    fs w' !! catalog_file base clone_name = None /\
    (is_Some (fs w !! catalog_file base clone_name) ->
     Removed (catalog_file base clone_name) ∈ log w').
Proof.
  intros Dc Db Dcl.
  pose proof (remove_existing_traces_run base clone_name w Dc Db Dcl) as Hrun.
  cbv zeta in Hrun. rewrite Hrun. clear Hrun.
  eexists. split; [reflexivity|]. cbn [fs log].
  split; [apply unlink_fs_lookup|].
  intros Hsome.
  apply (clean_fs_is_Some (config_xml base) _
           (config_trace_pattern (ref_name clone_name))) in Hsome.
  apply (clean_fs_is_Some (config_dump_info base) _
           (dump_trace_pattern (ref_name clone_name))) in Hsome.
  unfold unlink_events. destruct Hsome as [x ->].
  rewrite !elem_of_app. do 4 right. left.
Qed.

Lemma cleanup_removes_clone_file_witness :
  exists w',
    remove_existing_traces sample_base CLONE_NAME after_first_run
    = (inr tt, w') /\
    fs w' !! catalog_file sample_base CLONE_NAME = None /\
    (is_Some (fs after_first_run !! catalog_file sample_base CLONE_NAME) ->
     Removed (catalog_file sample_base CLONE_NAME) ∈ log w').
Proof.
  apply (cleanup_removes_clone_file sample_base CLONE_NAME after_first_run);
    vm_compute; discriminate.
Defined.

(** ** Where the integrate step puts the new entry *)

Lemma search_first r s m :
  search r s = Some m ->
  exists pre rest,
    s = pre ++ m ++ rest /\ rmatch r (m ++ rest) = Some (m, rest) /\
    forall a b, pre = a ++ b -> b <> [] -> rmatch r (b ++ m ++ rest) = None.
Proof.
  induction s as [|c s IH]; cbn [search].
  - destruct (rmatch r []) as [[m' rest]|] eqn:E; [|done]. intros [= ->].
    pose proof (rmatch_sound r _ _ _ E) as Hs. exists [], rest.
    split; [done|]. split; [by rewrite <- Hs|].
    intros a b Hab Hb. by destruct a, b.
  - destruct (rmatch r (c :: s)) as [[m' rest]|] eqn:E.
    + intros [= ->].
      pose proof (rmatch_sound r _ _ _ E) as Hs. exists [], rest.
      split; [done|]. split; [by rewrite <- Hs|].
      intros a b Hab Hb. by destruct a, b.
    + intros (pre & rest & -> & Hm & Hnone)%IH. exists (c :: pre), rest.
      split; [done|]. split; [done|].
      intros a b Hab Hb. destruct a as [|x a].
      * cbn [app] in Hab. by subst b.
      * injection Hab as _ Hab. by apply (Hnone a b).
Qed.

Lemma occurrences_zero old c : occurrences old c = 0 -> occurs old c = false.
Proof.
  induction c as [|x c IH]; cbn [occurrences occurs].
  - destruct (starts_with old []); [lia|done].
  - destruct (starts_with old (x :: c)); [lia|]. intros H. apply IH. lia.
Qed.

Lemma occurrences_one_infix old c :
  occurrences old c = 1 ->
  occurs_once old c /\ exists pre post, c = pre ++ old ++ post.
Proof.
  intros H. split; [apply occurrences_once; lia|].
  apply occurs_infix. destruct (occurs old c) eqn:E; [done|].
  assert (occurrences old c = 0); [|lia].
  clear H. induction c as [|x c IH].
  - cbn [occurs occurrences] in *. by destruct (starts_with old []).
  - apply occurs_cons_false in E as [E1 E2].
    cbn [occurrences]. rewrite E1, (IH E2). done.
Qed.

(** The members of [ends] for a pattern that starts with a star or with a
    literal. *)
Lemma ends_star_then_elem g p r s x :
  x ∈ ends (Cat (Star g p) r) s ->
  exists ws y, (forall c, c ∈ ws -> p c = true) /\
               y ∈ ends r (y.1 ++ y.2) /\ s = ws ++ y.1 ++ y.2 /\
               x = (ws ++ y.1, y.2).
Proof.
  revert x. induction s as [|a s IH]; intros x; rewrite ends_star_then.
  - intros H. exists [], x. pose proof (ends_sound r [] x H) as Hs.
    split; [by intros c ?%elem_of_nil|]. rewrite <- Hs.
    split; [done|]. split; [done|]. by destruct x.
  - assert (Hr : x ∈ ends r (a :: s) ->
                 exists ws y, (forall c, c ∈ ws -> p c = true) /\
                   y ∈ ends r (y.1 ++ y.2) /\ a :: s = ws ++ y.1 ++ y.2 /\
                   x = (ws ++ y.1, y.2)).
    { intros H. exists [], x. pose proof (ends_sound r _ x H) as Hs.
      split; [by intros c ?%elem_of_nil|]. rewrite <- Hs.
      split; [done|]. split; [done|]. by destruct x. }
    assert (Hm : x ∈ map (cons_fst a) (ends (Cat (Star g p) r) s) ->
                 p a = true ->
                 exists ws y, (forall c, c ∈ ws -> p c = true) /\
                   y ∈ ends r (y.1 ++ y.2) /\ a :: s = ws ++ y.1 ++ y.2 /\
                   x = (ws ++ y.1, y.2)).
    { intros (x' & -> & Hx')%list_elem_of_fmap Hpa.
      destruct (IH x' Hx') as (ws & y & Hws & Hy & -> & ->).
      exists (a :: ws), y. split; [|done].
      intros c [->|Hc]%elem_of_cons; [done|by apply Hws]. }
    destruct (p a) eqn:Hpa; [|done].
    destruct g; intros [H|H]%elem_of_app; auto.
Qed.

Lemma ends_lits_then_elem l r s x :
  x ∈ ends (Cat (Lits l) r) s ->
  exists y, y ∈ ends r (y.1 ++ y.2) /\ s = l ++ y.1 ++ y.2 /\
            x = (l ++ y.1, y.2).
Proof.
  rewrite ends_lits_then. destruct (starts_with l s) eqn:E; [|by intros ?%elem_of_nil].
  intros (y & -> & Hy)%list_elem_of_fmap.
  pose proof (ends_sound r _ y Hy) as Hs.
  exists y. rewrite <- Hs. split; [done|].
  split; [by apply starts_with_split|done].
Qed.

(** What [(\s*<cfg:Document>.*</cfg:Document>)] matches: a run of spaces,
    then the entry. *)
Lemma document_line_shape s m rest :
  rmatch document_line_pattern s = Some (m, rest) ->
  exists ws body, m = ws ++ O_DOCUMENT ++ body ++ C_DOCUMENT /\
                  (forall c, c ∈ ws -> is_space c = true) /\ NL ∉ body.
Proof.
  intros H. unfold rmatch in H.
  assert (Hin : (m, rest) ∈ ends document_line_pattern s).
  { destruct (ends document_line_pattern s) as [|x xs]; [done|].
    injection H as ->. left. }
  clear H. unfold document_line_pattern in Hin. cbn [Seq foldr] in Hin.
  apply ends_star_then_elem in Hin as (ws & y & Hws & Hy & _ & Hm).
  apply ends_lits_then_elem in Hy as (z & Hz & _ & Hy).
  apply ends_star_then_elem in Hz as (body & u & Hbody & Hu & _ & Hz).
  rewrite ends_lits_eps in Hu.
  destruct (starts_with C_DOCUMENT (u.1 ++ u.2)); [|by apply elem_of_nil in Hu].
  apply list_elem_of_singleton in Hu.
  injection Hm as -> _. rewrite Hy, Hz, Hu. cbn [fst snd].
  exists ws, body. split; [done|]. split; [done|].
  intros Hin. apply Hbody in Hin. done.
Qed.

Lemma document_line_space x s :
  is_space x = true ->
  rmatch document_line_pattern s <> None ->
  rmatch document_line_pattern (x :: s) <> None.
Proof.
  intros Hx. unfold rmatch, document_line_pattern. cbn [Seq foldr].
  rewrite (ends_star_then true is_space _ (x :: s)), Hx.
  by destruct (ends _ s).
Qed.

Lemma document_line_nonempty : 0 < min_len document_line_pattern.
Proof. vm_compute. lia. Qed.

Lemma inject_before_document P Q close new c doc :
  0 < min_len Q ->
  findall P c = [] -> search Q c = Some doc -> occurrences doc c = 1 ->
  exists pre post,
    c = pre ++ doc ++ post /\
    inject P Q close new c = pre ++ new ++ NL :: doc ++ post /\
    rmatch Q (doc ++ post) = Some (doc, post) /\
    forall a b, pre = a ++ b -> b <> [] -> rmatch Q (b ++ doc ++ post) = None.
Proof.
  intros Hmin HP HQ Hone.
  destruct (occurrences_one_infix _ _ Hone) as [Honce _].
  destruct (search_first Q c doc HQ) as (pre & rest & Hc & Hm & Hnone).
  exists pre, rest. split; [done|]. split; [|done].
  unfold inject. rewrite HP, HQ. cbn [last].
  rewrite (replace_once doc _ c pre rest); [| |done|done].
  - by rewrite <- app_assoc.
  - by eapply rmatch_nonempty.
Qed.

Lemma inject_at_close P Q close new c :
  close <> [] ->
  findall P c = [] -> search Q c = None -> occurrences close c = 1 ->
  exists pre post,
    c = pre ++ close ++ post /\
    inject P Q close new c = pre ++ new ++ NL :: close ++ post.
Proof.
  intros Hne HP HQ Hone.
  destruct (occurrences_one_infix _ _ Hone) as [Honce (pre & post & Hc)].
  exists pre, post. split; [done|].
  unfold inject. rewrite HP, HQ. cbn [last].
  rewrite (replace_once close _ c pre post Hne Honce Hc).
  by rewrite <- app_assoc.
Qed.

Lemma inject_after_last P Q close new c L :
  0 < min_len P ->
  last (findall P c) = Some L -> occurrences L c = 1 ->
  exists pre post,
    c = pre ++ L ++ post /\
    inject P Q close new c = pre ++ L ++ NL :: new ++ post.
Proof.
  intros Hmin Hlast Hone.
  destruct (occurrences_one_infix _ _ Hone) as [Honce (pre & post & Hc)].
  exists pre, post. split; [done|].
  unfold inject. rewrite Hlast.
  apply last_Some_elem_of, (hits_infix P Hmin) in Hlast as [Hne _].
  rewrite (replace_once L _ c pre post Hne Honce Hc).
  by rewrite <- app_assoc.
Qed.

(** X11. When [Configuration.xml] lists no catalog, the integrate step puts
    the clone's line before the first match of
    [\s*<cfg:Document>.*</cfg:Document>] (its text occurring at one place
    only).  That match takes in the whole run of spaces before the entry,
    newlines included: the text before it does not end with a space, so the
    clone's line is appended to what precedes that run, and the run and the
    entry follow on the next line. *)
Theorem line_before_first_document uuid4 base clone_name w c b doc :
  fs w !! config_xml base = Some (File c) ->
  fs w !! config_dump_info base = Some (File b) ->
  findall catalog_line_pattern c = [] ->
  search document_line_pattern c = Some doc ->
  occurrences doc c = 1 ->
  exists w' pre post ws body,
    integrate_into_config uuid4 base clone_name w = (inr tt, w') /\
    c = pre ++ doc ++ post /\
    doc = ws ++ O_DOCUMENT ++ body ++ C_DOCUMENT /\
    (forall x, x ∈ ws -> is_space x = true) /\
    (forall p x, pre = p ++ [x] -> is_space x = false) /\
    fs w' !! config_xml base
    = Some (File (pre ++ new_line clone_name ++ NL :: doc ++ post)).
Proof.
  intros Hc Hb HP HQ Hone.
  destruct (inject_before_document catalog_line_pattern document_line_pattern
              CONFIG_CLOSE (new_line clone_name) c doc
              document_line_nonempty HP HQ Hone)
    as (pre & post & Hsplit & Hinj & Hm & Hnone).
  destruct (document_line_shape _ _ _ Hm) as (ws & body & Hdoc & Hws & _).
  eexists _, pre, post, ws, body.
  split; [by apply integrate_into_config_run|]. cbn [fs].
  split; [done|]. split; [done|]. split; [done|]. split.
  - intros p x Hpre. destruct (is_space x) eqn:Hx; [|done]. exfalso.
    apply (document_line_space x (doc ++ post) Hx); [by rewrite Hm|].
    apply (Hnone p [x] Hpre). done.
  - rewrite lookup_insert_ne by (symmetry; apply config_xml_ne_dump).
    rewrite lookup_insert_eq. unfold config_injected. by rewrite Hinj.
Qed.

Lemma line_before_first_document_witness :
  exists w' pre post ws body,
    integrate_into_config sample_uuid4 sample_base CLONE_NAME doc_world
    = (inr tt, w') /\
    doc_config
    = pre ++ (NL :: TAB :: TAB :: TAB
                :: lit "<cfg:Document>Document.Order</cfg:Document>") ++ post /\
    NL :: TAB :: TAB :: TAB :: lit "<cfg:Document>Document.Order</cfg:Document>"
    = ws ++ O_DOCUMENT ++ body ++ C_DOCUMENT /\
    (forall x, x ∈ ws -> is_space x = true) /\
    (forall p x, pre = p ++ [x] -> is_space x = false) /\
    fs w' !! config_xml sample_base
    = Some (File (pre ++ new_line CLONE_NAME
                  ++ NL :: (NL :: TAB :: TAB :: TAB
                              :: lit "<cfg:Document>Document.Order</cfg:Document>")
                  ++ post)).
Proof.
  apply (line_before_first_document sample_uuid4 sample_base CLONE_NAME
           doc_world doc_config sample_dump); vm_compute; reflexivity.
Defined.

(** X12. When [Configuration.xml] lists neither catalog nor document and
    holds the tab-indented closing tag of the container at one place, the
    integrate step writes the file with the clone's line, on a line of its
    own, right before that closing tag. *)
Theorem line_before_closing_tag uuid4 base clone_name w c b :
  fs w !! config_xml base = Some (File c) ->
  fs w !! config_dump_info base = Some (File b) ->
  findall catalog_line_pattern c = [] ->
  search document_line_pattern c = None ->
  occurrences CONFIG_CLOSE c = 1 ->
  exists w' pre post,
    integrate_into_config uuid4 base clone_name w = (inr tt, w') /\
    c = pre ++ CONFIG_CLOSE ++ post /\
    fs w' !! config_xml base
    = Some (File (pre ++ new_line clone_name ++ NL :: CONFIG_CLOSE ++ post)).
Proof.
  intros Hc Hb HP HQ Hone.
  destruct (inject_at_close catalog_line_pattern document_line_pattern
              CONFIG_CLOSE (new_line clone_name) c ltac:(done) HP HQ Hone)
    as (pre & post & Hsplit & Hinj).
  eexists _, pre, post.
  split; [by apply integrate_into_config_run|]. cbn [fs].
  split; [done|].
  rewrite lookup_insert_ne by (symmetry; apply config_xml_ne_dump).
  rewrite lookup_insert_eq. unfold config_injected. by rewrite Hinj.
Qed.

Lemma line_before_closing_tag_witness :
  exists w' pre post,
    integrate_into_config sample_uuid4 sample_base CLONE_NAME empty_export
    = (inr tt, w') /\
    empty_config = pre ++ CONFIG_CLOSE ++ post /\
    fs w' !! config_xml sample_base
    = Some (File (pre ++ new_line CLONE_NAME ++ NL :: CONFIG_CLOSE ++ post)).
Proof.
  apply (line_before_closing_tag sample_uuid4 sample_base CLONE_NAME
           empty_export empty_config empty_dump); vm_compute; reflexivity.
Defined.

(** ** Blocks of [ConfigDumpInfo.xml] *)

Lemma ends_cat_elem r1 r2 s m rest :
  (m, rest) ∈ ends (Cat r1 r2) s ->
  exists m1 m2 mid,
    (m1, mid) ∈ ends r1 s /\ (m2, rest) ∈ ends r2 mid /\ m = m1 ++ m2.
Proof.
  cbn [ends]. intros Hin. apply list_elem_of_In, in_flat_map in Hin.
  destruct Hin as ([m1 mid] & H1 & H2). cbn [fst snd] in H2.
  apply in_map_iff in H2 as ([m2 rest'] & [= <- <-] & H2).
  exists m1, m2, mid. by rewrite !list_elem_of_In.
Qed.

Lemma ends_Lits_elem l s m rest : (m, rest) ∈ ends (Lits l) s -> m = l.
Proof.
  rewrite ends_Lits. destruct (starts_with l s); [|by intros ?%elem_of_nil].
  by intros [= -> _]%list_elem_of_singleton.
Qed.

Lemma ends_Chr_elem c s m rest : (m, rest) ∈ ends (Chr c) s -> m = [c].
Proof.
  cbn [ends]. destruct s as [|x s]; [by intros ?%elem_of_nil|].
  destruct (N.eqb_spec x c) as [->|_]; [|by intros ?%elem_of_nil].
  by intros [= -> _]%list_elem_of_singleton.
Qed.

Lemma ends_Cls_elem p s m rest :
  (m, rest) ∈ ends (Cls p) s -> exists x, m = [x] /\ p x = true.
Proof.
  cbn [ends]. destruct s as [|x s]; [by intros ?%elem_of_nil|].
  destruct (p x) eqn:E; [|by intros ?%elem_of_nil].
  intros [= -> _]%list_elem_of_singleton. by exists x.
Qed.

Lemma star_ends_elem g p s m rest :
  (m, rest) ∈ star_ends g p s -> forall c, c ∈ m -> p c = true.
Proof.
  revert m. induction s as [|a s IH]; intros m; cbn [star_ends].
  - by intros [= -> _]%list_elem_of_singleton c ?%elem_of_nil.
  - assert (Hnil : (m, rest) ∈ [([], a :: s)] ->
                   forall c, c ∈ m -> p c = true)
      by (by intros [= -> _]%list_elem_of_singleton c ?%elem_of_nil).
    assert (Hmap : (m, rest) ∈ map (cons_fst a) (star_ends g p s) ->
                   p a = true -> forall c, c ∈ m -> p c = true).
    { intros ([m' r'] & [= -> ->] & Hx)%list_elem_of_fmap Hpa c.
      intros [->|Hc]%elem_of_cons; [done|]. by apply (IH m'). }
    destruct (p a) eqn:Hpa; [|done].
    destruct g.
    + intros [H|H]%elem_of_app; auto.
    + intros [H|H]%elem_of_cons; [|auto]. apply Hnil. rewrite H. left.
Qed.

(** What the block pattern of a kind matches. *)
Lemma block_shape kind s m rest :
  rmatch (block_pattern kind) s = Some (m, rest) ->
  exists gap name tail,
    m = O_META ++ gap ++ O_NAME ++ kind ++ [46%N] ++ name ++ C_NAME
        ++ tail ++ C_META /\
    name <> [] /\ 60%N ∉ name.
Proof.
  intros H. unfold rmatch in H.
  assert (Hin : (m, rest) ∈ ends (block_pattern kind) s).
  { destruct (ends (block_pattern kind) s) as [|x xs]; [done|].
    injection H as ->. left. }
  clear H. unfold block_pattern, Plus in Hin. cbn [Seq foldr] in Hin.
  apply ends_cat_elem in Hin as (m1 & n1 & s1 & H1 & Hin & ->).
  apply ends_cat_elem in Hin as (m2 & n2 & s2 & H2 & Hin & ->).
  apply ends_cat_elem in Hin as (m3 & n3 & s3 & H3 & Hin & ->).
  apply ends_cat_elem in Hin as (m4 & n4 & s4 & H4 & Hin & ->).
  apply ends_cat_elem in Hin as (m5 & n5 & s5 & H5 & Hin & ->).
  apply ends_cat_elem in Hin as (m6 & n6 & s6 & H6 & Hin & ->).
  apply ends_cat_elem in Hin as (m7 & n7 & s7 & H7 & Hin & ->).
  apply ends_cat_elem in Hin as (m8 & n8 & s8 & H8 & Hin & ->).
  apply ends_cat_elem in Hin as (m9 & n9 & s9 & H9 & Hin & ->).
  apply ends_Lits_elem in H1 as ->. apply ends_Lits_elem in H3 as ->.
  apply ends_Lits_elem in H4 as ->. apply ends_Chr_elem in H5 as ->.
  apply ends_Lits_elem in H7 as ->. apply ends_Lits_elem in H9 as ->.
  apply ends_cat_elem in H6 as (x1 & x2 & t & Hx1 & Hx2 & ->).
  apply ends_Cls_elem in Hx1 as (x & -> & Hx).
  pose proof (star_ends_elem _ _ _ _ _ Hx2) as Hname.
  apply list_elem_of_singleton in Hin. injection Hin as -> _.
  exists m2, ([x] ++ x2), m8. rewrite app_nil_r. split; [done|].
  split; [done|].
  intros [Hc%list_elem_of_singleton|Hc]%elem_of_app.
  - rewrite <- Hc in Hx. vm_compute in Hx. discriminate Hx.
  - apply Hname in Hc. vm_compute in Hc. discriminate Hc.
Qed.

Lemma hits_matched r s m :
  0 < min_len r -> m ∈ findall r s -> exists t rest, rmatch r t = Some (m, rest).
Proof.
  intros Hmin. revert m.
  induction s as [s IH] using (induction_ltof1 _ (@length N)).
  unfold ltof in IH. intros m. unfold findall.
  destruct (scan_regex_cases r Hmin s) as [(m0 & rest & E & Hm0 & -> & ->)|[E Hs]].
  - rewrite hits_hit. intros [->|Hin]%elem_of_cons.
    + by exists (m0 ++ rest), rest.
    + apply IH in Hin; [done|].
      rewrite length_app. destruct m0; [done|]. cbn [length]. lia.
  - destruct s as [|c s]; rewrite Hs; [by intros ?%elem_of_nil|].
    rewrite hits_keep. intros Hin. apply IH in Hin; [done|]. cbn [length]. lia.
Qed.

Lemma catalog_block_nonempty : 0 < min_len catalog_block_pattern.
Proof. vm_compute. lia. Qed.

(** X13. When [ConfigDumpInfo.xml] holds a match of the catalog block
    pattern and the text of the last one occurs at one place only, the
    integrate step writes the file with the new block, on lines of its own,
    right after that match; the match runs from an [<xr:Metadata>] through a
    name field [Catalog.NAME] to an [</xr:Metadata>]; the new block carries
    the one identifier the step generates. *)
Theorem block_after_last_catalog uuid4 base clone_name w c b L :
  fs w !! config_xml base = Some (File c) ->
  fs w !! config_dump_info base = Some (File b) ->
  last (findall catalog_block_pattern b) = Some L ->
  occurrences L b = 1 ->
  exists w' pre post gap name tail,
    integrate_into_config uuid4 base clone_name w = (inr tt, w') /\
    b = pre ++ L ++ post /\
    L = O_META ++ gap ++ O_NAME ++ lit "Catalog" ++ [46%N] ++ name ++ C_NAME
        ++ tail ++ C_META /\
    name <> [] /\ (60%N ∉ name) /\
    fs w' !! config_dump_info base
    = Some (File (pre ++ L ++ NL :: new_block clone_name (uuid4 (drawn w))
                  ++ post)) /\
    drawn w' = S (drawn w).
Proof.
  intros Hc Hb Hlast Hone.
  destruct (inject_after_last catalog_block_pattern document_block_pattern
              DUMP_CLOSE (new_block clone_name (uuid4 (drawn w))) b L
              catalog_block_nonempty Hlast Hone)
    as (pre & post & Hsplit & Hinj).
  apply last_Some_elem_of, (hits_matched _ _ _ catalog_block_nonempty) in Hlast
    as (t & rest & Hm).
  apply block_shape in Hm as (gap & name & tail & HL & Hname & Hlt).
  eexists _, pre, post, gap, name, tail.
  split; [by apply integrate_into_config_run|]. cbn [fs drawn].
  split; [done|]. split; [done|]. split; [done|]. split; [done|].
  split; [|done].
  rewrite lookup_insert_eq. unfold dump_injected. by rewrite Hinj.
Qed.

Lemma block_after_last_catalog_witness :
  exists w' pre post gap name tail,
    integrate_into_config sample_uuid4 sample_base CLONE_NAME sample_world
    = (inr tt, w') /\
    sample_dump = pre ++ drop 2 DONOR_BLOCK ++ post /\
    drop 2 DONOR_BLOCK
    = O_META ++ gap ++ O_NAME ++ lit "Catalog" ++ [46%N] ++ name ++ C_NAME
      ++ tail ++ C_META /\
    name <> [] /\ (60%N ∉ name) /\
    fs w' !! config_dump_info sample_base
    = Some (File (pre ++ drop 2 DONOR_BLOCK
                  ++ NL :: new_block CLONE_NAME
                             (sample_uuid4 (drawn sample_world))
                  ++ post)) /\
    drawn w' = S (drawn sample_world).
Proof.
  apply (block_after_last_catalog sample_uuid4 sample_base CLONE_NAME
           sample_world sample_config sample_dump); vm_compute; reflexivity.
Defined.

(** X14. When [ConfigDumpInfo.xml] holds neither a catalog block nor a
    document block and holds the tab-indented closing tag of the container
    at one place, the integrate step writes the file with the new block
    right before that closing tag. *)
Theorem block_before_closing_tag uuid4 base clone_name w c b :
  fs w !! config_xml base = Some (File c) ->
  fs w !! config_dump_info base = Some (File b) ->
  findall catalog_block_pattern b = [] ->
  search document_block_pattern b = None ->
  occurrences DUMP_CLOSE b = 1 ->
  exists w' pre post,
    integrate_into_config uuid4 base clone_name w = (inr tt, w') /\
    b = pre ++ DUMP_CLOSE ++ post /\
    fs w' !! config_dump_info base
    = Some (File (pre ++ new_block clone_name (uuid4 (drawn w))
                  ++ NL :: DUMP_CLOSE ++ post)).
Proof.
  intros Hc Hb HP HQ Hone.
  destruct (inject_at_close catalog_block_pattern document_block_pattern
              DUMP_CLOSE (new_block clone_name (uuid4 (drawn w))) b
              ltac:(done) HP HQ Hone)
    as (pre & post & Hsplit & Hinj).
  eexists _, pre, post.
  split; [by apply integrate_into_config_run|]. cbn [fs].
  split; [done|].
  rewrite lookup_insert_eq. unfold dump_injected. by rewrite Hinj.
Qed.

Lemma block_before_closing_tag_witness :
  exists w' pre post,
    integrate_into_config sample_uuid4 sample_base CLONE_NAME empty_export
    = (inr tt, w') /\
    empty_dump = pre ++ DUMP_CLOSE ++ post /\
    fs w' !! config_dump_info sample_base
    = Some (File (pre ++ new_block CLONE_NAME
                           (sample_uuid4 (drawn empty_export))
                  ++ NL :: DUMP_CLOSE ++ post)).
Proof.
  apply (block_before_closing_tag sample_uuid4 sample_base CLONE_NAME
           empty_export empty_config empty_dump); vm_compute; reflexivity.
Defined.

(** ** After the cleanup *)

Lemma occurs_line_split (x l t : list N) :
  NL ∉ x -> x <> [] ->
  occurs x (l ++ NL :: t) = occurs x l || occurs x t.
Proof.
  intros Hx Hne.
  assert (He : starts_line (NL :: t)) by (right; by exists t).
  induction l as [|c l IH].
  - cbn [app]. rewrite (occurs_unfold x (NL :: t)), (occurs_unfold x []).
    rewrite starts_with_nil_r by done.
    rewrite starts_with_head_ne; [done|done|].
    intros Hh. apply Hx. destruct x as [|a x]; [done|].
    injection Hh as ->. left.
  - cbn [app].
    rewrite (occurs_unfold x (c :: l ++ NL :: t)), (occurs_unfold x (c :: l)).
    change (c :: l ++ NL :: t) with ((c :: l) ++ NL :: t).
    by rewrite (starts_with_line x (c :: l) _ Hx He), IH, orb_assoc.
Qed.

Lemma sub_trace_clean ref c :
  NL ∉ ref ->
  occurs (catalog_entry ref) (sub (config_trace_pattern ref) [] c) = false.
Proof.
  intros Href. unfold catalog_entry.
  induction c as [l Hl|l rest Hl IH] using lines_ind.
  - rewrite (sub_line_end ref Href l Hl).
    destruct (occurs _ l) eqn:E; [|done].
    by rewrite occurs_unfold, starts_with_nil_r.
  - rewrite (sub_line_nl ref Href l rest Hl).
    destruct (occurs _ l) eqn:E; [done|].
    rewrite <- app_assoc. cbn [app].
    rewrite occurs_line_split, E, IH; [done|by apply marker_no_nl|done].
Qed.

(** X15. After the cleanup [Configuration.xml] holds the clone's catalog
    entry nowhere, and a second cleanup finds nothing to do in it. *)
Theorem cleanup_leaves_no_entry base clone_name w c :
  NL ∉ clone_name -> SLASH ∉ clone_name ->
  fs w !! config_xml base = Some (File c) ->
  fs w !! config_dump_info base <> Some Dir ->
  fs w !! catalog_file base clone_name <> Some Dir ->
  exists w' c',
    remove_existing_traces base clone_name w = (inr tt, w') /\
    fs w' !! config_xml base = Some (File c') /\
    occurs (catalog_entry (ref_name clone_name)) c' = false /\
    sub (config_trace_pattern (ref_name clone_name)) [] c' = c'.
Proof.
  intros Hnl Hsl Hc Hb Hcl.
  pose proof (new_line_no_nl clone_name Hnl) as Href.
  pose proof (remove_existing_traces_run base clone_name w) as Hrun.
  cbv zeta in Hrun. rewrite Hrun by (rewrite ?Hc; done). clear Hrun.
  eexists _, _. split; [reflexivity|]. cbn [fs].
  split.
  - rewrite unlink_fs_lookup_ne by (by apply catalog_file_ne_config).
    rewrite clean_fs_lookup_ne
      by (intros E; symmetry in E; by apply config_xml_ne_dump in E).
    apply (clean_fs_lookup_file _ _ _ c Hc).
  - split; [by apply sub_trace_clean | by apply sub_trace_idem].
Qed.

Lemma cleanup_leaves_no_entry_witness :
  exists w' c',
    remove_existing_traces sample_base CLONE_NAME trace_world = (inr tt, w') /\
    fs w' !! config_xml sample_base = Some (File c') /\
    occurs (catalog_entry (ref_name CLONE_NAME)) c' = false /\
    sub (config_trace_pattern (ref_name CLONE_NAME)) [] c' = c'.
Proof.
  apply (cleanup_leaves_no_entry sample_base CLONE_NAME trace_world
           trace_config).
  - solve_notin.
  - solve_notin.
  - vm_compute; reflexivity.
  - vm_compute; discriminate.
  - vm_compute; discriminate.
Defined.

(** ** The identifier format and the identifier pattern *)

Lemma is_hex_digit c : is_hex c = true <-> hex_digit c.
Proof.
  unfold is_hex, hex_digit.
  rewrite !orb_true_iff, !andb_true_iff, !N.leb_le. tauto.
Qed.

Lemma pass_lookup ts : forall s,
  length ts <= length s ->
  pass ts s = true <->
  forall i p c, ts !! i = Some p -> s !! i = Some c -> p c = true.
Proof.
  induction ts as [|q ts IH]; intros s Hlen.
  - split; [by intros _ i p c ?|done].
  - destruct s as [|a s]; [cbn [length] in Hlen; lia|].
    cbn [pass]. rewrite andb_true_iff, (IH s) by (cbn [length] in Hlen; lia).
    split.
    + intros [Hq Hts] [|i] p c; cbn [lookup list_lookup].
      * by intros [= <-] [= <-].
      * apply Hts.
    + intros H. split; [by apply (H 0)|].
      intros i p c. apply (H (S i)).
Qed.

Lemma uuid_tests_lookup i :
  i < 36 ->
  uuid_tests !! i = Some (if hyphen_at i then is_char HYPHEN else is_hex).
Proof.
  intros Hi.
  do 36 (destruct i as [|i]; [reflexivity|]). lia.
Qed.

Lemma canonical_format u : canonical u <-> identifier_format u.
Proof.
  rewrite canonical_iff. unfold identifier_format. split.
  - intros [Hp Hlen]. split; [done|]. intros i c Hu.
    assert (Hi : i < 36) by (rewrite <- Hlen; by apply lookup_lt_Some in Hu).
    assert (Hle : length uuid_tests <= length u)
      by (rewrite uuid_tests_length; lia).
    pose proof (proj1 (pass_lookup uuid_tests u Hle) Hp i _ c
                  (uuid_tests_lookup i Hi) Hu) as Hpc. clear Hp.
    rename Hpc into Hp.
    destruct (hyphen_at i).
    + by apply N.eqb_eq in Hp.
    + by apply is_hex_digit.
  - intros [Hlen H]. split; [|done].
    assert (Hle : length uuid_tests <= length u)
      by (rewrite uuid_tests_length; lia).
    apply (proj2 (pass_lookup uuid_tests u Hle)).
    intros i p c Hp Hu.
    assert (Hi : i < 36) by (rewrite <- Hlen; by apply lookup_lt_Some in Hu).
    rewrite (uuid_tests_lookup i Hi) in Hp. injection Hp as <-.
    specialize (H i c Hu). destruct (hyphen_at i).
    + by apply N.eqb_eq.
    + by apply is_hex_digit.
Qed.

Lemma identical_same_but uuid4 donor_name clone_name n s t :
  identical_but uuid4 donor_name clone_name n s t ->
  same_but uuid4 donor_name clone_name n s t.
Proof.
  induction 1 as [n|n c s t H1 H2 H3 _ IH|n s t _ IH|n s t _ IH|n u s t Hu _ IH].
  - constructor.
  - apply sb_same; [| | |done].
    + intros Hb. apply starts_with_iff in Hb. congruence.
    + intros Hb. apply starts_with_iff in Hb. congruence.
    + intros (u & r & Hs & Hu%canonical_format).
      rewrite Hs, (rmatch_uuid_canonical u r Hu) in H3. discriminate H3.
  - by apply sb_ref.
  - by apply sb_tag.
  - apply sb_guid; [by apply canonical_format|done].
Qed.

(** ** C1 *)

(** C1 (amended). For a donor file whose decoded characters are [raw], the
    text the clone step writes to the clone's definition file is the text
    the read gives ([raw] with each ["\r\n"] and ["\r"] read as ["\n"]),
    character for character, except for the substitutions: reading from left
    to right, each [.<donor-name>] is [.<clone-name>], each [><donor-name><]
    is [><clone-name><], each text of the canonical identifier format met is
    a generated identifier, reading resumes after what was replaced, and a
    character is copied unchanged exactly where none of the three begins.
    The text is not parsed: this holds for any [raw].  (The donor name
    holds no [.], the clone name no [>] and no hexadecimal digit, as is the
    case of the names of the script.) *)
Theorem clone_output_same_but uuid4 base donor_name clone_name w raw :
  46%N ∉ donor_name ->
  62%N ∉ clone_name ->
  (forall c, c ∈ clone_name -> ~ hex_digit c) ->
  fs w !! catalog_file base donor_name = Some (on_disk raw) ->
  fs w !! catalog_file base clone_name <> Some Dir ->
  exists w' out,
    clone_and_regenerate uuid4 base donor_name clone_name w = (inr tt, w') /\
    fs w' !! catalog_file base clone_name = Some (File out) /\
    Wrote (catalog_file base clone_name) out ∈ log w' /\
    same_but uuid4 donor_name clone_name (drawn w) (universal_newlines raw) out.
Proof.
  intros H1 H2 H3' Hd Hc. unfold on_disk in Hd.
  assert (H3 : forall c, c ∈ clone_name -> is_hex c = false).
  { intros c Hin. destruct (is_hex c) eqn:E; [|done].
    by apply is_hex_digit, H3' in E. }
  eexists _, _. split; [by apply clone_and_regenerate_run|].
  split; [apply lookup_insert_eq|]. split.
  - cbn [log]. apply elem_of_app. right. do 3 right. left.
  - by apply identical_same_but, clone_text_identical.
Qed.

Lemma clone_output_same_but_witness :
  exists w' out,
    clone_and_regenerate sample_uuid4 sample_base DONOR_NAME CLONE_NAME
      crlf_sample_world = (inr tt, w') /\
    fs w' !! catalog_file sample_base CLONE_NAME = Some (File out) /\
    Wrote (catalog_file sample_base CLONE_NAME) out ∈ log w' /\
    same_but sample_uuid4 DONOR_NAME CLONE_NAME (drawn crlf_sample_world)
      (universal_newlines crlf_sample_donor) out.
Proof.
  apply (clone_output_same_but sample_uuid4 sample_base DONOR_NAME
           CLONE_NAME crlf_sample_world crlf_sample_donor).
  - solve_notin.
  - solve_notin.
  - intros c Hin Hc. vm_compute in Hin.
    repeat (apply elem_of_cons in Hin as [->|Hin];
            [unfold hex_digit in Hc; lia|]).
    by apply elem_of_nil in Hin.
  - vm_compute. reflexivity.
  - vm_compute. discriminate.
Defined.

Ltac solve_format_at Hi :=
  vm_compute in Hi; injection Hi as <-;
  cbv [hyphen_at Nat.eqb orb];
  first [reflexivity | unfold hex_digit; lia].

Lemma identifier_format_sample :
  identifier_format (lit "89abcdef-89ab-cdef-0123-456789abcdef").
Proof.
  split; [reflexivity|]. intros i c Hi.
  do 36 (destruct i as [|i]; [by solve_format_at Hi|]).
  vm_compute in Hi. discriminate Hi.
Qed.

(** C1, as stated, fails on a donor file with Windows line ends that holds
    two overlapping texts of the identifier format.  The file's characters
    end with ["\r\n"]; the second text of the identifier format starts at
    the last eight characters of the first.  The clone file ends with
    ["\n"] alone, although the ["\r"] is part of no substitution; and only
    the first identifier is replaced: the last 28 characters of the second
    are carried over as they are. *)
Lemma donor_bytes_not_kept :
  fs crlf_world !! catalog_file sample_base DONOR_NAME
  = Some (on_disk crlf_donor) /\
  crlf_donor
  = lit "<id>" ++ lit "01234567-89ab-cdef-0123-4567"
    ++ lit "89abcdef-89ab-cdef-0123-456789abcdef" ++ lit "</id>" ++ [CR; NL] /\
  identifier_format (lit "01234567-89ab-cdef-0123-456789abcdef") /\
  identifier_format (lit "89abcdef-89ab-cdef-0123-456789abcdef") /\
  let r := clone_and_regenerate sample_uuid4 sample_base DONOR_NAME CLONE_NAME
             crlf_world in
  r.1 = inr tt /\
  drawn r.2 = 1 /\
  fs r.2 !! catalog_file sample_base CLONE_NAME
  = Some (File (lit "<id>" ++ sample_uuid4 0
                ++ lit "-89ab-cdef-0123-456789abcdef" ++ lit "</id>" ++ [NL])).
Proof.
  split; [vm_compute; reflexivity|]. split; [vm_compute; reflexivity|].
  split.
  { split; [reflexivity|]. intros i c Hi.
    do 36 (destruct i as [|i]; [by solve_format_at Hi|]).
    vm_compute in Hi. discriminate Hi. }
  split; [exact identifier_format_sample|].
  cbv zeta. repeat split; vm_compute; reflexivity.
Qed.
